(** * SMT-LIB2 bridge of the Solidity SMT checker: encoder, dispatcher, reader

    A shallow embedding of
      - libsmtutil/SMTLib2Interface.cpp  (script encoder and solver dispatcher)
      - libsmtutil/SMTLibParser.cpp      (s-expression reader)
      - libsolidity/interface/SMTSolverCommand.h  (the solver callback)
    followed by the properties established about them.

    Conventions of the embedding.
      - [std::string] is [string]; a pair of iterators [(it, cend)] into a
        string is the suffix that starts at [it].
      - [std::map] is stdpp's [gmap]; [std::vector] is [list], its back being
        the last element.
      - A member function of [SMTLib2Interface] is a computation in the
        monad [M]: it receives the object, and either fails (an exception
        leaves the function) or returns a value and the updated object.  [M]
        does not say what the object is after an exception; module [Thrown]
        embeds the functions on the way of a declaration once more, in a
        monad that does.
      - A [Sort] object carries the address it lives at, because the
        sort-name cache is keyed by [Sort const*]. *)

From Stdlib Require Import String Ascii NArith List DecimalString Lia.
From stdpp Require Import gmap strings list numbers.

Local Open Scope string_scope.
Local Open Scope N_scope.

(** ** The pieces of the C++ standard library and of boost that the code calls *)

Module Cpp.

(** [std::find(it, cend, c)]: the suffix that starts at the first [c], the
    empty suffix ([cend]) when there is none. *)
Fixpoint find (c : ascii) (s : string) : string :=
  match s with
  | EmptyString => EmptyString
  | String a r => if Ascii.eqb a c then s else find c r
  end.

(** [std::string(it, std::find(it, cend, c))]: the characters in front of the
    first [c]. *)
Fixpoint upto (c : ascii) (s : string) : string :=
  match s with
  | EmptyString => EmptyString
  | String a r => if Ascii.eqb a c then EmptyString else String a (upto c r)
  end.

(** [++it], guarded by [it < cend]. *)
Definition next (s : string) : string :=
  match s with
  | EmptyString => EmptyString
  | String _ r => r
  end.

(** [boost::starts_with(s, p)]. *)
Definition starts_with (s p : string) : bool := String.prefix p s.

(** [boost::algorithm::join(v, sep)]. *)
Fixpoint join (v : list string) (sep : string) : string :=
  match v with
  | [] => ""
  | [x] => x
  | x :: r => x +:+ sep +:+ join r sep
  end.

(** The line feed, the character ['\n']. *)
Definition LF : ascii := "010"%char.

(** The string ["\n"]. *)
Definition nl : string := String LF EmptyString.

(** [std::map::emplace]: an existing key keeps its value. *)
Definition emplace {V} (k : string) (v : V) (m : gmap string V) : gmap string V :=
  match m !! k with
  | Some _ => m
  | None => <[k := v]> m
  end.

(** [std::to_string] at an unsigned integer type. *)
Definition to_string (n : N) : string := NilZero.string_of_uint (N.to_uint n).

(** The two exceptions of [std::stoul]. *)
Inductive stoul_error := invalid_argument | out_of_range.

Definition isspace (a : ascii) : bool :=
  let n := N_of_ascii a in (n =? 32) || ((9 <=? n) && (n <=? 13)).

Definition digit (a : ascii) : option N :=
  let n := N_of_ascii a in
  if (48 <=? n) && (n <=? 57) then Some (n - 48) else None.

Fixpoint skip_space (s : string) : string :=
  match s with
  | String a r => if isspace a then skip_space r else s
  | EmptyString => s
  end.

(** The longest run of decimal digits in front of [s], as a number. *)
Fixpoint digits (acc : N) (s : string) : N :=
  match s with
  | String a r =>
      match digit a with
      | Some d => digits (10 * acc + d) r
      | None => acc
      end
  | EmptyString => acc
  end.

Definition ULONG_MAX : N := 2 ^ 64 - 1.

Definition stoul_digits (negative : bool) (s : string) : stoul_error + N :=
  match s with
  | String a _ =>
      match digit a with
      | Some _ =>
          let v := digits 0 s in
          if ULONG_MAX <? v then inl out_of_range
          else inr (if negative then (2 ^ 64 - v) mod 2 ^ 64 else v)
      | None => inl invalid_argument
      end
  | EmptyString => inl invalid_argument
  end.

(** [std::stoul(s)] in base ten with a 64-bit [unsigned long], as [strtoul]
    converts: white space, an optional sign, digits; a minus sign negates in
    the unsigned type; what follows the digits is ignored. *)
Definition stoul (s : string) : stoul_error + N :=
  match skip_space s with
  | String "+" r => stoul_digits false r
  | String "-" r => stoul_digits true r
  | r => stoul_digits false r
  end.

End Cpp.

(** ** Sorts and expressions *)

(** The address of a [Sort] object. *)
Definition addr := N.

Inductive Kind := KInt | KBool | KBitVector | KFunction | KArray | KSort | KTuple.

(** Modelled from the spec: the classes [Sort], [IntSort], [BitVectorSort],
    [ArraySort], [TupleSort], [FunctionSort] and [SortSort] are declared in
    libsmtutil/Sorts.h, which is not among the sources.  The spec gives the
    variants and their fields; the fields [isSigned], [size], [domain],
    [range], [name], [members], [components], [codomain] and [inner] are the
    ones the code reads.  A [SortPointer] is a [std::shared_ptr<Sort>], which
    may be null ([None]).  [self] is the address of the object; objects that
    are alive together have different addresses, which the embedding does not
    enforce. *)
#[warnings="-register-all"]
Inductive Sort : Type :=
| IntSort (self : addr) (isSigned : bool)
| BoolSort (self : addr)
| BitVectorSort (self : addr) (size : N)
| ArraySort (self : addr) (domain range : option Sort)
| TupleSort (self : addr) (name : string) (members : list string)
    (components : list (option Sort))
| FunctionSort (self : addr) (domain : list (option Sort)) (codomain : option Sort)
| SortSort (self : addr) (inner : option Sort).

Abbreviation SortPointer := (option Sort).

Definition kind (s : Sort) : Kind :=
  match s with
  | IntSort _ _ => KInt
  | BoolSort _ => KBool
  | BitVectorSort _ _ => KBitVector
  | ArraySort _ _ _ => KArray
  | TupleSort _ _ _ _ => KTuple
  | FunctionSort _ _ _ => KFunction
  | SortSort _ _ => KSort
  end.

Definition Kind_eqb (a b : Kind) : bool :=
  match a, b with
  | KInt, KInt | KBool, KBool | KBitVector, KBitVector | KFunction, KFunction
  | KArray, KArray | KSort, KSort | KTuple, KTuple => true
  | _, _ => false
  end.

(** [&_sort] *)
Definition address (s : Sort) : addr :=
  match s with
  | IntSort a _ | BoolSort a | BitVectorSort a _ | ArraySort a _ _
  | TupleSort a _ _ _ | FunctionSort a _ _ | SortSort a _ => a
  end.

(** Modelled from the spec: the class [Expression] is declared in
    libsmtutil/SolverInterface.h, which is not among the sources: a name, the
    arguments in order, and a sort. *)
#[warnings="-register-all"]
Inductive Expression : Type :=
  mkExpression { name : string; arguments : list Expression; sort : SortPointer }.

(** ** Failures *)

(** What leaves a function other than its result. *)
Inductive Failure :=
| AssertionFailed (message : string)    (* smtAssert *)
| StdInvalidArgument                     (* std::stoul *)
| StdOutOfRange                          (* std::stoul, std::map::at *)
| UndefinedBehaviour.                    (* null dereference, operator[] out of range *)

Definition Outcome (A : Type) : Type := (Failure + A)%type.

Definition of_stoul (r : Cpp.stoul_error + N) : Outcome N :=
  match r with
  | inl Cpp.invalid_argument => inl StdInvalidArgument
  | inl Cpp.out_of_range => inl StdOutOfRange
  | inr n => inr n
  end.

(** ** The check results and the callback *)

(** Modelled from the spec: the enumeration [CheckResult] is declared in
    libsmtutil/SolverInterface.h, which is not among the sources. *)
Inductive CheckResult := SATISFIABLE | UNSATISFIABLE | UNKNOWN | CONFLICTING | ERROR.

Definition CheckResult_eqb (a b : CheckResult) : bool :=
  match a, b with
  | SATISFIABLE, SATISFIABLE | UNSATISFIABLE, UNSATISFIABLE | UNKNOWN, UNKNOWN
  | CONFLICTING, CONFLICTING | ERROR, ERROR => true
  | _, _ => false
  end.

(** Modelled from the spec: [ReadCallback::Result], declared in
    libsolidity/interface/ReadFile.h, which is not among the sources. *)
Record ReadResult := { success : bool; responseOrErrorMessage : string }.

(** Modelled from the spec: [SMTSolverChoice], declared in
    libsmtutil/SolverInterface.h, which is not among the sources; the two
    flags that [check] reads. *)
Record SMTSolverChoice := { cvc4 : bool; z3 : bool }.

(** ** The encoder and dispatcher object *)

Section Interface.

(** The state of whatever the callback talks to: a callback may answer
    differently each time it is called. *)
Context {World : Type}.

(** [ReadCallback::Callback]: the request label and the query go in, a
    [ReadCallback::Result] comes out. *)
Definition Callback : Type := string -> string -> World -> ReadResult * World.

(** The data members of [SMTLib2Interface] ([m_queryTimeout] is inherited
    from [SolverInterface]).  An empty [std::function] is [None]. *)
Record SMTLib2Interface := {
  m_accumulatedOutput : list string;
  m_variables : gmap string SortPointer;
  m_userSorts : list (string * string);
  m_sortNames : gmap addr string;
  m_unhandledQueries : list string;
  m_smtCallback : option Callback;
  m_enabledSolvers : SMTSolverChoice;
  m_queryTimeout : option N
}.

Definition set_accumulatedOutput (f : list string -> list string) (o : SMTLib2Interface) :=
  {| m_accumulatedOutput := f (m_accumulatedOutput o);
     m_variables := m_variables o; m_userSorts := m_userSorts o;
     m_sortNames := m_sortNames o; m_unhandledQueries := m_unhandledQueries o;
     m_smtCallback := m_smtCallback o; m_enabledSolvers := m_enabledSolvers o;
     m_queryTimeout := m_queryTimeout o |}.

Definition set_variables (f : gmap string SortPointer -> gmap string SortPointer)
    (o : SMTLib2Interface) :=
  {| m_accumulatedOutput := m_accumulatedOutput o;
     m_variables := f (m_variables o); m_userSorts := m_userSorts o;
     m_sortNames := m_sortNames o; m_unhandledQueries := m_unhandledQueries o;
     m_smtCallback := m_smtCallback o; m_enabledSolvers := m_enabledSolvers o;
     m_queryTimeout := m_queryTimeout o |}.

Definition set_userSorts (f : list (string * string) -> list (string * string))
    (o : SMTLib2Interface) :=
  {| m_accumulatedOutput := m_accumulatedOutput o;
     m_variables := m_variables o; m_userSorts := f (m_userSorts o);
     m_sortNames := m_sortNames o; m_unhandledQueries := m_unhandledQueries o;
     m_smtCallback := m_smtCallback o; m_enabledSolvers := m_enabledSolvers o;
     m_queryTimeout := m_queryTimeout o |}.

Definition set_sortNames (f : gmap addr string -> gmap addr string)
    (o : SMTLib2Interface) :=
  {| m_accumulatedOutput := m_accumulatedOutput o;
     m_variables := m_variables o; m_userSorts := m_userSorts o;
     m_sortNames := f (m_sortNames o); m_unhandledQueries := m_unhandledQueries o;
     m_smtCallback := m_smtCallback o; m_enabledSolvers := m_enabledSolvers o;
     m_queryTimeout := m_queryTimeout o |}.

Definition set_unhandledQueries (f : list string -> list string) (o : SMTLib2Interface) :=
  {| m_accumulatedOutput := m_accumulatedOutput o;
     m_variables := m_variables o; m_userSorts := m_userSorts o;
     m_sortNames := m_sortNames o; m_unhandledQueries := f (m_unhandledQueries o);
     m_smtCallback := m_smtCallback o; m_enabledSolvers := m_enabledSolvers o;
     m_queryTimeout := m_queryTimeout o |}.

(** *** The monad of member functions *)

Definition M (A : Type) : Type := SMTLib2Interface -> Outcome (A * SMTLib2Interface).

Definition ret {A} (a : A) : M A := fun o => inr (a, o).

Definition bind {A B} (c : M A) (k : A -> M B) : M B :=
  fun o =>
    match c o with
    | inl f => inl f
    | inr (a, o') => k a o'
    end.

Definition throw {A} (f : Failure) : M A := fun _ => inl f.

Definition gets {A} (f : SMTLib2Interface -> A) : M A := fun o => inr (f o, o).

Definition modify (f : SMTLib2Interface -> SMTLib2Interface) : M unit :=
  fun o => inr (tt, f o).

Definition lift {A} (r : Outcome A) : M A :=
  fun o =>
    match r with
    | inl f => inl f
    | inr a => inr (a, o)
    end.

Definition smtAssert (condition : bool) (message : string) : M unit :=
  if condition then ret tt else throw (AssertionFailed message).

End Interface.

Arguments SMTLib2Interface : clear implicits.
Arguments M : clear implicits.
Arguments Callback : clear implicits.

Declare Scope smt_scope.
Notation "'let*' x := c 'in' k" := (bind c (fun x => k))
  (at level 10, x name, c at level 100, k at level 200) : smt_scope.
Notation "c ;; k" := (bind c (fun _ => k))
  (at level 100, k at level 200, right associativity) : smt_scope.
Local Open Scope smt_scope.

(** The order in which a compiler evaluates the operands of a [+] is not
    fixed by the language.  Two places of the code have two operands with
    effects: the domain and the range of an array sort in [sortToString], and
    the joined output and the tail command in [check] and [dumpQuery].  The
    embedding takes the choice made at each place as a parameter. *)
Record EvaluationOrder := { rangeBeforeDomain : bool; tailBeforeJoin : bool }.

Section Encoder.

Context {World : Type}.
Variable order : EvaluationOrder.

Abbreviation M := (M World).
Abbreviation SMTLib2Interface := (SMTLib2Interface World).

(** [m_accumulatedOutput.back() += data] *)
Fixpoint back_append (v : list string) (data : string) : list string :=
  match v with
  | [] => []
  | [x] => [x +:+ data]
  | x :: r => x :: back_append r data
  end.

Definition write (_data : string) : M unit :=
  let* v := gets m_accumulatedOutput in
  smtAssert (negb (Nat.eqb (length v) 0)) "" ;;
  modify (set_accumulatedOutput (fun v => back_append v (_data +:+ Cpp.nl))).

Definition reset : M unit :=
  modify (set_accumulatedOutput (fun _ => [])) ;;
  modify (set_accumulatedOutput (fun v => (v ++ [""])%list)) ;;
  modify (set_variables (fun _ => ∅)) ;;
  modify (set_userSorts (fun _ => [])) ;;
  modify (set_sortNames (fun _ => ∅)) ;;
  write "(set-option :produce-models true)" ;;
  let* timeout := gets m_queryTimeout in
  match timeout with
  | Some t => write ("(set-option :timeout " +:+ Cpp.to_string t +:+ ")")
  | None => ret tt
  end ;;
  write "(set-logic ALL)".

Definition push : M unit :=
  modify (set_accumulatedOutput (fun v => (v ++ [""])%list)).

Definition pop : M unit :=
  let* v := gets m_accumulatedOutput in
  smtAssert (negb (Nat.eqb (length v) 0)) "" ;;
  modify (set_accumulatedOutput (fun v => removelast v)).

(** *** Sorts *)

(** [toSmtLibSort(Sort const&)], at the address [a] of the sort and with
    [sortToString] of that sort as [compute]. *)
Definition toSmtLibSort_at (a : addr) (compute : M string) : M string :=
  let* cached := gets (fun o => m_sortNames o !! a) in
  match cached with
  | None =>
      let* smtLibName := compute in
      modify (set_sortNames (fun m => <[a := smtLibName]> m))
  | Some _ => ret tt
  end ;;
  let* cached := gets (fun o => m_sortNames o !! a) in
  match cached with
  | Some n => ret n
  | None => throw StdOutOfRange
  end.

(** The members of the datatype declaration of a tuple: the loop of the
    [Kind::Tuple] case, with [toSmtLibSort] as [rec]. *)
Section TupleMembers.

Variable rec : Sort -> M string.

Fixpoint tupleMembers (members : list string) (components : list SortPointer)
    (decl : string) {struct components} : M string :=
  match components, members with
  | c :: components', m :: members' =>
      match c with
      | Some c =>
          let* t := rec c in
          tupleMembers members' components' (decl +:+ " (|" +:+ m +:+ "| " +:+ t +:+ ")")
      | None => throw UndefinedBehaviour
      end
  | _, _ => ret decl
  end.

End TupleMembers.

Fixpoint sortToString (_sort : Sort) : M string :=
  match _sort with
  | IntSort _ _ => ret "Int"
  | BoolSort _ => ret "Bool"
  | BitVectorSort _ size => ret ("(_ BitVec " +:+ Cpp.to_string size +:+ ")")
  | ArraySort _ domain range =>
      match domain, range with
      | Some d, Some r =>
          if rangeBeforeDomain order then
            let* rn := toSmtLibSort_at (address r) (sortToString r) in
            let* dn := toSmtLibSort_at (address d) (sortToString d) in
            ret ("(Array " +:+ dn +:+ " " +:+ rn +:+ ")")
          else
            let* dn := toSmtLibSort_at (address d) (sortToString d) in
            let* rn := toSmtLibSort_at (address r) (sortToString r) in
            ret ("(Array " +:+ dn +:+ " " +:+ rn +:+ ")")
      | _, _ => throw (AssertionFailed "")
      end
  | TupleSort _ name members components =>
      let tupleName := "|" +:+ name +:+ "|" in
      let* known :=
        gets (fun o => existsb (fun entry => String.eqb (fst entry) tupleName)
                         (m_userSorts o)) in
      if known then ret tupleName
      else
        let decl := "(declare-datatypes ((" +:+ tupleName +:+ " 0)) (((" +:+ tupleName in
        smtAssert (Nat.eqb (length members) (length components)) "" ;;
        let* decl :=
          tupleMembers (fun c => toSmtLibSort_at (address c) (sortToString c))
            members components decl in
        let decl := decl +:+ "))))" in
        modify (set_userSorts (fun v => (v ++ [(tupleName, decl)])%list)) ;;
        write decl ;;
        ret tupleName
  | FunctionSort _ _ _ | SortSort _ _ => throw (AssertionFailed "Invalid SMT sort")
  end.

Definition toSmtLibSort (_sort : Sort) : M string :=
  toSmtLibSort_at (address _sort) (sortToString _sort).

(** [toSmtLibSort(std::vector<SortPointer> const&)], from the loop on. *)
Fixpoint toSmtLibSorts_from (_sorts : list SortPointer) (ssort : string) : M string :=
  match _sorts with
  | [] => ret (ssort +:+ ")")
  | Some s :: r =>
      let* t := toSmtLibSort s in
      toSmtLibSorts_from r (ssort +:+ t +:+ " ")
  | None :: _ => throw UndefinedBehaviour
  end.

Definition toSmtLibSorts (_sorts : list SortPointer) : M string :=
  toSmtLibSorts_from _sorts "(".

(** *** Declarations *)

Definition declareFunction (_name : string) (_sort : SortPointer) : M unit :=
  match _sort with
  | None => throw (AssertionFailed "")
  | Some (FunctionSort _ domain codomain) =>
      let* declared := gets (fun o => bool_decide (is_Some (m_variables o !! _name))) in
      if declared then ret tt
      else
        let* domain := toSmtLibSorts domain in
        let* codomain :=
          match codomain with
          | Some c => toSmtLibSort c
          | None => throw UndefinedBehaviour
          end in
        modify (set_variables (Cpp.emplace _name _sort)) ;;
        write ("(declare-fun |" +:+ _name +:+ "| " +:+ domain +:+ " " +:+ codomain +:+ ")")
  | Some _ => throw (AssertionFailed "")
  end.

Definition declareVariable (_name : string) (_sort : SortPointer) : M unit :=
  match _sort with
  | None => throw (AssertionFailed "")
  | Some s =>
      if Kind_eqb (kind s) KFunction then declareFunction _name _sort
      else
        let* declared := gets (fun o => bool_decide (is_Some (m_variables o !! _name))) in
        if declared then ret tt
        else
          modify (set_variables (Cpp.emplace _name _sort)) ;;
          let* t := toSmtLibSort s in
          write ("(declare-fun |" +:+ _name +:+ "| () " +:+ t +:+ ")")
  end.

(** *** Expressions *)

(** [for (auto const& arg: _expr.arguments) sexpr += " " + toSExpr(arg);]
    with [toSExpr] as [rec]. *)
Section Arguments.

Variable rec : Expression -> M string.

Fixpoint appendArguments (args : list Expression) (sexpr : string) : M string :=
  match args with
  | [] => ret sexpr
  | arg :: r =>
      let* t := rec arg in
      appendArguments r (sexpr +:+ " " +:+ t)
  end.

End Arguments.

(** [bvSort->size - 1] in [unsigned] arithmetic. *)
Definition unsigned_pred (n : N) : N := (n + 2 ^ 32 - 1) mod 2 ^ 32.

Fixpoint toSExpr (_expr : Expression) : M string :=
  match _expr with
  | mkExpression op args exprSort =>
    match args with
    | [] => ret op
    | front :: rest =>
      if String.eqb op "int2bv" then
        match rest with
        | [] => throw UndefinedBehaviour
        | width :: _ =>
            let* size := lift (of_stoul (Cpp.stoul (name width))) in
            let* arg := toSExpr front in
            let int2bv := "(_ int2bv " +:+ Cpp.to_string size +:+ ")" in
            ret ("(" +:+
                 ("ite " +:+
                  "(>= " +:+ arg +:+ " 0) " +:+
                  "(" +:+ int2bv +:+ " " +:+ arg +:+ ") " +:+
                  "(bvneg (" +:+ int2bv +:+ " (- " +:+ arg +:+ ")))") +:+
                 ")")
        end
      else if String.eqb op "bv2int" then
        match exprSort with
        | Some (IntSort _ isSigned) =>
            let* arg := toSExpr front in
            let nat := "(bv2nat " +:+ arg +:+ ")" in
            if negb isSigned then ret nat
            else
              match sort front with
              | Some (BitVectorSort _ size) =>
                  let pos := Cpp.to_string (unsigned_pred size) in
                  ret ("(" +:+
                       ("ite " +:+
                        "(= ((_ extract " +:+ pos +:+ " " +:+ pos +:+ ")" +:+ arg +:+ ") #b0) " +:+
                        nat +:+ " " +:+
                        "(- (bv2nat (bvneg " +:+ arg +:+ ")))") +:+
                       ")")
              | _ => throw (AssertionFailed "")
              end
        | _ => throw (AssertionFailed "")
        end
      else if String.eqb op "const_array" then
        match args with
        | [a0; a1] =>
            match sort a0 with
            | Some (SortSort _ inner) =>
                match inner with
                | Some (ArraySort self domain range) =>
                    let* t := toSmtLibSort (ArraySort self domain range) in
                    let sexpr := "(" +:+ ("(as const " +:+ t +:+ ") ") in
                    let* v := toSExpr a1 in
                    ret ((sexpr +:+ v) +:+ ")")
                | _ => throw (AssertionFailed "")
                end
            | _ => throw (AssertionFailed "")
            end
        | _ => throw (AssertionFailed "")
        end
      else if String.eqb op "tuple_get" then
        match args with
        | [a0; a1] =>
            let* index := lift (of_stoul (Cpp.stoul (name a1))) in
            match sort a0 with
            | Some (TupleSort _ _ members _) =>
                smtAssert (index <? N.of_nat (length members)) "" ;;
                match members !! N.to_nat index with
                | Some member =>
                    let* t := toSExpr a0 in
                    ret (("(" +:+ ("|" +:+ member +:+ "| " +:+ t)) +:+ ")")
                | None => throw StdOutOfRange
                end
            | _ => throw UndefinedBehaviour
            end
        | _ => throw (AssertionFailed "")
        end
      else if String.eqb op "tuple_constructor" then
        match exprSort with
        | Some (TupleSort _ tupleName _ _) =>
            let* sexpr := appendArguments toSExpr args ("(" +:+ ("|" +:+ tupleName +:+ "|")) in
            ret (sexpr +:+ ")")
        | _ => throw (AssertionFailed "")
        end
      else
        let* sexpr := appendArguments toSExpr args ("(" +:+ op) in
        ret (sexpr +:+ ")")
    end
  end.

Definition addAssertion (_expr : Expression) : M unit :=
  let* t := toSExpr _expr in
  write ("(assert " +:+ t +:+ ")").

(** *** The tail command *)

(** ["|EVALEXPR_" + std::to_string(i) + "|"] *)
Definition evalName (i : N) : string := "|EVALEXPR_" +:+ Cpp.to_string i +:+ "|".

(** The first loop of [checkSatAndGetValuesCommand], from index [i] on. *)
Fixpoint evalDeclarations (es : list Expression) (i : N) (command : string) : M string :=
  match es with
  | [] => ret command
  | e :: r =>
      match sort e with
      | None => throw UndefinedBehaviour
      | Some so =>
          smtAssert (Kind_eqb (kind so) KInt || Kind_eqb (kind so) KBool)
            "Invalid sort for expression to evaluate." ;;
          let command :=
            command +:+ ("(declare-const " +:+ evalName i +:+ " " +:+
                         (if Kind_eqb (kind so) KInt then "Int" else "Bool") +:+ ")" +:+ Cpp.nl) in
          let* t := toSExpr e in
          let command :=
            command +:+ ("(assert (= " +:+ evalName i +:+ " " +:+ t +:+ "))" +:+ Cpp.nl) in
          evalDeclarations r (i + 1) command
      end
  end.

(** The second loop, from index [i] on. *)
Fixpoint evalNames (es : list Expression) (i : N) (command : string) : string :=
  match es with
  | [] => command
  | _ :: r => evalNames r (i + 1) (command +:+ (evalName i +:+ " "))
  end.

Definition checkSatAndGetValuesCommand (_expressionsToEvaluate : list Expression) : M string :=
  match _expressionsToEvaluate with
  | [] => ret ("(check-sat)" +:+ Cpp.nl)
  | _ =>
      let* command := evalDeclarations _expressionsToEvaluate 0 "" in
      let command := command +:+ ("(check-sat)" +:+ Cpp.nl) in
      let command := command +:+ "(get-value (" in
      let command := evalNames _expressionsToEvaluate 0 command in
      ret (command +:+ ("))" +:+ Cpp.nl))
  end.

(** [boost::algorithm::join(m_accumulatedOutput, "\n") +
     checkSatAndGetValuesCommand(_expressionsToEvaluate)],
    the expression that both [dumpQuery] and [check] evaluate. *)
Definition dumpQuery (_expressionsToEvaluate : list Expression) : M string :=
  if tailBeforeJoin order then
    let* tail := checkSatAndGetValuesCommand _expressionsToEvaluate in
    let* output := gets m_accumulatedOutput in
    ret (Cpp.join output Cpp.nl +:+ tail)
  else
    let* output := gets m_accumulatedOutput in
    let* tail := checkSatAndGetValuesCommand _expressionsToEvaluate in
    ret (Cpp.join output Cpp.nl +:+ tail).

End Encoder.

(** ** Helpers for querying solvers using the SMT callback *)

Definition resultFromSolverResponse (response : string) : CheckResult :=
  if Cpp.starts_with response "sat" then SATISFIABLE
  else if Cpp.starts_with response "unsat" then UNSATISFIABLE
  else if Cpp.starts_with response "unknown" then UNKNOWN
  else ERROR.

Definition solverAnswered (result : CheckResult) : bool :=
  CheckResult_eqb result SATISFIABLE || CheckResult_eqb result UNSATISFIABLE.

(** [parseValues(_start, _end)]; [_end] is always the end of the string, so
    the range is the suffix [_start].  Every turn of the loop moves [_start]
    forward, so [fuel] turns are all the turns once [fuel] is at least the
    length of the suffix (lemma [parseValues_from_fuel]). *)
Fixpoint parseValues_from (fuel : nat) (_start : string) : list string :=
  match fuel with
  | O => []
  | S fuel =>
      match _start with
      | EmptyString => []
      | _ =>
          let valStart := Cpp.find " " _start in
          let valStart := Cpp.next valStart in
          let valEnd := Cpp.find ")" valStart in
          Cpp.upto ")" valStart :: parseValues_from fuel (Cpp.find "(" valEnd)
      end
  end.

Definition parseValues (solverAnswer : string) : list string :=
  let _start := Cpp.find Cpp.LF solverAnswer in
  parseValues_from (String.length _start) _start.

(** ** The dispatcher *)

Section Dispatcher.

Context {World : Type}.
Variable order : EvaluationOrder.

(** [ReadCallback::kindString(ReadCallback::Kind::SMTQuery)], defined in
    libsolidity/interface/ReadFile.h, which is not among the sources: the
    fixed tag in front of every request label. *)
Variable SMTQuery : string.

(** The loop of [check] over [solverCommands]; a [break] ends it. *)
Fixpoint consult (callback : Callback World) (query : string)
    (solverCommands : list string) (lastResult : CheckResult)
    (finalValues : list string) (w : World) : CheckResult * list string * World :=
  match solverCommands with
  | [] => (lastResult, finalValues, w)
  | s :: rest =>
      let (callBackResult, w) := callback (SMTQuery +:+ " " +:+ s) query w in
      if negb (success callBackResult) then
        consult callback query rest lastResult finalValues w
      else
        let response := responseOrErrorMessage callBackResult in
        let result := resultFromSolverResponse response in
        if solverAnswered result then
          if negb (solverAnswered lastResult) then
            consult callback query rest result
              (if CheckResult_eqb result SATISFIABLE then parseValues response
               else finalValues) w
          else if negb (CheckResult_eqb lastResult result) then
            (CONFLICTING, finalValues, w)
          else consult callback query rest lastResult finalValues w
        else if CheckResult_eqb result UNKNOWN && CheckResult_eqb lastResult ERROR then
          consult callback query rest result finalValues w
        else consult callback query rest lastResult finalValues w
  end.

Definition solverCommands (enabled : SMTSolverChoice) : list string :=
  ((if z3 enabled then ["z3 rlimit=1000000"] else []) ++
   (if cvc4 enabled then ["cvc4"] else []))%list.

Definition check (_expressionsToEvaluate : list Expression)
    (o : SMTLib2Interface World) (w : World)
    : Outcome (CheckResult * list string * SMTLib2Interface World * World) :=
  match dumpQuery order _expressionsToEvaluate o with
  | inl f => inl f
  | inr (query, o) =>
      match m_smtCallback o with
      | None => inl (AssertionFailed "")
      | Some callback =>
          let '(lastResult, finalValues, w) :=
            consult callback query (solverCommands (m_enabledSolvers o)) ERROR [] w in
          let o :=
            if CheckResult_eqb lastResult ERROR
            then set_unhandledQueries (fun v => (v ++ [query])%list) o
            else o in
          inr (lastResult, finalValues, o, w)
      end
  end.

End Dispatcher.

(** The constructor: the members as given, then [reset()]. *)
Definition construct {World : Type} (_smtCallback : option (Callback World))
    (_enabledSolvers : SMTSolverChoice) (_queryTimeout : option N)
    : Outcome (unit * SMTLib2Interface World) :=
  reset {| m_accumulatedOutput := []; m_variables := ∅; m_userSorts := [];
           m_sortNames := ∅; m_unhandledQueries := [];
           m_smtCallback := _smtCallback; m_enabledSolvers := _enabledSolvers;
           m_queryTimeout := _queryTimeout |}.

(** ** The object that an exception leaves behind *)

(** A call that throws leaves the object as the statements in front of the
    throw made it, and [M] does not keep that object.  The functions on the
    way of a declaration are embedded here once more, statement by statement,
    in a monad that returns the object also with a failure.  Lemma
    [Thrown_agrees] relates the two embeddings.  (After undefined behaviour
    the object means nothing.) *)
Module Thrown.

Section Encoder.

Context {World : Type}.
Variable order : EvaluationOrder.

Definition T (A : Type) : Type :=
  SMTLib2Interface World -> Outcome A * SMTLib2Interface World.

Definition ret {A} (a : A) : T A := fun o => (inr a, o).

Definition bind {A B} (c : T A) (k : A -> T B) : T B :=
  fun o =>
    match c o with
    | (inl f, o') => (inl f, o')
    | (inr a, o') => k a o'
    end.

Definition throw {A} (f : Failure) : T A := fun o => (inl f, o).

Definition gets {A} (f : SMTLib2Interface World -> A) : T A := fun o => (inr (f o), o).

Definition modify (f : SMTLib2Interface World -> SMTLib2Interface World) : T unit :=
  fun o => (inr tt, f o).

Definition smtAssert (condition : bool) (message : string) : T unit :=
  if condition then ret tt else throw (AssertionFailed message).

Local Notation "'let+' x := c 'in' k" := (bind c (fun x => k))
  (at level 10, x name, c at level 100, k at level 200).
Local Notation "c ;+ k" := (bind c (fun _ => k))
  (at level 100, k at level 200, right associativity).

Definition write (_data : string) : T unit :=
  let+ v := gets m_accumulatedOutput in
  smtAssert (negb (Nat.eqb (length v) 0)) "" ;+
  modify (set_accumulatedOutput (fun v => back_append v (_data +:+ Cpp.nl))).

Definition toSmtLibSort_at (a : addr) (compute : T string) : T string :=
  let+ cached := gets (fun o => m_sortNames o !! a) in
  match cached with
  | None =>
      let+ smtLibName := compute in
      modify (set_sortNames (fun m => <[a := smtLibName]> m))
  | Some _ => ret tt
  end ;+
  let+ cached := gets (fun o => m_sortNames o !! a) in
  match cached with
  | Some n => ret n
  | None => throw StdOutOfRange
  end.

Section TupleMembers.

Variable rec : Sort -> T string.

Fixpoint tupleMembers (members : list string) (components : list SortPointer)
    (decl : string) {struct components} : T string :=
  match components, members with
  | c :: components', m :: members' =>
      match c with
      | Some c =>
          let+ t := rec c in
          tupleMembers members' components' (decl +:+ " (|" +:+ m +:+ "| " +:+ t +:+ ")")
      | None => throw UndefinedBehaviour
      end
  | _, _ => ret decl
  end.

End TupleMembers.

Fixpoint sortToString (_sort : Sort) : T string :=
  match _sort with
  | IntSort _ _ => ret "Int"
  | BoolSort _ => ret "Bool"
  | BitVectorSort _ size => ret ("(_ BitVec " +:+ Cpp.to_string size +:+ ")")
  | ArraySort _ domain range =>
      match domain, range with
      | Some d, Some r =>
          if rangeBeforeDomain order then
            let+ rn := toSmtLibSort_at (address r) (sortToString r) in
            let+ dn := toSmtLibSort_at (address d) (sortToString d) in
            ret ("(Array " +:+ dn +:+ " " +:+ rn +:+ ")")
          else
            let+ dn := toSmtLibSort_at (address d) (sortToString d) in
            let+ rn := toSmtLibSort_at (address r) (sortToString r) in
            ret ("(Array " +:+ dn +:+ " " +:+ rn +:+ ")")
      | _, _ => throw (AssertionFailed "")
      end
  | TupleSort _ name members components =>
      let tupleName := "|" +:+ name +:+ "|" in
      let+ known :=
        gets (fun o => existsb (fun entry => String.eqb (fst entry) tupleName)
                         (m_userSorts o)) in
      if known then ret tupleName
      else
        let decl := "(declare-datatypes ((" +:+ tupleName +:+ " 0)) (((" +:+ tupleName in
        smtAssert (Nat.eqb (length members) (length components)) "" ;+
        let+ decl :=
          tupleMembers (fun c => toSmtLibSort_at (address c) (sortToString c))
            members components decl in
        let decl := decl +:+ "))))" in
        modify (set_userSorts (fun v => (v ++ [(tupleName, decl)])%list)) ;+
        write decl ;+
        ret tupleName
  | FunctionSort _ _ _ | SortSort _ _ => throw (AssertionFailed "Invalid SMT sort")
  end.

Definition toSmtLibSort (_sort : Sort) : T string :=
  toSmtLibSort_at (address _sort) (sortToString _sort).

Fixpoint toSmtLibSorts_from (_sorts : list SortPointer) (ssort : string) : T string :=
  match _sorts with
  | [] => ret (ssort +:+ ")")
  | Some s :: r =>
      let+ t := toSmtLibSort s in
      toSmtLibSorts_from r (ssort +:+ t +:+ " ")
  | None :: _ => throw UndefinedBehaviour
  end.

Definition toSmtLibSorts (_sorts : list SortPointer) : T string :=
  toSmtLibSorts_from _sorts "(".

Definition declareFunction (_name : string) (_sort : SortPointer) : T unit :=
  match _sort with
  | None => throw (AssertionFailed "")
  | Some (FunctionSort _ domain codomain) =>
      let+ declared := gets (fun o => bool_decide (is_Some (m_variables o !! _name))) in
      if declared then ret tt
      else
        let+ domain := toSmtLibSorts domain in
        let+ codomain :=
          match codomain with
          | Some c => toSmtLibSort c
          | None => throw UndefinedBehaviour
          end in
        modify (set_variables (Cpp.emplace _name _sort)) ;+
        write ("(declare-fun |" +:+ _name +:+ "| " +:+ domain +:+ " " +:+ codomain +:+ ")")
  | Some _ => throw (AssertionFailed "")
  end.

Definition declareVariable (_name : string) (_sort : SortPointer) : T unit :=
  match _sort with
  | None => throw (AssertionFailed "")
  | Some s =>
      if Kind_eqb (kind s) KFunction then declareFunction _name _sort
      else
        let+ declared := gets (fun o => bool_decide (is_Some (m_variables o !! _name))) in
        if declared then ret tt
        else
          modify (set_variables (Cpp.emplace _name _sort)) ;+
          let+ t := toSmtLibSort s in
          write ("(declare-fun |" +:+ _name +:+ "| () " +:+ t +:+ ")")
  end.

End Encoder.

(** What [M] keeps of a result: the object is dropped with a failure. *)
Definition returned {World A : Type} (r : Outcome A * SMTLib2Interface World)
    : Outcome (A * SMTLib2Interface World) :=
  match r with
  | (inl f, _) => inl f
  | (inr a, o) => inr (a, o)
  end.

End Thrown.

(** ** The s-expression reader (SMTLibParser.cpp) *)

Module Parser.

(** [SMTLib2Expression]: the variant [data] holds a string or a vector of
    expressions. *)
#[warnings="-register-all"]
Inductive SMTLib2Expression : Type :=
| Atom (_sv : string)
| List (_subExpr : list SMTLib2Expression).

(** Modelled from the spec: [solidity::util::joinHumanReadable] is defined
    in libsolutil/StringUtils.h, which is not among the sources; with an
    empty last separator it joins the elements with the separator, the
    "single-space-joined form" of the rendering. *)
Definition joinHumanReadable (_list : list string) (_separator : string) : string :=
  Cpp.join _list _separator.

Fixpoint toString (e : SMTLib2Expression) : string :=
  match e with
  | Atom _sv => _sv
  | List _subExpr => "(" +:+ joinHumanReadable (map toString _subExpr) " " +:+ ")"
  end.

(** A [std::istream]: the characters not yet read, and whether the stream
    is [good()].  Reading at the end of the input yields [EOF] and leaves the
    stream not good. *)
Record istream := { remaining : string; good : bool }.

(** [static_cast<char>(EOF)] *)
Definition EOF : ascii := "255"%char.

Definition NUL : ascii := "000"%char.

(** [static_cast<char>(m_input.get())] *)
Definition get (i : istream) : ascii * istream :=
  if good i then
    match remaining i with
    | String c r => (c, {| remaining := r; good := true |})
    | EmptyString => (EOF, {| remaining := EmptyString; good := false |})
    end
  else (EOF, i).

(** The data members of [SMTLib2Parser]. *)
Record SMTLib2Parser := { m_input : istream; m_token : ascii }.

(** Modelled from the spec: [token()] is defined in libsmtutil/SMTLibParser.h,
    which is not among the sources; it is the character the reader holds. *)
Definition token (p : SMTLib2Parser) : ascii := m_token p.

(** Modelled from the spec: [isWhiteSpace] is defined in
    liblangutil/Common.h, which is not among the sources: blank, line feed,
    tab and carriage return are white space. *)
Definition isWhiteSpace (c : ascii) : bool :=
  Ascii.eqb c " " || Ascii.eqb c Cpp.LF || Ascii.eqb c "009" || Ascii.eqb c "013".

(** How a call of the reader ends. *)
Inductive Result (A : Type) : Type :=
| Returns (a : A) (p : SMTLib2Parser)
| ParsingException          (* thrown by [advance] *)
| AssertionFailure          (* [solAssert] *)
| Diverges                  (* the loop of [advance] never ends *)
| OutOfFuel.                (* the embedding ran out of fuel *)

Arguments Returns {A}.
Arguments ParsingException {A}.
Arguments AssertionFailure {A}.
Arguments Diverges {A}.
Arguments OutOfFuel {A}.

Definition andThen {A B} (r : Result A) (k : A -> SMTLib2Parser -> Result B) : Result B :=
  match r with
  | Returns a p => k a p
  | ParsingException => ParsingException
  | AssertionFailure => AssertionFailure
  | Diverges => Diverges
  | OutOfFuel => OutOfFuel
  end.

(** The loop of [advance] once the token is [;]:
    [while (token() != '\n' && token() != 0) m_token = m_input.get();]
    It ends at the first line feed or zero character.  When there is none,
    [get()] yields [EOF] for ever and the loop does not end ([None]). *)
Fixpoint skipComment (input : string) : option (ascii * string) :=
  match input with
  | EmptyString => None
  | String c r =>
      if Ascii.eqb c Cpp.LF || Ascii.eqb c NUL then Some (c, r) else skipComment r
  end.

Definition advance (p : SMTLib2Parser) : Result unit :=
  if negb (good (m_input p)) then ParsingException
  else
    let (c, i) := get (m_input p) in
    if Ascii.eqb c ";" then
      match skipComment (remaining i) with
      | Some (c, r) =>
          Returns tt {| m_input := {| remaining := r; good := true |}; m_token := c |}
      | None => Diverges
      end
    else Returns tt {| m_input := i; m_token := c |}.

(** Every loop of the reader takes a unit of [fuel] per turn; every turn
    calls [advance], which reads a character, throws or diverges. *)
Fixpoint skipWhitespace (fuel : nat) (p : SMTLib2Parser) : Result unit :=
  match fuel with
  | O => OutOfFuel
  | S fuel =>
      if isWhiteSpace (token p) then andThen (advance p) (fun _ => skipWhitespace fuel)
      else Returns tt p
  end.

(** The loop of [parseToken]. *)
Fixpoint parseToken_loop (fuel : nat) (isPipe : bool) (result : string)
    (p : SMTLib2Parser) : Result string :=
  match fuel with
  | O => OutOfFuel
  | S fuel =>
      if Ascii.eqb (token p) NUL then Returns result p
      else
        let c := token p in
        if isPipe && Ascii.eqb c "|" then
          andThen (advance p) (fun _ => Returns result)
        else if negb isPipe && (isWhiteSpace c || Ascii.eqb c "(" || Ascii.eqb c ")") then
          Returns result p
        else
          andThen (advance p)
            (fun _ => parseToken_loop fuel isPipe (result +:+ String c EmptyString))
  end.

Definition parseToken (fuel : nat) (p : SMTLib2Parser) : Result string :=
  andThen (skipWhitespace fuel p) (fun _ p =>
    let isPipe := Ascii.eqb (token p) "|" in
    andThen (if isPipe then advance p else Returns tt p) (fun _ =>
      parseToken_loop fuel isPipe EmptyString)).

(** [parseExpression]; [parseList] is its loop
    [while (token() != 0 && token() != ')')]. *)
Fixpoint parseExpression (fuel : nat) (p : SMTLib2Parser) : Result SMTLib2Expression :=
  match fuel with
  | O => OutOfFuel
  | S fuel =>
      andThen (skipWhitespace fuel p) (fun _ p =>
        if Ascii.eqb (token p) "(" then
          andThen (advance p) (fun _ p =>
            andThen (skipWhitespace fuel p) (fun _ p =>
              andThen (parseList fuel [] p) (fun subExpressions p =>
                if Ascii.eqb (token p) ")" then
                  Returns (List subExpressions) {| m_input := m_input p; m_token := " " |}
                else AssertionFailure)))
        else
          andThen (parseToken fuel p) (fun t => Returns (Atom t)))
  end
with parseList (fuel : nat) (subExpressions : list SMTLib2Expression)
    (p : SMTLib2Parser) : Result (list SMTLib2Expression) :=
  match fuel with
  | O => OutOfFuel
  | S fuel =>
      if negb (Ascii.eqb (token p) NUL) && negb (Ascii.eqb (token p) ")") then
        andThen (parseExpression fuel p) (fun e p =>
          andThen (skipWhitespace fuel p) (fun _ =>
            parseList fuel (subExpressions ++ [e])%list))
      else Returns subExpressions p
  end.

(** The reader in front of [text]: it holds the first character of [text],
    and the rest of [text] is what the stream has left.  (The constructor of
    [SMTLib2Parser] is in libsmtutil/SMTLibParser.h, which is not among the
    sources.) *)
Definition before (text : string) : SMTLib2Parser :=
  match text with
  | String c r => {| m_input := {| remaining := r; good := true |}; m_token := c |}
  | EmptyString => {| m_input := {| remaining := EmptyString; good := false |}; m_token := EOF |}
  end.

End Parser.

(** ** The solver command (libsolidity/interface/SMTSolverCommand.h) *)

(** [s.rfind(p, 0)]: the last place at or in front of position 0 where [p]
    occurs in [s], that is position 0 when [s] starts with [p], and [npos]
    ([None]) otherwise. *)
Definition rfind_from_0 (s p : string) : option nat :=
  if String.prefix p s then Some 0%nat else None.

Section SolverCommand.

Context {World : Type}.

(** [ReadCallback::kindString(ReadCallback::Kind::SMTQuery)], as in the
    dispatcher. *)
Variable SMTQuery : string.

(** [SMTSolverCommand::solve]: declared in the header, defined in a file that
    is not among the sources. *)
Variable solve : string -> string -> World -> ReadResult * World.

(** The callback that [SMTSolverCommand::solver()] returns. *)
Definition solver (_kind _query : string) (w : World) : Outcome (ReadResult * World) :=
  match rfind_from_0 _kind SMTQuery with
  | Some O => inr (solve _kind _query w)
  | _ => inl (AssertionFailed "")
  end.

End SolverCommand.

(** * Notions used in the statements *)

(** [c] occurs in [s]. *)
Fixpoint occurs (c : ascii) (s : string) : bool :=
  match s with
  | EmptyString => false
  | String a r => Ascii.eqb a c || occurs c r
  end.

(** The reply to a check with get-value: the verdict line, then the pairs
    [(name value)] separated by blanks inside one pair of parentheses. *)
Definition valuePair (nv : string * string) : string :=
  "(" +:+ fst nv +:+ " " +:+ snd nv +:+ ")".

Definition getValueReply (verdict : string) (pairs : list (string * string)) : string :=
  verdict +:+ Cpp.nl +:+ "(" +:+ Cpp.join (map valuePair pairs) " " +:+ ")" +:+ Cpp.nl.

(** A pair that the scan of [parseValues] reads back: no blank in the name,
    no closing parenthesis in the value. *)
Definition wellFormedPair (nv : string * string) : Prop :=
  occurs " " (fst nv) = false /\ occurs ")" (snd nv) = false.


(** *** Sequences of [push] and [pop] *)

Inductive ScopeOp := OpPush | OpPop.

Definition scopeOp {World : Type} (op : ScopeOp) : M World unit :=
  match op with
  | OpPush => push
  | OpPop => pop
  end.

Fixpoint scopeOps {World : Type} (ops : list ScopeOp) : M World unit :=
  match ops with
  | [] => ret tt
  | op :: r => scopeOp op ;; scopeOps r
  end.

(** The number of scopes on the stack. *)
Definition depth {World : Type} (o : SMTLib2Interface World) : nat :=
  length (m_accumulatedOutput o).

Fixpoint pushes (ops : list ScopeOp) : nat :=
  match ops with
  | [] => 0
  | OpPush :: r => S (pushes r)
  | OpPop :: r => pushes r
  end.

Fixpoint pops (ops : list ScopeOp) : nat :=
  match ops with
  | [] => 0
  | OpPush :: r => pops r
  | OpPop :: r => S (pops r)
  end.

(** Every [pop] of the sequence has a [push] of the sequence that came before
    it and is not yet undone; [open] counts the pushes not yet undone. *)
Fixpoint matched (open : nat) (ops : list ScopeOp) : bool :=
  match ops with
  | [] => true
  | OpPush :: r => matched (S open) r
  | OpPop :: r =>
      match open with
      | O => false
      | S open => matched open r
      end
  end.

(** *** Sessions, callbacks and inputs of the examples *)

(** An object before its constructor has run [reset()]: both solvers enabled,
    no timeout. *)
Definition blankSession (callback : option (Callback unit)) : SMTLib2Interface unit :=
  {| m_accumulatedOutput := []; m_variables := ∅; m_userSorts := [];
     m_sortNames := ∅; m_unhandledQueries := []; m_smtCallback := callback;
     m_enabledSolvers := {| cvc4 := true; z3 := true |}; m_queryTimeout := None |}.

(** The session right after its construction (lemma [freshSession_constructed]). *)
Definition freshSession (callback : option (Callback unit)) : SMTLib2Interface unit :=
  match reset (blankSession callback) with
  | inr (_, o) => o
  | inl _ => blankSession callback
  end.

(** A callback that answers every request with [reply]. *)
Definition answering (reply : string) : Callback unit :=
  fun _ _ w => ({| success := true; responseOrErrorMessage := reply |}, w).

(** A callback that answers the requests for cvc4 with [cvc4Reply] and all
    others with [z3Reply]. *)
Definition answeringEach (z3Reply cvc4Reply : string) : Callback unit :=
  fun label _ w =>
    ({| success := true;
        responseOrErrorMessage :=
          if String.eqb label "smt-query cvc4" then cvc4Reply else z3Reply |}, w).

(** z3 finds the value 5 and cvc4 the value 7. *)
Definition fiveAndSeven : Callback unit :=
  answeringEach ("sat" +:+ Cpp.nl +:+ "((|EVALEXPR_0| 5))" +:+ Cpp.nl)
                ("sat" +:+ Cpp.nl +:+ "((|EVALEXPR_0| 7))" +:+ Cpp.nl).

(** The variable [x] of sort Int, as an expression. *)
Definition intX : Expression := mkExpression "x" [] (Some (IntSort 1 false)).

(** The query of a check that evaluates [x] in a fresh session. *)
Definition queryForX : string :=
  "(set-option :produce-models true)" +:+ Cpp.nl +:+
  "(set-logic ALL)" +:+ Cpp.nl +:+
  "(declare-const |EVALEXPR_0| Int)" +:+ Cpp.nl +:+
  "(assert (= |EVALEXPR_0| x))" +:+ Cpp.nl +:+
  "(check-sat)" +:+ Cpp.nl +:+
  "(get-value (|EVALEXPR_0| ))" +:+ Cpp.nl.

(** Operands evaluated from left to right. *)
Definition leftToRight : EvaluationOrder :=
  {| rangeBeforeDomain := false; tailBeforeJoin := false |}.

(** *** Replies *)

(** What the callback answers when it is asked about [query] for each of
    [commands] in turn. *)
Fixpoint replies {World : Type} (SMTQuery : string) (callback : Callback World)
    (query : string) (commands : list string) (w : World) : list ReadResult :=
  match commands with
  | [] => []
  | s :: rest =>
      let (r, w) := callback (SMTQuery +:+ " " +:+ s) query w in
      r :: replies SMTQuery callback query rest w
  end.

(** A usable answer: the callback succeeded and the reply does not classify
    as [ERROR]. *)
Definition usable (r : ReadResult) : bool :=
  success r
  && negb (CheckResult_eqb (resultFromSolverResponse (responseOrErrorMessage r)) ERROR).

(** *** Induction on sorts and on expressions *)

Definition onPointer (P : Sort -> Prop) (p : SortPointer) : Prop :=
  match p with
  | Some s => P s
  | None => True
  end.

Section SortInduction.

Variable P : Sort -> Prop.
Hypothesis HInt : forall a isSigned, P (IntSort a isSigned).
Hypothesis HBool : forall a, P (BoolSort a).
Hypothesis HBitVector : forall a size, P (BitVectorSort a size).
Hypothesis HArray : forall a domain range,
    onPointer P domain -> onPointer P range -> P (ArraySort a domain range).
Hypothesis HTuple : forall a name members components,
    Forall (onPointer P) components -> P (TupleSort a name members components).
Hypothesis HFunction : forall a domain codomain,
    Forall (onPointer P) domain -> onPointer P codomain ->
    P (FunctionSort a domain codomain).
Hypothesis HSort : forall a inner, onPointer P inner -> P (SortSort a inner).

Fixpoint Sort_induction (s : Sort) : P s :=
  let pointers :=
    fix pointers (l : list SortPointer) : Forall (onPointer P) l :=
      match l return Forall (onPointer P) l with
      | [] => @Forall_nil _ _
      | p :: r =>
          @Forall_cons _ _ p r
            (match p return onPointer P p with
             | Some s' => Sort_induction s'
             | None => I
             end)
            (pointers r)
      end in
  match s return P s with
  | IntSort a isSigned => HInt a isSigned
  | BoolSort a => HBool a
  | BitVectorSort a size => HBitVector a size
  | ArraySort a domain range =>
      HArray a domain range
        (match domain return onPointer P domain with
         | Some s' => Sort_induction s'
         | None => I
         end)
        (match range return onPointer P range with
         | Some s' => Sort_induction s'
         | None => I
         end)
  | TupleSort a name members components =>
      HTuple a name members components (pointers components)
  | FunctionSort a domain codomain =>
      HFunction a domain codomain (pointers domain)
        (match codomain return onPointer P codomain with
         | Some s' => Sort_induction s'
         | None => I
         end)
  | SortSort a inner =>
      HSort a inner
        (match inner return onPointer P inner with
         | Some s' => Sort_induction s'
         | None => I
         end)
  end.

End SortInduction.

Section ExpressionInduction.

Variable P : Expression -> Prop.
Hypothesis HExpression : forall name arguments sort,
    Forall P arguments -> P (mkExpression name arguments sort).

Fixpoint Expression_induction (e : Expression) : P e :=
  match e return P e with
  | mkExpression name arguments sort =>
      HExpression name arguments sort
        ((fix all (l : list Expression) : Forall P l :=
            match l return Forall P l with
            | [] => @Forall_nil _ _
            | a :: r => @Forall_cons _ _ a r (Expression_induction a) (all r)
            end) arguments)
  end.

End ExpressionInduction.

(** *** What rendering may change *)

(** The lines of the datatype declarations [new], as [write] appends them. *)
Fixpoint declarationLines (new : list (string * string)) : string :=
  match new with
  | [] => ""
  | entry :: r => snd entry +:+ Cpp.nl +:+ declarationLines r
  end.

Definition isDatatypeDeclaration (entry : string * string) : Prop :=
  Cpp.starts_with (snd entry) "(declare-datatypes" = true.

(** [o'] is [o] after some sorts were rendered: the registry got the entries
    [new], the top scope got their declarations, the sort-name cache may have
    changed, and nothing else has. *)
Definition rendered {World : Type} (new : list (string * string))
    (o o' : SMTLib2Interface World) : Prop :=
  m_variables o' = m_variables o
  /\ m_unhandledQueries o' = m_unhandledQueries o
  /\ m_smtCallback o' = m_smtCallback o
  /\ m_enabledSolvers o' = m_enabledSolvers o
  /\ m_queryTimeout o' = m_queryTimeout o
  /\ m_userSorts o' = (m_userSorts o ++ new)%list
  /\ m_accumulatedOutput o'
     = back_append (m_accumulatedOutput o) (declarationLines new)
  /\ Forall isDatatypeDeclaration new.

(** A computation that renders sorts and does nothing else to the object;
    the tuple names it registers are all [good]. *)
Definition renders {World : Type} {A : Type} (good : string -> Prop) (c : M World A) : Prop :=
  forall o a o',
    c o = inr (a, o') ->
    exists new, rendered new o o' /\ Forall (fun entry => good (fst entry)) new.

(** Any name. *)
Definition any : string -> Prop := fun _ => True.

(** Every tuple sort that [sortToString] meets in [s], [s] included, has a
    [good] name (the name between bars). *)
Fixpoint tupleNames (good : string -> Prop) (s : Sort) : Prop :=
  match s with
  | ArraySort _ domain range =>
      match domain with
      | Some d => tupleNames good d
      | None => True
      end
      /\ match range with
         | Some r => tupleNames good r
         | None => True
         end
  | TupleSort _ name _ components =>
      good ("|" +:+ name +:+ "|")
      /\ (fix all (l : list SortPointer) : Prop :=
            match l with
            | [] => True
            | c :: r =>
                match c with
                | Some c => tupleNames good c
                | None => True
                end
                /\ all r
            end) components
  | _ => True
  end.

(** *** The tail command, as text *)

(** The texts of the expressions, rendered one after the other. *)
Fixpoint renderAll {World : Type} (order : EvaluationOrder) (es : list Expression)
    : M World (list string) :=
  match es with
  | [] => ret []
  | e :: r =>
      let* t := toSExpr order e in
      let* ts := renderAll order r in
      ret (t :: ts)
  end.

(** An expression that may be evaluated: its sort is Int or Bool. *)
Definition evaluable (e : Expression) : bool :=
  match sort e with
  | Some so => Kind_eqb (kind so) KInt || Kind_eqb (kind so) KBool
  | None => false
  end.

Definition evalSort (e : Expression) : string :=
  match sort e with
  | Some so => if Kind_eqb (kind so) KInt then "Int" else "Bool"
  | None => "Bool"
  end.

(** The declaration and the assertion for every expression and its text,
    numbered from [i] on. *)
Fixpoint declarationsText (ets : list (Expression * string)) (i : N) : string :=
  match ets with
  | [] => ""
  | (e, t) :: r =>
      "(declare-const " +:+ evalName i +:+ " " +:+ evalSort e +:+ ")" +:+ Cpp.nl +:+
      "(assert (= " +:+ evalName i +:+ " " +:+ t +:+ "))" +:+ Cpp.nl +:+
      declarationsText r (i + 1)
  end.

(** [k] names from [i] on, each followed by a blank. *)
Fixpoint namesText (k : nat) (i : N) : string :=
  match k with
  | O => ""
  | S k => evalName i +:+ " " +:+ namesText k (i + 1)
  end.

Definition tailCommand (es : list Expression) (texts : list string) : string :=
  declarationsText (combine es texts) 0 +:+
  "(check-sat)" +:+ Cpp.nl +:+
  "(get-value (" +:+ namesText (length es) 0 +:+ "))" +:+ Cpp.nl.

(** [needle] occurs in [text]. *)
Fixpoint contains (needle text : string) : bool :=
  String.prefix needle text ||
  match text with
  | EmptyString => false
  | String _ r => contains needle r
  end.

(** The get-value command in the words of the specification: the names
    [EVALEXPR_0 EVALEXPR_1 ...], each followed by a blank. *)
Fixpoint specifiedNames (k : nat) (i : N) : string :=
  match k with
  | O => ""
  | S k => "EVALEXPR_" +:+ Cpp.to_string i +:+ " " +:+ specifiedNames k (i + 1)
  end.

Definition specifiedGetValue (k : nat) : string :=
  "(get-value (" +:+ specifiedNames k 0 +:+ "))".

(** *** Declarations *)



(** *** Tuple sorts *)

(** [tupleName] has an entry in the registry. *)
Definition registered {World : Type} (tupleName : string) (o : SMTLib2Interface World) : bool :=
  existsb (fun entry => String.eqb (fst entry) tupleName) (m_userSorts o).

(** A tuple sort [t] whose only component is a tuple sort of the same name,
    constructed separately (another address). *)
Definition innerTuple : Sort := TupleSort 2 "t" [] [].
Definition outerTuple : Sort := TupleSort 1 "t" ["m"] [Some innerTuple].


(** ** Notions used in the further properties *)

(** The text that [reset] leaves in the one scope, by the timeout. *)
Definition preamble (timeout : option N) : string :=
  "(set-option :produce-models true)" +:+ Cpp.nl +:+
  match timeout with
  | Some t => "(set-option :timeout " +:+ Cpp.to_string t +:+ ")" +:+ Cpp.nl
  | None => ""
  end +:+
  "(set-logic ALL)" +:+ Cpp.nl.

(** The operator names that [toSExpr] treats apart. *)
Definition specialOperator (op : string) : bool :=
  String.eqb op "int2bv" || String.eqb op "bv2int" || String.eqb op "const_array"
  || String.eqb op "tuple_get" || String.eqb op "tuple_constructor".

(** The position of the sign bit of a bit vector of width [size], in decimal
    digits: [size - 1], and the greatest 32-bit number for width 0. *)
Definition signPosition (size : N) : string :=
  Cpp.to_string (if size =? 0 then 4294967295 else size - 1).

(** Every text with a blank in front. *)
Fixpoint spaced (texts : list string) : string :=
  match texts with
  | [] => ""
  | t :: r => " " +:+ t +:+ spaced r
  end.

(** A tuple sort of an Int and a Bool, and a second instance of it. *)
Definition pairTuple : Sort :=
  TupleSort 5 "pair" ["first"; "second"] [Some (IntSort 6 false); Some (BoolSort 7)].

Definition pairTupleAgain : Sort :=
  TupleSort 8 "pair" ["first"; "second"] [Some (IntSort 6 false); Some (BoolSort 7)].

(** The fresh session after [pairTuple] is rendered. *)
Definition sessionWithPair : SMTLib2Interface unit :=
  match toSmtLibSort leftToRight pairTuple (freshSession None) with
  | inr (_, o) => o
  | inl _ => freshSession None
  end.

(** *** Verdicts *)

(** How the loop of [check] sees a reply: a call that failed counts as
    [ERROR]. *)
Definition classify (r : ReadResult) : CheckResult :=
  if success r then resultFromSolverResponse (responseOrErrorMessage r) else ERROR.

Definition among (c : CheckResult) (cs : list CheckResult) : bool :=
  existsb (CheckResult_eqb c) cs.

(** The verdict for a collection of classified replies. *)
Definition aggregate (cs : list CheckResult) : CheckResult :=
  if among SATISFIABLE cs && among UNSATISFIABLE cs then CONFLICTING
  else if among SATISFIABLE cs then SATISFIABLE
  else if among UNSATISFIABLE cs then UNSATISFIABLE
  else if among UNKNOWN cs then UNKNOWN
  else ERROR.

(** The first reply that is a definitive answer. *)
Fixpoint firstAnswer (rs : list ReadResult) : option ReadResult :=
  match rs with
  | [] => None
  | r :: rest => if solverAnswered (classify r) then Some r else firstAnswer rest
  end.

(** The values of the first definitive answer when it is [SATISFIABLE];
    [values] when there is no such answer. *)
Definition valuesFrom (values : list string) (rs : list ReadResult) : list string :=
  match firstAnswer rs with
  | Some r =>
      if CheckResult_eqb (classify r) SATISFIABLE
      then parseValues (responseOrErrorMessage r)
      else values
  | None => values
  end.

(** A callback that keeps a record of the requests it gets, in front of the
    state of [callback]. *)
Definition recording {World : Type} (callback : Callback World)
    : Callback (list (string * string) * World) :=
  fun label query lw =>
    let (r, w) := callback label query (snd lw) in
    (r, ((fst lw ++ [(label, query)])%list, w)).

(** The requests for [commands]: the tag, a blank and the command as the
    label, and the query. *)
Definition requestsFor (SMTQuery query : string) (commands : list string)
    : list (string * string) :=
  map (fun s => (SMTQuery +:+ " " +:+ s, query)) commands.

(** *** Texts in front of the reader *)

(** A character that ends an unquoted atom. *)
Definition delimiter (c : ascii) : bool :=
  Parser.isWhiteSpace c || Ascii.eqb c "(" || Ascii.eqb c ")".

(** A character of a plain atom: no delimiter, not [;], not the zero
    character. *)
Definition plainChar (c : ascii) : bool :=
  negb (delimiter c) && negb (Ascii.eqb c ";") && negb (Ascii.eqb c Parser.NUL).

Fixpoint allPlain (s : string) : bool :=
  match s with
  | EmptyString => true
  | String c r => plainChar c && allPlain r
  end.

(** A plain atom: not empty, of plain characters, the first not a bar. *)
Definition plainAtom (a : string) : bool :=
  match a with
  | String c _ => negb (Ascii.eqb c "|") && allPlain a
  | EmptyString => false
  end.

(** An expression all of whose atoms are plain. *)
Fixpoint printable (e : Parser.SMTLib2Expression) : bool :=
  match e with
  | Parser.Atom a => plainAtom a
  | Parser.List es => forallb printable es
  end.

(** [text] starts with a delimiter. *)
Definition delimited (text : string) : bool :=
  match text with
  | String c _ => delimiter c
  | EmptyString => false
  end.

(** [text] starts with [;]. *)
Definition startsComment (text : string) : bool :=
  match text with
  | String c _ => Ascii.eqb c ";"
  | EmptyString => false
  end.

(** The reader after it has read [e] in front of [rest]: behind an atom it
    holds the first character of [rest]; behind a list it holds a blank that
    it did not read, and [rest] is still in the stream. *)
Definition afterExpression (e : Parser.SMTLib2Expression) (rest : string)
    : Parser.SMTLib2Parser :=
  match e with
  | Parser.Atom _ => Parser.before rest
  | Parser.List _ =>
      {| Parser.m_input := {| Parser.remaining := rest; Parser.good := true |};
         Parser.m_token := " " |}
  end.

(** What reading back says of one expression: given that its atoms are
    plain and, for an atom, that a delimiter follows, the reader in front of
    its rendering returns it, once the fuel is enough. *)
Definition readsBack (e : Parser.SMTLib2Expression) : Prop :=
  printable e = true ->
  forall rest : string,
    match e with Parser.Atom _ => delimited rest = true | Parser.List _ => True end ->
    exists n : nat,
      forall fuel : nat,
        (n <= fuel)%nat ->
        Parser.parseExpression fuel (Parser.before (Parser.toString e +:+ rest))
        = Parser.Returns e (afterExpression e rest).

Fixpoint allWhiteSpace (s : string) : bool :=
  match s with
  | EmptyString => true
  | String c r => Parser.isWhiteSpace c && allWhiteSpace r
  end.

Section ReaderInduction.

Variable P : Parser.SMTLib2Expression -> Prop.
Hypothesis HAtom : forall a, P (Parser.Atom a).
Hypothesis HList : forall es, Forall P es -> P (Parser.List es).

Fixpoint SMTLib2Expression_induction (e : Parser.SMTLib2Expression) : P e :=
  match e return P e with
  | Parser.Atom a => HAtom a
  | Parser.List es =>
      HList es
        ((fix all (l : list Parser.SMTLib2Expression) : Forall P l :=
            match l return Forall P l with
            | [] => @Forall_nil _ _
            | a :: r => @Forall_cons _ _ a r (SMTLib2Expression_induction a) (all r)
            end) es)
  end.

End ReaderInduction.

(** The characters between the bars of a quoted atom that the reader takes
    as they are: no bar, no [;], no zero character. *)
Fixpoint allQuoted (s : string) : bool :=
  match s with
  | EmptyString => true
  | String c r =>
      negb (Ascii.eqb c "|") && negb (Ascii.eqb c ";") && negb (Ascii.eqb c Parser.NUL)
      && allQuoted r
  end.

(** What the reader has left to do: two units for every character that the
    stream has left and two for a stream that is still good. *)
Definition measure (p : Parser.SMTLib2Parser) : nat :=
  2 * (String.length (Parser.remaining (Parser.m_input p))
       + (if Parser.good (Parser.m_input p) then 1 else 0)).

(** The call ended, and the reader it returned, if any, has at most [bound]
    left to do. *)
Definition within {A : Type} (bound : nat) (r : Parser.Result A) : Prop :=
  match r with
  | Parser.Returns _ p => (measure p <= bound)%nat
  | Parser.OutOfFuel => False
  | _ => True
  end.

(** The reader has met no zero character and will meet none: it holds none
    and the stream has none left. *)
Definition clean (p : Parser.SMTLib2Parser) : Prop :=
  Ascii.eqb (Parser.token p) Parser.NUL = false
  /\ occurs Parser.NUL (Parser.remaining (Parser.m_input p)) = false.

(** The call did not fail an assertion, and when it returned, the reader is
    clean and [Q] holds of the result. *)
Definition safe {A : Type} (Q : A -> Parser.SMTLib2Parser -> Prop) (r : Parser.Result A)
    : Prop :=
  match r with
  | Parser.Returns a p => clean p /\ Q a p
  | Parser.AssertionFailure => False
  | _ => True
  end.

(** *** Sessions and inputs of the further examples *)


(** A bit vector [b] of width 8, a pair [p], the index 1, an array sort as
    an expression, and the literal [false]. *)
Definition bitVectorB : Expression := mkExpression "b" [] (Some (BitVectorSort 3 8)).

Definition pairP : Expression := mkExpression "p" [] (Some pairTuple).

Definition indexOne : Expression := mkExpression "1" [] (Some (IntSort 1 false)).

Definition arrayOfBool : Sort := ArraySort 2 (Some (IntSort 3 false)) (Some (BoolSort 4)).

Definition arraySortExpression : Expression :=
  mkExpression "" [] (Some (SortSort 1 (Some arrayOfBool))).

Definition literalFalse : Expression := mkExpression "false" [] (Some (BoolSort 4)).

(** z3 finds the value 5 and cvc4 finds no model. *)
Definition satAndUnsat : Callback unit :=
  answeringEach ("sat" +:+ Cpp.nl +:+ "((|EVALEXPR_0| 5))" +:+ Cpp.nl) ("unsat" +:+ Cpp.nl).

(** A session right after its construction whose callback records its
    requests and answers [unsat] to each. *)
Definition recordingSession : SMTLib2Interface (list (string * string) * unit) :=
  {| m_accumulatedOutput := [preamble None]; m_variables := ∅; m_userSorts := [];
     m_sortNames := ∅; m_unhandledQueries := [];
     m_smtCallback := Some (recording (answering "unsat"));
     m_enabledSolvers := {| cvc4 := true; z3 := true |}; m_queryTimeout := None |}.

(** The query of a check without expressions in a fresh session. *)
Definition plainQuery : string := preamble None +:+ "(check-sat)" +:+ Cpp.nl.

(** The tail command evaluated before the joined output. *)
Definition tailFirst : EvaluationOrder :=
  {| rangeBeforeDomain := false; tailBeforeJoin := true |}.

(** A constant array of pairs compared with itself: rendering it renders the
    tuple sort [pair]. *)
Definition arrayOfPairs : Sort := ArraySort 2 (Some (IntSort 3 false)) (Some pairTuple).

Definition constantPairs : Expression :=
  mkExpression "const_array"
    [mkExpression "" [] (Some (SortSort 1 (Some arrayOfPairs))); pairP] (Some arrayOfPairs).

Definition pairsEqual : Expression :=
  mkExpression "=" [constantPairs; constantPairs] (Some (BoolSort 7)).

(** The query that [dumpQuery] returns, the empty text when it fails. *)
Definition queryOf (order : EvaluationOrder) (es : list Expression)
    (o : SMTLib2Interface unit) : string :=
  match dumpQuery order es o with
  | inr (query, _) => query
  | inl _ => ""
  end.

(** The fresh session after the query for [pairsEqual] was built. *)
Definition sessionAfterPairs : SMTLib2Interface unit :=
  match dumpQuery leftToRight [pairsEqual] (freshSession None) with
  | inr (_, o) => o
  | inl _ => freshSession None
  end.

(** The session after a check that evaluates [pairsEqual] and gets the
    answer [unknown]. *)
Definition sessionAfterCheck : SMTLib2Interface unit :=
  match check leftToRight "smt-query" [pairsEqual]
          (freshSession (Some (answering "unknown"))) tt with
  | inr (_, _, o, _) => o
  | inl _ => freshSession None
  end.

(** Every text with a blank behind it. *)
Fixpoint trailing (texts : list string) : string :=
  match texts with
  | [] => ""
  | t :: r => t +:+ " " +:+ trailing r
  end.

(** The fresh session after [arrayOfBool] is rendered. *)
Definition sessionWithArray : SMTLib2Interface unit :=
  match toSmtLibSort leftToRight arrayOfBool (freshSession None) with
  | inr (_, o) => o
  | inl _ => freshSession None
  end.

(** *** Declarations, as text *)

(** The texts of the sorts behind the pointers, rendered one after the
    other, each from the object that the one before left. *)
Fixpoint renderPointers {World : Type} (order : EvaluationOrder) (sorts : list SortPointer)
    : M World (list string) :=
  match sorts with
  | [] => ret []
  | Some s :: r =>
      let* t := toSmtLibSort order s in
      let* ts := renderPointers order r in
      ret (t :: ts)
  | None :: _ => throw UndefinedBehaviour
  end.

(** The members of a datatype declaration: [ (|member| text)] for every
    member and the text of its component. *)
Fixpoint memberFields (members texts : list string) : string :=
  match members, texts with
  | m :: members', t :: texts' =>
      " (|" +:+ m +:+ "| " +:+ t +:+ ")" +:+ memberFields members' texts'
  | _, _ => ""
  end.

(** The declaration of the tuple sort [tupleName] (the name between bars). *)
Definition tupleDeclaration (tupleName : string) (members texts : list string) : string :=
  "(declare-datatypes ((" +:+ tupleName +:+ " 0)) (((" +:+ tupleName +:+
  memberFields members texts +:+ "))))".



(** *** The two embeddings of a member function *)

(** [c], which keeps the object of a failure, and [c0], which drops it, are
    one computation. *)
Definition agrees {World A : Type} (c : Thrown.T A) (c0 : M World A) : Prop :=
  forall o, Thrown.returned (c o) = c0 o.

(** [o'] is [o] with the entries [new] added to the registry and their
    declarations added to the top scope; the sort-name cache may differ. *)
Definition grown {World : Type} (new : list (string * string))
    (o o' : SMTLib2Interface World) : Prop :=
  m_variables o' = m_variables o
  /\ m_unhandledQueries o' = m_unhandledQueries o
  /\ m_smtCallback o' = m_smtCallback o
  /\ m_enabledSolvers o' = m_enabledSolvers o
  /\ m_queryTimeout o' = m_queryTimeout o
  /\ m_userSorts o' = (m_userSorts o ++ new)%list
  /\ m_accumulatedOutput o'
     = back_append (m_accumulatedOutput o) (declarationLines new).

(** Whatever its outcome, [c] leaves the object grown. *)
Definition leaves {World A : Type} (c : @Thrown.T World A) : Prop :=
  forall o, exists new, grown new o (snd (c o)).

(** The object that [declareVariable] leaves when the sort of sorts at
    address 9 is declared as [x] in a fresh session. *)
Definition sessionAfterThrow : SMTLib2Interface unit :=
  snd (Thrown.declareVariable leftToRight "x" (Some (SortSort 9 None)) (freshSession None)).

(** * Properties *)

(** ** Strings *)

Lemma append_nil_r (s : string) : s +:+ "" = s.
Proof.
  induction s as [|a s IH]; [reflexivity|].
  change (String a (s +:+ "") = String a s). now rewrite IH.
Qed.

Lemma append_assoc (a b c : string) : (a +:+ b) +:+ c = a +:+ b +:+ c.
Proof.
  induction a as [|x a IH]; [reflexivity|].
  change (String x ((a +:+ b) +:+ c) = String x (a +:+ b +:+ c)). now rewrite IH.
Qed.

Lemma append_cons (x : ascii) (a b : string) : String x a +:+ b = String x (a +:+ b).
Proof. reflexivity. Qed.

Lemma find_skip (c : ascii) (a b : string) :
  occurs c a = false -> Cpp.find c (a +:+ b) = Cpp.find c b.
Proof.
  induction a as [|x a IH]; intros H; [reflexivity|].
  cbn [occurs] in H. apply orb_false_iff in H as [Hx Ha].
  rewrite append_cons. cbn [Cpp.find]. rewrite Hx. auto.
Qed.

Lemma find_here (c : ascii) (s : string) : Cpp.find c (String c s) = String c s.
Proof. cbn [Cpp.find]. now rewrite Ascii.eqb_refl. Qed.

Lemma upto_skip (c : ascii) (a b : string) :
  occurs c a = false -> Cpp.upto c (a +:+ String c b) = a.
Proof.
  induction a as [|x a IH]; intros H.
  - change (Cpp.upto c (String c b) = ""). cbn [Cpp.upto]. now rewrite Ascii.eqb_refl.
  - cbn [occurs] in H. apply orb_false_iff in H as [Hx Ha].
    rewrite append_cons. cbn [Cpp.upto]. rewrite Hx. now rewrite IH.
Qed.

Lemma find_length (c : ascii) (s : string) :
  (String.length (Cpp.find c s) <= String.length s)%nat.
Proof.
  induction s as [|a s IH]; [reflexivity|].
  cbn [Cpp.find]. destruct (Ascii.eqb a c); cbn [String.length] in *; lia.
Qed.

Lemma next_length (s : string) : (String.length (Cpp.next s) <= String.length s)%nat.
Proof. destruct s; cbn; lia. Qed.

(** A turn of the loop of [parseValues] leaves a shorter range. *)
Lemma parseValues_turn_shorter (a : ascii) (s : string) :
  (String.length (Cpp.find "(" (Cpp.find ")" (Cpp.next (Cpp.find " " (String a s)))))
   < String.length (String a s))%nat.
Proof.
  pose proof (find_length "(" (Cpp.find ")" (Cpp.next (Cpp.find " " (String a s))))) as H1.
  pose proof (find_length ")" (Cpp.next (Cpp.find " " (String a s)))) as H2.
  assert (String.length (Cpp.next (Cpp.find " " (String a s))) < String.length (String a s))%nat
    as H3.
  { cbn [Cpp.find]. destruct (Ascii.eqb a " ").
    - cbn. lia.
    - pose proof (next_length (Cpp.find " " s)) as H4.
      pose proof (find_length " " s) as H5. cbn [String.length]. lia. }
  lia.
Qed.

(** The fuel of [parseValues_from] does not matter once it covers the range:
    the loop always ends. *)
Lemma parseValues_from_fuel (f1 f2 : nat) (s : string) :
  (String.length s <= f1)%nat -> (String.length s <= f2)%nat ->
  parseValues_from f1 s = parseValues_from f2 s.
Proof.
  revert f2 s. induction f1 as [|f1 IH]; intros f2 s H1 H2.
  - destruct s; [|cbn in H1; lia]. destruct f2; reflexivity.
  - destruct f2 as [|f2].
    + destruct s; [reflexivity|cbn in H2; lia].
    + destruct s as [|a s]; [reflexivity|].
      cbn [parseValues_from]. f_equal.
      pose proof (parseValues_turn_shorter a s) as Hlt. cbn [String.length] in *.
      apply IH; lia.
Qed.

(** The loop of [parseValues], one turn unrolled. *)
Lemma parseValues_from_turn (a : ascii) (s : string) :
  let valStart := Cpp.next (Cpp.find " " (String a s)) in
  let rest := Cpp.find "(" (Cpp.find ")" valStart) in
  parseValues_from (String.length (String a s)) (String a s)
  = Cpp.upto ")" valStart :: parseValues_from (String.length rest) rest.
Proof.
  intros valStart rest. cbn [String.length parseValues_from]. f_equal.
  pose proof (parseValues_turn_shorter a s) as Hlt. cbn [String.length] in Hlt.
  apply parseValues_from_fuel; subst rest valStart; lia.
Qed.

Lemma prefix_append (p r : string) : String.prefix p (p +:+ r) = true.
Proof.
  induction p as [|a p IH]; [now destruct r|].
  rewrite append_cons. cbn [String.prefix]. destruct (ascii_dec a a); [exact IH|congruence].
Qed.

(** ** The monad of member functions *)

Section MonadFacts.

Context {World : Type}.
Variable good : string -> Prop.
Implicit Types o : SMTLib2Interface World.

Lemma bind_inr {A B} (c : M World A) (k : A -> M World B) o r :
  bind c k o = inr r -> exists a o1, c o = inr (a, o1) /\ k a o1 = inr r.
Proof.
  unfold bind. destruct (c o) as [f|[a o1]]; [discriminate|]. eauto.
Qed.

Lemma bind_step {A B} (c : M World A) (k : A -> M World B) o a o1 :
  c o = inr (a, o1) -> bind c k o = k a o1.
Proof. unfold bind. now intros ->. Qed.

Lemma bind_fails {A B} (c : M World A) (k : A -> M World B) o f :
  c o = inl f -> bind c k o = inl f.
Proof. unfold bind. now intros ->. Qed.

Lemma smtAssert_inr (condition : bool) (message : string) o (u : unit) o' :
  smtAssert condition message o = inr (u, o') -> condition = true /\ o' = o.
Proof.
  unfold smtAssert. destruct condition; [|discriminate].
  unfold ret. intros H. injection H as _ <-. auto.
Qed.

Lemma write_inr (data : string) o (u : unit) o' :
  write data o = inr (u, o') ->
  m_accumulatedOutput o <> []
  /\ o' = set_accumulatedOutput (fun v => back_append v (data +:+ Cpp.nl)) o.
Proof.
  unfold write. intros H. apply bind_inr in H as (v & o1 & Hv & H).
  unfold gets in Hv. injection Hv as <- <-.
  apply bind_inr in H as (u1 & o1 & Ha & H).
  apply smtAssert_inr in Ha as [Ha ->].
  unfold modify in H. injection H as _ <-.
  split; [|reflexivity]. destruct (m_accumulatedOutput o); [discriminate Ha|discriminate].
Qed.

Lemma back_append_nil (v : list string) : back_append v "" = v.
Proof.
  induction v as [|x v IH]; [reflexivity|].
  destruct v as [|y v].
  - cbn. now rewrite append_nil_r.
  - change (x :: back_append (y :: v) "" = x :: y :: v). now rewrite IH.
Qed.

Lemma back_append_append (v : list string) (a b : string) :
  back_append (back_append v a) b = back_append v (a +:+ b).
Proof.
  induction v as [|x v IH]; [reflexivity|].
  destruct v as [|y v].
  - cbn [back_append]. now rewrite append_assoc.
  - change (back_append (x :: y :: v) a) with (x :: back_append (y :: v) a).
    change (back_append (x :: y :: v) (a +:+ b)) with (x :: back_append (y :: v) (a +:+ b)).
    rewrite <- IH. destruct (back_append (y :: v) a) eqn:E.
    + destruct v; discriminate E.
    + reflexivity.
Qed.

Lemma declarationLines_app (n1 n2 : list (string * string)) :
  declarationLines (n1 ++ n2) = declarationLines n1 +:+ declarationLines n2.
Proof.
  induction n1 as [|e n1 IH]; [reflexivity|].
  cbn [declarationLines app]. rewrite IH. now rewrite !append_assoc.
Qed.

Lemma rendered_refl o : rendered [] o o.
Proof.
  unfold rendered. rewrite app_nil_r. cbn [declarationLines].
  rewrite back_append_nil. repeat split; constructor.
Qed.

Lemma rendered_trans (n1 n2 : list (string * string)) o o1 o2 :
  rendered n1 o o1 -> rendered n2 o1 o2 -> rendered (n1 ++ n2) o o2.
Proof.
  intros (V1 & U1 & C1 & E1 & T1 & S1 & O1 & F1) (V2 & U2 & C2 & E2 & T2 & S2 & O2 & F2).
  unfold rendered. rewrite V2, U2, C2, E2, T2, S2, O2, S1, O1.
  rewrite back_append_append, declarationLines_app, app_assoc.
  repeat split; try assumption. apply Forall_app. auto.
Qed.

Lemma renders_ret {A} (a : A) : renders good (@ret World A a).
Proof.
  intros o b o' H. injection H as _ <-.
  exists []. split; [apply rendered_refl|constructor].
Qed.

Lemma renders_throw {A} (f : Failure) : renders good (@throw World A f).
Proof. intros o b o' H. discriminate H. Qed.

Lemma renders_gets {A} (g : SMTLib2Interface World -> A) : renders good (gets g).
Proof.
  intros o b o' H. injection H as _ <-.
  exists []. split; [apply rendered_refl|constructor].
Qed.

Lemma renders_lift {A} (r : Outcome A) : renders good (@lift World A r).
Proof.
  intros o b o' H. unfold lift in H. destruct r; [discriminate|].
  injection H as _ <-. exists []. split; [apply rendered_refl|constructor].
Qed.

Lemma renders_smtAssert (condition : bool) (message : string) :
  renders good (@smtAssert World condition message).
Proof.
  intros o b o' H. apply smtAssert_inr in H as [_ ->].
  exists []. split; [apply rendered_refl|constructor].
Qed.

Lemma renders_bind {A B} (c : M World A) (k : A -> M World B) :
  renders good c -> (forall a, renders good (k a)) -> renders good (bind c k).
Proof.
  intros Hc Hk o b o' H. apply bind_inr in H as (a & o1 & H1 & H2).
  apply Hc in H1 as [n1 [R1 G1]]. apply Hk in H2 as [n2 [R2 G2]].
  exists (n1 ++ n2)%list. split; [eapply rendered_trans; eassumption|].
  apply Forall_app. auto.
Qed.

Lemma renders_set_sortNames (f : gmap addr string -> gmap addr string) :
  renders good (modify (@set_sortNames World f)).
Proof.
  intros o b o' H. injection H as _ <-. exists []. split; [|constructor].
  unfold rendered. cbn. rewrite app_nil_r, back_append_nil. repeat split; constructor.
Qed.

(** A datatype declaration is registered and written. *)
Lemma rendered_declaration (tupleName decl : string) o (u : unit) o' :
  Cpp.starts_with decl "(declare-datatypes" = true ->
  (modify (@set_userSorts World (fun v => (v ++ [(tupleName, decl)])%list)) ;;
   write decl) o = inr (u, o') ->
  rendered [(tupleName, decl)] o o'.
Proof.
  intros Hd H. apply bind_inr in H as (u1 & o1 & H1 & H2).
  injection H1 as _ <-. apply write_inr in H2 as [_ ->].
  unfold rendered. cbn.
  rewrite append_nil_r. repeat split. constructor; [exact Hd|constructor].
Qed.

End MonadFacts.

(** ** The scope stack *)

Section ScopeStack.

Context {World : Type}.
Implicit Types o : SMTLib2Interface World.

Lemma push_depth o : exists o', push o = inr (tt, o') /\ depth o' = S (depth o).
Proof.
  eexists. split; [reflexivity|].
  unfold depth. cbn. rewrite length_app. cbn. lia.
Qed.

Lemma pop_depth o :
  match pop o with
  | inl f => f = AssertionFailed "" /\ depth o = 0%nat
  | inr (_, o') => depth o = S (depth o')
  end.
Proof.
  unfold pop, bind, gets, depth. destruct (m_accumulatedOutput o) as [|x v] eqn:E.
  - cbn. auto.
  - cbn -[removelast]. rewrite E.
    destruct (@exists_last _ (x :: v)) as [init [lst Hl]]; [discriminate|].
    rewrite Hl, removelast_last. apply (f_equal length) in Hl.
    rewrite length_app in Hl. cbn in Hl. lia.
Qed.

Lemma scopeOps_depth (ops : list ScopeOp) o o' :
  scopeOps ops o = inr (tt, o') ->
  (depth o' + pops ops = depth o + pushes ops)%nat.
Proof.
  revert o. induction ops as [|op ops IH]; intros o H.
  - cbn in H. injection H as <-. cbn. lia.
  - cbn [scopeOps] in H. unfold bind in H.
    destruct op; cbn [scopeOp] in H.
    + destruct (push_depth o) as [o1 [E D]]. rewrite E in H.
      apply IH in H. cbn [pushes pops]. lia.
    + pose proof (pop_depth o) as D. destruct (pop o) as [f|[[] o1]]; [discriminate|].
      apply IH in H. cbn [pushes pops]. lia.
Qed.

Lemma scopeOps_matched (ops : list ScopeOp) (open : nat) o :
  matched open ops = true -> (open < depth o)%nat ->
  exists o', scopeOps ops o = inr (tt, o') /\ (depth o - open <= depth o')%nat.
Proof.
  revert open o. induction ops as [|op ops IH]; intros open o Hm Hd.
  - exists o. split; [reflexivity|lia].
  - cbn [scopeOps]. unfold bind. destruct op; cbn [scopeOp matched] in *.
    + destruct (push_depth o) as [o1 [E D]]. rewrite E.
      destruct (IH (S open) o1 Hm) as [o' [E' D']]; [lia|].
      exists o'. split; [exact E'|lia].
    + destruct open as [|open]; [discriminate|].
      pose proof (pop_depth o) as D. destruct (pop o) as [f|[[] o1]].
      * destruct D; lia.
      * destruct (IH open o1 Hm) as [o' [E' D']]; [lia|].
        exists o'. split; [exact E'|lia].
Qed.

(** C2, as the code has it.  [pop] is a contract violation exactly when the
    scope stack is empty; on a stack with one scope it returns and leaves
    the stack empty.  After a sequence of [push] and [pop] calls that all
    return, the depth is the depth before plus the pushes minus the pops;
    and a sequence whose every [pop] undoes a [push] of the sequence,
    started on a stack with at least one scope, returns and leaves at least
    one scope. *)
Theorem pop_fails_on_empty_stack_only o :
  (pop o = inl (AssertionFailed "") <-> depth o = 0%nat)
  /\ (depth o = 1%nat -> exists o', pop o = inr (tt, o') /\ depth o' = 0%nat)
  /\ (forall ops o', scopeOps ops o = inr (tt, o') ->
        (depth o' + pops ops = depth o + pushes ops)%nat)
  /\ (forall ops, matched 0 ops = true -> (1 <= depth o)%nat ->
        exists o', scopeOps ops o = inr (tt, o') /\ (1 <= depth o')%nat).
Proof.
  pose proof (pop_depth o) as D.
  split; [|split; [|split]].
  - destruct (pop o) as [f|[[] o1]].
    + destruct D as [-> D]. tauto.
    + split; [discriminate|lia].
  - intros H1. destruct (pop o) as [f|[[] o1]].
    + destruct D; lia.
    + exists o1. split; [reflexivity|lia].
  - intros ops o'. apply scopeOps_depth.
  - intros ops Hm Hd. destruct (scopeOps_matched ops 0 o Hm) as [o' [E D']]; [lia|].
    exists o'. split; [exact E|lia].
Qed.

End ScopeStack.

Lemma freshSession_constructed (callback : option (Callback unit)) :
  construct callback {| cvc4 := true; z3 := true |} None = inr (tt, freshSession callback).
Proof. reflexivity. Qed.

(** Against C2 as stated: the session right after its construction has one
    scope, and [pop] returns on it, leaving no scope.  Popping the sole scope
    is no contract violation. *)
Lemma pop_sole_scope_returns :
  depth (freshSession None) = 1%nat
  /\ pop (freshSession None) = inr (tt, set_accumulatedOutput (fun _ => []) (freshSession None))
  /\ ~ (exists f, pop (freshSession None) = inl f).
Proof.
  split; [vm_compute; reflexivity|]. split; [vm_compute; reflexivity|].
  intros [f H]. vm_compute in H. discriminate H.
Qed.

Lemma pop_fails_on_empty_stack_only_witness :
  exists o', scopeOps [OpPush; OpPop; OpPush; OpPush; OpPop] (freshSession None) = inr (tt, o')
             /\ (1 <= depth o')%nat.
Proof.
  apply (proj2 (proj2 (proj2 (pop_fails_on_empty_stack_only (freshSession None))))).
  - reflexivity.
  - cbn. lia.
Defined.

(** ** Rendering sorts changes the registry, the top scope and the cache only *)

Section SortText.

Context {World : Type}.
Variable order : EvaluationOrder.
Implicit Types o : SMTLib2Interface World.

Lemma tupleMembers_extends (rec : Sort -> M World string) (components : list SortPointer) :
  forall (members : list string) (decl : string) o d o',
    tupleMembers rec members components decl o = inr (d, o') ->
    exists suffix, d = decl +:+ suffix.
Proof.
  induction components as [|c components IH]; intros members decl o d o' H.
  - cbn in H. injection H as <- _. exists "". now rewrite append_nil_r.
  - cbn [tupleMembers] in H. destruct members as [|m members].
    + injection H as <- _. exists "". now rewrite append_nil_r.
    + destruct c as [c|]; [|discriminate H].
      apply bind_inr in H as (t & o1 & _ & H). apply IH in H as [suffix ->].
      eexists. rewrite !append_assoc. reflexivity.
Qed.

Variable good : string -> Prop.

Lemma renders_tupleMembers (rec : Sort -> M World string) (components : list SortPointer) :
  Forall (onPointer (fun c => renders good (rec c))) components ->
  forall (members : list string) (decl : string),
    renders good (tupleMembers rec members components decl).
Proof.
  induction 1 as [|c components Hc _ IH]; intros members decl.
  - cbn [tupleMembers]. apply renders_ret.
  - cbn [tupleMembers]. destruct members as [|m members]; [apply renders_ret|].
    destruct c as [c|]; [|apply renders_throw].
    apply renders_bind; [exact Hc|]. intros t. apply IH.
Qed.

Lemma renders_toSmtLibSort_at (a : addr) (compute : M World string) :
  renders good compute -> renders good (toSmtLibSort_at a compute).
Proof.
  intros Hc. unfold toSmtLibSort_at.
  apply renders_bind; [apply renders_gets|]. intros cached.
  apply renders_bind.
  - destruct cached; [apply renders_ret|].
    apply renders_bind; [exact Hc|]. intros n. apply renders_set_sortNames.
  - intros _. apply renders_bind; [apply renders_gets|].
    intros [n|]; [apply renders_ret|apply renders_throw].
Qed.

(** The declaration of a tuple, from the loop over the members on: the
    components are rendered, then the one declaration of [name] is registered
    and written. *)
Lemma tuple_declaration (a : addr) (name : string) (members : list string)
    (components : list SortPointer) o (text : string) o' :
  Forall (onPointer (fun c : Sort =>
            renders good (toSmtLibSort_at (address c) (@sortToString World order c))))
    components ->
  registered ("|" +:+ name +:+ "|") o = false ->
  sortToString order (TupleSort a name members components) o = inr (text, o') ->
  text = "|" +:+ name +:+ "|"
  /\ exists new decl,
       rendered (new ++ [("|" +:+ name +:+ "|", decl)]) o o'
       /\ Forall (fun entry => good (fst entry)) new.
Proof.
  intros Hc Hr H. cbn [sortToString] in H.
  apply bind_inr in H as (known & o1 & H1 & H). injection H1 as <- <-.
  unfold registered in Hr. rewrite Hr in H.
  apply bind_inr in H as (u & o1 & H1 & H). apply smtAssert_inr in H1 as [_ ->].
  apply bind_inr in H as (decl & o1 & H1 & H).
  pose proof (tupleMembers_extends _ _ _ _ _ _ _ H1) as [suffix ->].
  destruct (renders_tupleMembers _ _ Hc _ _ _ _ _ H1) as [n1 [R1 G1]].
  apply bind_inr in H as (u1 & o2 & H2 & H).
  apply bind_inr in H as (u2 & o3 & H3 & H).
  injection H as <- <-. split; [reflexivity|].
  assert ((modify (@set_userSorts World (fun v =>
             (v ++ [("|" +:+ name +:+ "|",
                     (("(declare-datatypes ((" +:+ ("|" +:+ name +:+ "|") +:+ " 0)) (((" +:+
                       ("|" +:+ name +:+ "|")) +:+ suffix) +:+ "))))")])%list)) ;;
           write ((("(declare-datatypes ((" +:+ ("|" +:+ name +:+ "|") +:+ " 0)) (((" +:+
                    ("|" +:+ name +:+ "|")) +:+ suffix) +:+ "))))")) o1 = inr (u2, o3)) as Hw.
  { rewrite (bind_step _ _ _ _ _ H2). exact H3. }
  apply rendered_declaration in Hw; [|apply (prefix_append "(declare-datatypes")].
  eexists n1, _. split; [eapply rendered_trans; eassumption|exact G1].
Qed.

Lemma renders_sortToString (s : Sort) :
  tupleNames good s -> renders good (@sortToString World order s).
Proof.
  induction s as [| | |a domain range Hd Hr|a name members components Hc| |]
    using Sort_induction; intros Hn; cbn [sortToString];
    try apply renders_ret; try apply renders_throw.
  - (* Array *)
    destruct domain as [d|]; [|apply renders_throw].
    destruct range as [r|]; [|apply renders_throw].
    cbn [onPointer tupleNames] in Hd, Hr, Hn. destruct Hn as [Hnd Hnr].
    specialize (Hd Hnd). specialize (Hr Hnr).
    destruct (rangeBeforeDomain order);
      repeat (first [ apply renders_toSmtLibSort_at; assumption
                    | apply renders_ret
                    | apply renders_bind; [|intros ?] ]).
  - (* Tuple *)
    cbn [tupleNames] in Hn. destruct Hn as [Hname Hcomponents].
    assert (Forall (onPointer (fun c : Sort =>
              renders good (toSmtLibSort_at (address c) (@sortToString World order c))))
              components) as Hc'.
    { clear - Hc Hcomponents. induction Hc as [|c components Hc _ IH]; [constructor|].
      destruct Hcomponents as [Hhere Hrest]. constructor; [|exact (IH Hrest)].
      destruct c as [c|]; cbn [onPointer] in *; [|exact I].
      apply renders_toSmtLibSort_at. exact (Hc Hhere). }
    intros o b o' H.
    destruct (registered ("|" +:+ name +:+ "|") o) eqn:Hr.
    + unfold bind, gets in H. unfold registered in Hr.
      rewrite Hr in H. injection H as _ <-.
      exists []. split; [apply rendered_refl|constructor].
    + destruct (tuple_declaration a name members components o b o' Hc' Hr H)
        as (_ & new & decl & R & G).
      eexists. split; [exact R|]. apply Forall_app. split; [exact G|].
      constructor; [exact Hname|constructor].
Qed.

Lemma renders_toSmtLibSort (s : Sort) :
  tupleNames good s -> renders good (@toSmtLibSort World order s).
Proof. intros Hn. now apply renders_toSmtLibSort_at, renders_sortToString. Qed.

End SortText.

Lemma tupleNames_any (s : Sort) : tupleNames any s.
Proof.
  induction s as [| | |a domain range Hd Hr|a name members components Hc| |]
    using Sort_induction; cbn [tupleNames]; try exact I.
  - destruct domain, range; cbn [onPointer] in *; auto.
  - split; [exact I|]. induction Hc as [|c components Hc _ IH]; [exact I|].
    split; [|exact IH]. destruct c; [exact Hc|exact I].
Qed.

Section SortFrame.

Context {World : Type}.
Variable order : EvaluationOrder.

Lemma renders_toSmtLibSort_any (s : Sort) : renders any (@toSmtLibSort World order s).
Proof. apply renders_toSmtLibSort, tupleNames_any. Qed.


End SortFrame.

(** ** Rendering expressions changes nothing but what rendering sorts changes *)

(** Takes a computation apart along its binds and case distinctions. *)
Ltac renders_steps :=
  repeat first
    [ assumption
    | apply renders_ret
    | apply renders_throw
    | apply renders_gets
    | apply renders_lift
    | apply renders_smtAssert
    | apply renders_toSmtLibSort_any
    | apply renders_bind; [|intros ?]
    | match goal with
      | |- renders _ (if ?x then _ else _) => destruct x
      | |- renders _ (match ?x with _ => _ end) => destruct x
      end ].

Section ExpressionFrame.

Context {World : Type}.
Variable order : EvaluationOrder.
Implicit Types o : SMTLib2Interface World.

Lemma renders_appendArguments (rec : Expression -> M World string) (args : list Expression) :
  Forall (fun e => renders any (rec e)) args ->
  forall sexpr : string, renders any (appendArguments rec args sexpr).
Proof.
  induction 1 as [|arg args Ha _ IH]; intros sexpr; cbn [appendArguments].
  - apply renders_ret.
  - apply renders_bind; [exact Ha|]. intros t. apply IH.
Qed.

Lemma renders_toSExpr (e : Expression) : renders any (@toSExpr World order e).
Proof.
  induction e as [op args exprSort IH] using Expression_induction.
  cbn [toSExpr]. destruct args as [|front rest]; [apply renders_ret|].
  pose proof (renders_appendArguments _ _ IH) as Hargs.
  pose proof (Forall_inv IH) as Hfront. apply Forall_inv_tail in IH.
  destruct (String.eqb op "int2bv").
  { destruct rest as [|width rest]; renders_steps. }
  destruct (String.eqb op "bv2int").
  { renders_steps. }
  destruct (String.eqb op "const_array").
  { destruct rest as [|a1 rest]; [apply renders_throw|].
    pose proof (Forall_inv IH) as Ha1.
    destruct rest; renders_steps. }
  destruct (String.eqb op "tuple_get").
  { destruct rest as [|a1 rest]; [apply renders_throw|].
    destruct rest; renders_steps. }
  destruct (String.eqb op "tuple_constructor").
  { destruct exprSort as [[]|]; try apply renders_throw.
    apply renders_bind; [apply Hargs|]. intros ?. apply renders_ret. }
  apply renders_bind; [apply Hargs|]. intros ?. apply renders_ret.
Qed.

Lemma renders_evalDeclarations (es : list Expression) :
  forall (i : N) (command : string), renders any (@evalDeclarations World order es i command).
Proof.
  induction es as [|e es IH]; intros i command; cbn [evalDeclarations].
  - apply renders_ret.
  - destruct (sort e) as [so|]; [|apply renders_throw].
    apply renders_bind; [apply renders_smtAssert|]. intros _.
    apply renders_bind; [apply renders_toSExpr|]. intros t. apply IH.
Qed.

Lemma renders_checkSatAndGetValuesCommand (es : list Expression) :
  renders any (@checkSatAndGetValuesCommand World order es).
Proof.
  unfold checkSatAndGetValuesCommand. destruct es as [|e es]; [apply renders_ret|].
  apply renders_bind; [apply renders_evalDeclarations|]. intros ?. apply renders_ret.
Qed.

Lemma renders_dumpQuery (es : list Expression) : renders any (@dumpQuery World order es).
Proof.
  unfold dumpQuery. destruct (tailBeforeJoin order);
    repeat first [ apply renders_checkSatAndGetValuesCommand
                 | apply renders_gets
                 | apply renders_ret
                 | apply renders_bind; [|intros ?] ].
Qed.

End ExpressionFrame.

(** ** Expressions *)

Section ExpressionText.

Context {World : Type}.
Variable order : EvaluationOrder.

(** C5. The application named [int2bv] whose first argument renders as [5]
    and whose second argument is the literal [8] renders as
    [(ite (>= 5 0) ((_ int2bv 8) 5) (bvneg ((_ int2bv 8) (- 5))))]; the only
    effects are those of rendering the first argument. *)
Theorem toSExpr_int2bv_5_8 (value : Expression) (widthSort exprSort : SortPointer)
    (more : list Expression) (o o' : SMTLib2Interface World) :
  toSExpr order value o = inr ("5", o') ->
  toSExpr order (mkExpression "int2bv" (value :: mkExpression "8" [] widthSort :: more) exprSort) o
  = inr ("(ite (>= 5 0) ((_ int2bv 8) 5) (bvneg ((_ int2bv 8) (- 5))))", o').
Proof.
  intros H. cbn [toSExpr]. change (String.eqb "int2bv" "int2bv") with true. cbv iota.
  cbn [name]. change (lift (of_stoul (Cpp.stoul "8"))) with (@lift World N (inr 8)).
  unfold bind at 1. cbn [lift]. unfold bind at 1.
  rewrite H. reflexivity.
Qed.

End ExpressionText.

Lemma toSExpr_int2bv_5_8_witness :
  toSExpr leftToRight
    (mkExpression "int2bv"
       [mkExpression "5" [] (Some (IntSort 1 false));
        mkExpression "8" [] (Some (IntSort 1 false))]
       (Some (BitVectorSort 2 8)))
    (freshSession None)
  = inr ("(ite (>= 5 0) ((_ int2bv 8) 5) (bvneg ((_ int2bv 8) (- 5))))", freshSession None).
Proof.
  apply (toSExpr_int2bv_5_8 leftToRight (mkExpression "5" [] (Some (IntSort 1 false)))
           (Some (IntSort 1 false)) (Some (BitVectorSort 2 8)) []
           (freshSession None) (freshSession None)).
  reflexivity.
Defined.

(** ** Declarations *)

(** *** The embedding that keeps the object of a failure *)

Section ThrownFacts.

Context {World : Type}.
Variable order : EvaluationOrder.
Implicit Types (o : SMTLib2Interface World).

Lemma agrees_ret {A} (a : A) : agrees (Thrown.ret a) (@ret World A a).
Proof. intros o. reflexivity. Qed.

Lemma agrees_throw {A} (f : Failure) : agrees (Thrown.throw f) (@throw World A f).
Proof. intros o. reflexivity. Qed.

Lemma agrees_gets {A} (g : SMTLib2Interface World -> A) : agrees (Thrown.gets g) (gets g).
Proof. intros o. reflexivity. Qed.

Lemma agrees_modify (g : SMTLib2Interface World -> SMTLib2Interface World) :
  agrees (Thrown.modify g) (modify g).
Proof. intros o. reflexivity. Qed.

Lemma agrees_smtAssert (condition : bool) (message : string) :
  agrees (Thrown.smtAssert condition message) (@smtAssert World condition message).
Proof. intros o. now destruct condition. Qed.

Lemma agrees_bind {A B} (c : Thrown.T A) (c0 : M World A) (k : A -> Thrown.T B)
    (k0 : A -> M World B) :
  agrees c c0 -> (forall a, agrees (k a) (k0 a)) -> agrees (Thrown.bind c k) (bind c0 k0).
Proof.
  intros Hc Hk o. unfold Thrown.bind, bind. rewrite <- (Hc o).
  destruct (c o) as [[f|a] o1]; [reflexivity|]. apply Hk.
Qed.

Lemma agrees_write (data : string) : agrees (Thrown.write data) (@write World data).
Proof.
  unfold Thrown.write, write.
  apply agrees_bind; [apply agrees_gets|]. intros v.
  apply agrees_bind; [apply agrees_smtAssert|]. intros _. apply agrees_modify.
Qed.

Lemma agrees_toSmtLibSort_at (a : addr) (compute : Thrown.T string)
    (compute0 : M World string) :
  agrees compute compute0 ->
  agrees (Thrown.toSmtLibSort_at a compute) (toSmtLibSort_at a compute0).
Proof.
  intros Hc. unfold Thrown.toSmtLibSort_at, toSmtLibSort_at.
  apply agrees_bind; [apply agrees_gets|]. intros cached.
  apply agrees_bind.
  - destruct cached; [apply agrees_ret|].
    apply agrees_bind; [exact Hc|]. intros n. apply agrees_modify.
  - intros _. apply agrees_bind; [apply agrees_gets|].
    intros [n|]; [apply agrees_ret|apply agrees_throw].
Qed.

Lemma agrees_tupleMembers (rec : Sort -> Thrown.T string) (rec0 : Sort -> M World string)
    (components : list SortPointer) :
  Forall (onPointer (fun c => agrees (rec c) (rec0 c))) components ->
  forall (members : list string) (decl : string),
    agrees (Thrown.tupleMembers rec members components decl)
      (tupleMembers rec0 members components decl).
Proof.
  induction 1 as [|c components Hc _ IH]; intros members decl;
    cbn [Thrown.tupleMembers tupleMembers].
  - apply agrees_ret.
  - destruct members as [|m members]; [apply agrees_ret|].
    destruct c as [c|]; [|apply agrees_throw].
    apply agrees_bind; [exact Hc|]. intros t. apply IH.
Qed.

Lemma agrees_sortToString (s : Sort) :
  agrees (Thrown.sortToString order s) (@sortToString World order s).
Proof.
  induction s as [| | |a domain range Hd Hr|a name members components Hc| |]
    using Sort_induction; cbn [Thrown.sortToString sortToString];
    try apply agrees_ret; try apply agrees_throw.
  - destruct domain as [d|]; [|apply agrees_throw].
    destruct range as [r|]; [|apply agrees_throw].
    cbn [onPointer] in Hd, Hr.
    destruct (rangeBeforeDomain order);
      repeat (first [ apply agrees_toSmtLibSort_at; assumption
                    | apply agrees_ret
                    | apply agrees_bind; [|intros ?] ]).
  - apply agrees_bind; [apply agrees_gets|]. intros [|]; [apply agrees_ret|].
    apply agrees_bind; [apply agrees_smtAssert|]. intros _.
    apply agrees_bind.
    + apply agrees_tupleMembers. eapply Forall_impl; [|exact Hc].
      intros [c|] H; cbn [onPointer] in *; [|exact I]. now apply agrees_toSmtLibSort_at.
    + intros decl. apply agrees_bind; [apply agrees_modify|]. intros _.
      apply agrees_bind; [apply agrees_write|]. intros _. apply agrees_ret.
Qed.

Lemma agrees_toSmtLibSort (s : Sort) :
  agrees (Thrown.toSmtLibSort order s) (@toSmtLibSort World order s).
Proof. apply agrees_toSmtLibSort_at, agrees_sortToString. Qed.

Lemma agrees_toSmtLibSorts_from (sorts : list SortPointer) :
  forall ssort : string,
    agrees (Thrown.toSmtLibSorts_from order sorts ssort)
      (@toSmtLibSorts_from World order sorts ssort).
Proof.
  induction sorts as [|[s|] sorts IH]; intros ssort;
    cbn [Thrown.toSmtLibSorts_from toSmtLibSorts_from].
  - apply agrees_ret.
  - apply agrees_bind; [apply agrees_toSmtLibSort|]. intros t. apply IH.
  - apply agrees_throw.
Qed.

Lemma agrees_declareFunction (name : string) (so : SortPointer) :
  agrees (Thrown.declareFunction order name so) (@declareFunction World order name so).
Proof.
  unfold Thrown.declareFunction, declareFunction.
  destruct so as [[ | | | | |a domain codomain| ]|]; try apply agrees_throw.
  apply agrees_bind; [apply agrees_gets|]. intros [|]; [apply agrees_ret|].
  apply agrees_bind; [apply agrees_toSmtLibSorts_from|]. intros d.
  apply agrees_bind.
  - destruct codomain; [apply agrees_toSmtLibSort|apply agrees_throw].
  - intros c. apply agrees_bind; [apply agrees_modify|]. intros _. apply agrees_write.
Qed.

(** The two embeddings of [declareVariable] and of [declareFunction] agree:
    the same result, and the same object whenever the call returns. *)
Lemma Thrown_agrees (name : string) (so : SortPointer) :
  agrees (Thrown.declareVariable order name so) (@declareVariable World order name so)
  /\ agrees (Thrown.declareFunction order name so) (@declareFunction World order name so).
Proof.
  split; [|apply agrees_declareFunction].
  unfold Thrown.declareVariable, declareVariable. destruct so as [s|]; [|apply agrees_throw].
  destruct (Kind_eqb (kind s) KFunction); [apply agrees_declareFunction|].
  apply agrees_bind; [apply agrees_gets|]. intros [|]; [apply agrees_ret|].
  apply agrees_bind; [apply agrees_modify|]. intros _.
  apply agrees_bind; [apply agrees_toSmtLibSort|]. intros t. apply agrees_write.
Qed.

Lemma grown_refl o : grown [] o o.
Proof.
  unfold grown. rewrite app_nil_r. cbn [declarationLines].
  rewrite back_append_nil. repeat split.
Qed.

Lemma grown_trans (n1 n2 : list (string * string)) o o1 o2 :
  grown n1 o o1 -> grown n2 o1 o2 -> grown (n1 ++ n2) o o2.
Proof.
  intros (V1 & U1 & C1 & E1 & T1 & S1 & O1) (V2 & U2 & C2 & E2 & T2 & S2 & O2).
  unfold grown. rewrite V2, U2, C2, E2, T2, S2, O2, S1, O1.
  rewrite back_append_append, declarationLines_app, app_assoc. repeat split; assumption.
Qed.

Lemma leaves_ret {A} (a : A) : leaves (@Thrown.ret World A a).
Proof. intros o. exists []. apply grown_refl. Qed.

Lemma leaves_throw {A} (f : Failure) : leaves (@Thrown.throw World A f).
Proof. intros o. exists []. apply grown_refl. Qed.

Lemma leaves_gets {A} (g : SMTLib2Interface World -> A) : leaves (@Thrown.gets World A g).
Proof. intros o. exists []. apply grown_refl. Qed.

Lemma leaves_smtAssert (condition : bool) (message : string) :
  leaves (@Thrown.smtAssert World condition message).
Proof. destruct condition; [apply leaves_ret|apply leaves_throw]. Qed.

Lemma leaves_bind {A B} (c : @Thrown.T World A) (k : A -> @Thrown.T World B) :
  leaves c -> (forall a, leaves (k a)) -> leaves (Thrown.bind c k).
Proof.
  intros Hc Hk o. unfold Thrown.bind. destruct (Hc o) as [n1 G1].
  destruct (c o) as [[f|a] o1]; cbn [snd] in *; [eauto|].
  destruct (Hk a o1) as [n2 G2]. exists (n1 ++ n2)%list. eapply grown_trans; eassumption.
Qed.

Lemma leaves_set_sortNames (g : gmap addr string -> gmap addr string) :
  leaves (Thrown.modify (@set_sortNames World g)).
Proof.
  intros o. exists []. unfold grown. cbn. rewrite app_nil_r, back_append_nil. repeat split.
Qed.

(** Registering and writing a declaration, also when there is no scope to
    write to. *)
Lemma leaves_declaration {A} (tupleName decl : string) (a : A) :
  leaves (Thrown.bind
            (Thrown.modify (@set_userSorts World (fun v => (v ++ [(tupleName, decl)])%list)))
            (fun _ => Thrown.bind (Thrown.write decl) (fun _ => Thrown.ret a))).
Proof.
  intros o. exists [(tupleName, decl)].
  unfold Thrown.bind, Thrown.modify, Thrown.write, Thrown.gets, Thrown.bind.
  cbn [m_accumulatedOutput set_userSorts]. unfold grown.
  destruct (m_accumulatedOutput o) as [|x v] eqn:E.
  - cbn. rewrite E. repeat split.
  - cbn [length Nat.eqb negb Thrown.smtAssert Thrown.ret Thrown.modify snd].
    cbn. rewrite E, append_nil_r. repeat split.
Qed.

Lemma leaves_toSmtLibSort_at (a : addr) (compute : @Thrown.T World string) :
  leaves compute -> leaves (@Thrown.toSmtLibSort_at World a compute).
Proof.
  intros Hc. unfold Thrown.toSmtLibSort_at.
  apply leaves_bind; [apply leaves_gets|]. intros cached.
  apply leaves_bind.
  - destruct cached; [apply leaves_ret|].
    apply leaves_bind; [exact Hc|]. intros n. apply leaves_set_sortNames.
  - intros _. apply leaves_bind; [apply leaves_gets|].
    intros [n|]; [apply leaves_ret|apply leaves_throw].
Qed.

Lemma leaves_tupleMembers (rec : Sort -> @Thrown.T World string) (components : list SortPointer) :
  Forall (onPointer (fun c => leaves (rec c))) components ->
  forall (members : list string) (decl : string),
    leaves (@Thrown.tupleMembers World rec members components decl).
Proof.
  induction 1 as [|c components Hc _ IH]; intros members decl; cbn [Thrown.tupleMembers].
  - apply leaves_ret.
  - destruct members as [|m members]; [apply leaves_ret|].
    destruct c as [c|]; [|apply leaves_throw].
    apply leaves_bind; [exact Hc|]. intros t. apply IH.
Qed.

Lemma leaves_sortToString (s : Sort) : leaves (@Thrown.sortToString World order s).
Proof.
  induction s as [| | |a domain range Hd Hr|a name members components Hc| |]
    using Sort_induction; cbn [Thrown.sortToString];
    try apply leaves_ret; try apply leaves_throw.
  - destruct domain as [d|]; [|apply leaves_throw].
    destruct range as [r|]; [|apply leaves_throw].
    cbn [onPointer] in Hd, Hr.
    destruct (rangeBeforeDomain order);
      repeat (first [ apply leaves_toSmtLibSort_at; assumption
                    | apply leaves_ret
                    | apply leaves_bind; [|intros ?] ]).
  - apply leaves_bind; [apply leaves_gets|]. intros [|]; [apply leaves_ret|].
    apply leaves_bind; [apply leaves_smtAssert|]. intros _.
    apply leaves_bind.
    + apply leaves_tupleMembers. eapply Forall_impl; [|exact Hc].
      intros [c|] H; cbn [onPointer] in *; [|exact I]. now apply leaves_toSmtLibSort_at.
    + intros decl. apply leaves_declaration.
Qed.

Lemma leaves_toSmtLibSort (s : Sort) : leaves (@Thrown.toSmtLibSort World order s).
Proof. apply leaves_toSmtLibSort_at, leaves_sortToString. Qed.

Lemma leaves_toSmtLibSorts_from (sorts : list SortPointer) :
  forall ssort : string, leaves (@Thrown.toSmtLibSorts_from World order sorts ssort).
Proof.
  induction sorts as [|[s|] sorts IH]; intros ssort; cbn [Thrown.toSmtLibSorts_from].
  - apply leaves_ret.
  - apply leaves_bind; [apply leaves_toSmtLibSort|]. intros t. apply IH.
  - apply leaves_throw.
Qed.

Lemma back_append_length (v : list string) (data : string) :
  length (back_append v data) = length v.
Proof.
  induction v as [|x v IH]; [reflexivity|].
  destruct v as [|y v]; [reflexivity|].
  change (back_append (x :: y :: v) data) with (x :: back_append (y :: v) data).
  change (S (length (back_append (y :: v) data)) = S (length (y :: v))).
  now rewrite IH.
Qed.

Lemma grown_depth (new : list (string * string)) o o' :
  grown new o o' -> depth o' = depth o.
Proof.
  intros (_ & _ & _ & _ & _ & _ & O). unfold depth. rewrite O.
  apply back_append_length.
Qed.

End ThrownFacts.

(** *** The declaration table *)

Section Declarations.

Context {World : Type}.
Variable order : EvaluationOrder.
Implicit Types (o : SMTLib2Interface World) (name : string) (so : SortPointer).

Lemma emplace_fresh {V} (k : string) (v : V) (m : gmap string V) :
  m !! k = None -> Cpp.emplace k v m = <[k := v]> m.
Proof. unfold Cpp.emplace. now intros ->. Qed.




Lemma declareFunction_again name o (a : addr) (domain : list SortPointer)
    (codomain : SortPointer) :
  is_Some (m_variables o !! name) ->
  declareFunction order name (Some (FunctionSort a domain codomain)) o = inr (tt, o).
Proof.
  intros Hd. unfold declareFunction, bind, gets. now rewrite (bool_decide_eq_true_2 _ Hd).
Qed.

Lemma declareVariable_again name o (s : Sort) :
  is_Some (m_variables o !! name) ->
  declareVariable order name (Some s) o = inr (tt, o).
Proof.
  intros Hd. unfold declareVariable. destruct s; cbn [kind Kind_eqb];
    try (unfold bind, gets; now rewrite (bool_decide_eq_true_2 _ Hd)).
  now apply declareFunction_again.
Qed.


Lemma renders_renderPointers (sorts : list SortPointer) :
  renders any (@renderPointers World order sorts).
Proof.
  induction sorts as [|[s|] sorts IH]; cbn [renderPointers].
  - apply renders_ret.
  - apply renders_bind; [apply renders_toSmtLibSort_any|]. intros t.
    apply renders_bind; [exact IH|]. intros ts. apply renders_ret.
  - apply renders_throw.
Qed.

(** The loop over a list of sorts appends their texts, each followed by a
    blank, and fails where the first failing sort fails. *)
Lemma toSmtLibSorts_from_texts (sorts : list SortPointer) :
  forall (ssort : string) o,
    toSmtLibSorts_from order sorts ssort o
    = match renderPointers order sorts o with
      | inr (texts, o') => inr (ssort +:+ trailing texts +:+ ")", o')
      | inl f => inl f
      end.
Proof.
  induction sorts as [|[s|] sorts IH]; intros ssort o;
    cbn [toSmtLibSorts_from renderPointers].
  - reflexivity.
  - unfold bind. destruct (toSmtLibSort order s o) as [f|[t o1]]; [reflexivity|].
    rewrite IH. destruct (renderPointers order sorts o1) as [f|[ts o2]]; [reflexivity|].
    unfold ret. cbn [trailing]. now rewrite !append_assoc.
  - reflexivity.
Qed.





End Declarations.



(** ** Tuple sorts *)

Section TupleRegistry.

Context {World : Type}.
Variable order : EvaluationOrder.
Implicit Types o : SMTLib2Interface World.

(** A tuple sort whose name is in the registry is not declared again,
    whichever instance it is: [sortToString] returns the name between bars
    and leaves the object as it is. *)
Lemma sortToString_registered (a : addr) (name : string) (members : list string)
    (components : list SortPointer) o :
  registered ("|" +:+ name +:+ "|") o = true ->
  sortToString order (TupleSort a name members components) o
  = inr ("|" +:+ name +:+ "|", o).
Proof.
  intros Hr. cbn [sortToString]. unfold bind, gets. unfold registered in Hr.
  now rewrite Hr.
Qed.

(** Rendering an instance of a registered tuple name writes nothing and
    registers nothing; an instance that is not in the sort-name cache renders
    as the name between bars. *)
Lemma toSmtLibSort_registered (a : addr) (name : string) (members : list string)
    (components : list SortPointer) o (text : string) o' :
  registered ("|" +:+ name +:+ "|") o = true ->
  toSmtLibSort order (TupleSort a name members components) o = inr (text, o') ->
  m_accumulatedOutput o' = m_accumulatedOutput o
  /\ m_userSorts o' = m_userSorts o
  /\ (m_sortNames o !! a = None -> text = "|" +:+ name +:+ "|").
Proof.
  intros Hr H. unfold toSmtLibSort, toSmtLibSort_at in H. cbn [address] in H.
  apply bind_inr in H as (cached & o1 & H1 & H). injection H1 as <- <-.
  destruct (m_sortNames o !! a) as [n|] eqn:Ec.
  - apply bind_inr in H as (u & o1 & H1 & H). injection H1 as _ <-.
    apply bind_inr in H as (cached & o1 & H1 & H). injection H1 as <- <-.
    rewrite Ec in H. injection H as _ <-. repeat split. discriminate.
  - apply bind_inr in H as (u & o1 & H1 & H).
    apply bind_inr in H1 as (n & o2 & H2 & H1).
    rewrite (sortToString_registered _ _ _ _ _ Hr) in H2. injection H2 as <- <-.
    injection H1 as _ <-.
    apply bind_inr in H as (cached & o1 & H1 & H). injection H1 as <- <-.
    cbn [m_sortNames set_sortNames] in H. rewrite lookup_insert_eq in H.
    injection H as <- <-. repeat split.
Qed.

(** The first rendering of a tuple sort.  When its name is not registered,
    the instance is not in the sort-name cache, and no tuple sort among its
    components, at any depth, bears its name, then the components are rendered
    and exactly one declaration for the name is registered and written, after
    those of the components. *)
Lemma tuple_declared_once (a : addr) (name : string) (members : list string)
    (components : list SortPointer) o (text : string) o' :
  let tupleName := "|" +:+ name +:+ "|" in
  registered tupleName o = false ->
  m_sortNames o !! a = None ->
  Forall (onPointer (tupleNames (fun n => n <> tupleName))) components ->
  toSmtLibSort order (TupleSort a name members components) o = inr (text, o') ->
  text = tupleName
  /\ exists new decl,
       Forall (fun entry => fst entry <> tupleName) new
       /\ m_userSorts o' = (m_userSorts o ++ new ++ [(tupleName, decl)])%list
       /\ m_accumulatedOutput o'
          = back_append (m_accumulatedOutput o) (declarationLines new +:+ decl +:+ Cpp.nl)
       /\ registered tupleName o' = true.
Proof.
  intros tupleName Hr Hcache Hnames H.
  unfold toSmtLibSort, toSmtLibSort_at in H. cbn [address] in H.
  apply bind_inr in H as (cached & o1 & H1 & H). injection H1 as <- <-.
  rewrite Hcache in H.
  apply bind_inr in H as (u & o1 & H1 & H).
  apply bind_inr in H1 as (n & o2 & H2 & H1). injection H1 as _ <-.
  apply bind_inr in H as (cached & o1 & H1 & H). injection H1 as <- <-.
  cbn [m_sortNames set_sortNames] in H. rewrite lookup_insert_eq in H.
  injection H as <- <-.
  assert (Forall (onPointer (fun c : Sort =>
            renders (fun n => n <> tupleName)
              (toSmtLibSort_at (address c) (@sortToString World order c))))
            components) as Hc.
  { eapply Forall_impl; [|exact Hnames]. intros [c|] Hn; cbn [onPointer] in *; [|exact I].
    now apply renders_toSmtLibSort_at, renders_sortToString. }
  destruct (tuple_declaration order _ a name members components o n o2 Hc Hr H2)
    as (-> & new & decl & (_ & _ & _ & _ & _ & S & O & _) & G).
  split; [reflexivity|]. exists new, decl. cbn [m_userSorts m_accumulatedOutput set_sortNames].
  split; [exact G|]. split; [exact S|]. split.
  - rewrite O, declarationLines_app. cbn [declarationLines]. now rewrite append_nil_r.
  - unfold registered. cbn [m_userSorts set_sortNames]. rewrite S, !existsb_app.
    cbn [existsb fst]. fold tupleName. rewrite String.eqb_refl.
    cbn [orb]. now rewrite !orb_true_r.
Qed.

End TupleRegistry.

(** C10, at the failing input.  Rendering a tuple sort named [t] whose
    component is a separately constructed tuple sort named [t] emits two
    datatype declarations for the one name [|t|], and registers the name
    twice: the registry is looked up before the components are rendered, and
    written after. *)
Theorem nested_tuple_declared_twice (order : EvaluationOrder) :
  match toSmtLibSort order outerTuple (freshSession None) with
  | inr (text, o') =>
      text = "|t|"
      /\ m_userSorts o'
         = [("|t|", "(declare-datatypes ((|t| 0)) (((|t|))))");
            ("|t|", "(declare-datatypes ((|t| 0)) (((|t| (|m| |t|)))))")]
      /\ m_accumulatedOutput o'
         = ["(set-option :produce-models true)" +:+ Cpp.nl +:+
            "(set-logic ALL)" +:+ Cpp.nl +:+
            "(declare-datatypes ((|t| 0)) (((|t|))))" +:+ Cpp.nl +:+
            "(declare-datatypes ((|t| 0)) (((|t| (|m| |t|)))))" +:+ Cpp.nl]
  | inl _ => False
  end.
Proof. vm_compute. repeat split. Qed.

(** ** The tail command *)

Section TailCommand.

Context {World : Type}.
Variable order : EvaluationOrder.
Implicit Types (o : SMTLib2Interface World) (es : list Expression).

Lemma evalDeclarations_text es :
  forall (texts : list string) (i : N) (command : string) o o',
    forallb evaluable es = true ->
    renderAll order es o = inr (texts, o') ->
    evalDeclarations order es i command o
    = inr (command +:+ declarationsText (combine es texts) i, o').
Proof.
  induction es as [|e es IH]; intros texts i command o o' Hev Hr.
  - cbn in Hr. injection Hr as <- <-. cbn. now rewrite append_nil_r.
  - cbn [forallb] in Hev. apply andb_true_iff in Hev as [He Hev].
    cbn [renderAll] in Hr. apply bind_inr in Hr as (t & o1 & Ht & Hr).
    apply bind_inr in Hr as (ts & o2 & Hts & Hr). injection Hr as <- <-.
    cbn [evalDeclarations]. unfold evaluable in He.
    destruct (sort e) as [so|] eqn:Es; [|discriminate He].
    rewrite He. unfold smtAssert. rewrite (bind_step _ _ o tt o eq_refl).
    rewrite (bind_step _ _ _ _ _ Ht).
    rewrite (IH ts (i + 1) _ o1 o2 Hev Hts).
    cbn [combine declarationsText]. unfold evalSort. rewrite Es.
    rewrite !append_assoc. reflexivity.
Qed.

Lemma evalNames_text es :
  forall (i : N) (command : string),
    evalNames es i command = command +:+ namesText (length es) i.
Proof.
  induction es as [|e es IH]; intros i command; cbn [evalNames length namesText].
  - now rewrite append_nil_r.
  - rewrite IH. now rewrite !append_assoc.
Qed.

(** An expression that may not be evaluated makes the first loop fail,
    unless an expression in front of it already does. *)
Lemma evalDeclarations_raises es :
  forall (i : N) (command : string) o,
    forallb evaluable es = false ->
    exists f, evalDeclarations order es i command o = inl f.
Proof.
  induction es as [|e es IH]; intros i command o Hev; [discriminate Hev|].
  cbn [forallb] in Hev. cbn [evalDeclarations]. unfold evaluable in Hev.
  destruct (sort e) as [so|]; [|eexists; reflexivity].
  destruct (Kind_eqb (kind so) KInt || Kind_eqb (kind so) KBool) eqn:Ek.
  - cbn [andb] in Hev. unfold smtAssert. rewrite (bind_step _ _ o tt o eq_refl).
    destruct (toSExpr order e o) as [f|[t o1]] eqn:Et.
    + exists f. now apply bind_fails.
    + rewrite (bind_step _ _ _ _ _ Et). now apply IH.
  - eexists. reflexivity.
Qed.

Lemma evalDeclarations_violation (pre : list Expression) :
  forall (e : Expression) (post : list Expression) (so : Sort) (texts : list string)
         (i : N) (command : string) o o',
    forallb evaluable pre = true ->
    renderAll order pre o = inr (texts, o') ->
    sort e = Some so ->
    Kind_eqb (kind so) KInt || Kind_eqb (kind so) KBool = false ->
    evalDeclarations order (pre ++ e :: post) i command o
    = inl (AssertionFailed "Invalid sort for expression to evaluate.").
Proof.
  induction pre as [|p pre IH]; intros e post so texts i command o o' Hev Hr Es Ek.
  - cbn [app evalDeclarations]. now rewrite Es, Ek.
  - cbn [forallb] in Hev. apply andb_true_iff in Hev as [Hp Hev].
    cbn [renderAll] in Hr. apply bind_inr in Hr as (t & o1 & Ht & Hr).
    apply bind_inr in Hr as (ts & o2 & Hts & Hr). injection Hr as <- <-.
    cbn [app evalDeclarations]. unfold evaluable in Hp.
    destruct (sort p) as [sp|]; [|discriminate Hp].
    rewrite Hp. unfold smtAssert. rewrite (bind_step _ _ o tt o eq_refl).
    rewrite (bind_step _ _ _ _ _ Ht).
    now apply (IH e post so ts _ _ o1 o2).
Qed.

(** C3, as the code has it.  The tail command for no evaluate-expression is
    [(check-sat)] and a line feed.  For [k > 0] expressions of sort Int or
    Bool that render as [texts] it is, for each index [i] in order, the line
    [(declare-const |EVALEXPR_i| S)] with [S] the sort [Int] or [Bool], and
    the line [(assert (= |EVALEXPR_i| text_i))]; then the line [(check-sat)];
    then the one line [(get-value (|EVALEXPR_0| ... |EVALEXPR_k-1| ))], every
    name written between bars and followed by a blank, in the order of the
    declarations.  An evaluate-expression of another sort makes the call fail,
    by the sort assertion when the expressions in front of it are in order and
    render. *)
Theorem checkSatAndGetValuesCommand_text o :
  checkSatAndGetValuesCommand order [] o = inr ("(check-sat)" +:+ Cpp.nl, o)
  /\ (forall es texts o',
        es <> [] ->
        forallb evaluable es = true ->
        renderAll order es o = inr (texts, o') ->
        checkSatAndGetValuesCommand order es o = inr (tailCommand es texts, o'))
  /\ (forall es,
        forallb evaluable es = false ->
        exists f, checkSatAndGetValuesCommand order es o = inl f)
  /\ (forall pre e post so texts o',
        forallb evaluable pre = true ->
        renderAll order pre o = inr (texts, o') ->
        sort e = Some so ->
        kind so <> KInt -> kind so <> KBool ->
        checkSatAndGetValuesCommand order (pre ++ e :: post) o
        = inl (AssertionFailed "Invalid sort for expression to evaluate.")).
Proof.
  split; [reflexivity|]. split; [|split].
  - intros es texts o' Hne Hev Hr. unfold checkSatAndGetValuesCommand.
    destruct es as [|e es]; [congruence|].
    rewrite (bind_step _ _ _ _ _ (evalDeclarations_text _ texts 0 "" o o' Hev Hr)).
    rewrite evalNames_text. unfold tailCommand, ret.
    change ("" +:+ declarationsText (combine (e :: es) texts) 0)
      with (declarationsText (combine (e :: es) texts) 0).
    rewrite !append_assoc. reflexivity.
  - intros es Hev. unfold checkSatAndGetValuesCommand.
    destruct es as [|e es]; [discriminate Hev|].
    destruct (evalDeclarations_raises (e :: es) 0 "" o Hev) as [f Hf].
    exists f. now apply bind_fails.
  - intros pre e post so texts o' Hev Hr Es Hi Hb. unfold checkSatAndGetValuesCommand.
    assert (Kind_eqb (kind so) KInt || Kind_eqb (kind so) KBool = false) as Ek.
    { destruct (kind so); try reflexivity; congruence. }
    pose proof (evalDeclarations_violation pre e post so texts 0 "" o o' Hev Hr Es Ek) as Hf.
    destruct (pre ++ e :: post)%list eqn:El; [destruct pre; discriminate El|].
    now apply bind_fails.
Qed.

End TailCommand.

(** Against C3 as stated: for one expression [x] of sort Int the tail command
    names the constant [|EVALEXPR_0|], between bars; the get-value command of
    the specification, [(get-value (EVALEXPR_0 ))], does not occur in it. *)
Lemma tail_command_quotes_names :
  checkSatAndGetValuesCommand leftToRight [intX] (freshSession None)
  = inr ("(declare-const |EVALEXPR_0| Int)" +:+ Cpp.nl +:+
         "(assert (= |EVALEXPR_0| x))" +:+ Cpp.nl +:+
         "(check-sat)" +:+ Cpp.nl +:+
         "(get-value (|EVALEXPR_0| ))" +:+ Cpp.nl, freshSession None)
  /\ specifiedGetValue 1 = "(get-value (EVALEXPR_0 ))"
  /\ contains (specifiedGetValue 1)
       ("(declare-const |EVALEXPR_0| Int)" +:+ Cpp.nl +:+
        "(assert (= |EVALEXPR_0| x))" +:+ Cpp.nl +:+
        "(check-sat)" +:+ Cpp.nl +:+
        "(get-value (|EVALEXPR_0| ))" +:+ Cpp.nl) = false.
Proof. repeat split; vm_compute; reflexivity. Qed.

Lemma checkSatAndGetValuesCommand_text_witness :
  checkSatAndGetValuesCommand leftToRight
    [intX; mkExpression "b" [] (Some (BoolSort 2))] (freshSession None)
  = inr ("(declare-const |EVALEXPR_0| Int)" +:+ Cpp.nl +:+
         "(assert (= |EVALEXPR_0| x))" +:+ Cpp.nl +:+
         "(declare-const |EVALEXPR_1| Bool)" +:+ Cpp.nl +:+
         "(assert (= |EVALEXPR_1| b))" +:+ Cpp.nl +:+
         "(check-sat)" +:+ Cpp.nl +:+
         "(get-value (|EVALEXPR_0| |EVALEXPR_1| ))" +:+ Cpp.nl, freshSession None).
Proof.
  refine (eq_trans
            (proj1 (proj2 (checkSatAndGetValuesCommand_text leftToRight (freshSession None)))
               [intX; mkExpression "b" [] (Some (BoolSort 2))]
               ["x"; "b"] (freshSession None) _ _ _) _).
  - discriminate.
  - vm_compute. reflexivity.
  - vm_compute. reflexivity.
  - vm_compute. reflexivity.
Defined.

(** ** Value extraction *)

Lemma occurs_append (c : ascii) (a b : string) :
  occurs c (a +:+ b) = occurs c a || occurs c b.
Proof.
  induction a as [|x a IH]; [reflexivity|].
  rewrite append_cons. cbn [occurs]. rewrite IH. now rewrite orb_assoc.
Qed.

(** One turn of the scan, in front of a pair [(name value)]: it takes the
    value and goes on at the next opening parenthesis. *)
Lemma parseValues_from_pair (pre name value tail : string) :
  occurs " " pre = false -> occurs " " name = false -> occurs ")" value = false ->
  let text := (pre +:+ "(" +:+ name) +:+ String " " (value +:+ String ")" tail) in
  let rest := Cpp.find "(" (String ")" tail) in
  parseValues_from (String.length text) text
  = value :: parseValues_from (String.length rest) rest.
Proof.
  intros Hpre Hname Hvalue text rest.
  assert (occurs " " (pre +:+ "(" +:+ name) = false) as Hfront.
  { rewrite occurs_append, Hpre. change (occurs " " ("(" +:+ name)) with (occurs " " name).
    now rewrite Hname. }
  destruct text as [|a t] eqn:Et.
  { subst text. destruct pre; discriminate Et. }
  rewrite parseValues_from_turn. rewrite <- Et. subst text.
  rewrite (find_skip " " _ _ Hfront), find_here. cbn [Cpp.next].
  rewrite (upto_skip ")" value _ Hvalue), (find_skip ")" value _ Hvalue), find_here.
  reflexivity.
Qed.

(** The scan over the pairs of a get-value reply; [pre] is what stands in
    front of the first pair (the line feed and the opening parenthesis, or
    nothing). *)
Lemma parseValues_from_pairs (nv : string * string) (pairs : list (string * string))
    (pre : string) :
  occurs " " pre = false ->
  Forall wellFormedPair (nv :: pairs) ->
  let text := pre +:+ Cpp.join (map valuePair (nv :: pairs)) " " +:+ ")" +:+ Cpp.nl in
  parseValues_from (String.length text) text = map snd (nv :: pairs).
Proof.
  revert nv pre. induction pairs as [|nv' pairs IH]; intros [n v] pre Hpre Hwf text.
  - (* the last pair *)
    apply Forall_inv in Hwf. destruct Hwf as [Hn Hv]. cbn [fst snd] in *.
    assert (text = (pre +:+ "(" +:+ n) +:+ String " " (v +:+ String ")" (")" +:+ Cpp.nl))) as ->.
    { subst text. cbn [map Cpp.join]. unfold valuePair. cbn [fst snd].
      rewrite !append_assoc. reflexivity. }
    rewrite (parseValues_from_pair pre n v _ Hpre Hn Hv). reflexivity.
  - (* a pair followed by another *)
    pose proof (Forall_inv Hwf) as [Hn Hv]. apply Forall_inv_tail in Hwf.
    cbn [fst snd] in *.
    set (tail := Cpp.join (map valuePair (nv' :: pairs)) " " +:+ ")" +:+ Cpp.nl).
    assert (text = (pre +:+ "(" +:+ n) +:+ String " " (v +:+ String ")" (String " " tail)))
      as ->.
    { subst text tail.
      change (map valuePair ((n, v) :: nv' :: pairs))
        with (valuePair (n, v) :: map valuePair (nv' :: pairs)).
      change (Cpp.join (valuePair (n, v) :: map valuePair (nv' :: pairs)) " ")
        with (valuePair (n, v) +:+ " " +:+ Cpp.join (map valuePair (nv' :: pairs)) " ").
      unfold valuePair at 1. cbn [fst snd]. rewrite !append_assoc. reflexivity. }
    rewrite (parseValues_from_pair pre n v _ Hpre Hn Hv).
    change (map snd ((n, v) :: nv' :: pairs)) with (v :: map snd (nv' :: pairs)).
    f_equal.
    assert (Cpp.find "(" (String ")" (String " " tail)) = tail) as ->.
    { subst tail. destruct nv' as [n' v']. cbn [map]. destruct (map valuePair pairs); reflexivity. }
    exact (IH nv' "" eq_refl Hwf).
Qed.

Lemma find_absent (c : ascii) (s : string) : occurs c s = false -> Cpp.find c s = "".
Proof.
  induction s as [|x s IH]; [reflexivity|]. cbn [occurs Cpp.find]. intros H.
  apply orb_false_elim in H as [Hx Hs]. rewrite Hx. exact (IH Hs).
Qed.

(** C7, as the code has it.  Value extraction from a satisfiable reply
    starts at the end of the first line; each turn of the scan takes what
    stands between the next blank and the next closing parenthesis, and the
    scan goes on at the next opening parenthesis.  For every reply that
    consists of a verdict line and a parenthesised, non-empty list of
    [(name value)] pairs whose names hold no blank and whose values hold no
    closing parenthesis, it returns the value of every pair, in the order of
    the reply; in particular the reply [sat], line feed,
    [((EVALEXPR_0 5) (EVALEXPR_1 true))], line feed, yields the list of [5]
    and [true].  What stands behind the first closing parenthesis of a value
    is not part of the value returned: when a name without a blank, a blank,
    a text without a closing parenthesis and a closing parenthesis follow the
    two opening parentheses, the first value is that text, whatever comes
    next, and it is the only value when no opening parenthesis comes next.  A
    reply with no blank behind its first line yields one empty value. *)
Theorem parseValues_get_value_reply :
  (forall (verdict : string) (nv : string * string) (pairs : list (string * string)),
      occurs Cpp.LF verdict = false ->
      Forall wellFormedPair (nv :: pairs) ->
      parseValues (getValueReply verdict (nv :: pairs)) = map snd (nv :: pairs))
  /\ parseValues ("sat" +:+ Cpp.nl +:+ "((EVALEXPR_0 5) (EVALEXPR_1 true))" +:+ Cpp.nl)
     = ["5"; "true"]
  /\ (forall (a : ascii) (s : string),
        let valStart := Cpp.next (Cpp.find " " (String a s)) in
        let rest := Cpp.find "(" (Cpp.find ")" valStart) in
        parseValues_from (String.length (String a s)) (String a s)
        = Cpp.upto ")" valStart :: parseValues_from (String.length rest) rest)
  /\ (forall (verdict name value tail : string),
        occurs Cpp.LF verdict = false ->
        occurs " " name = false ->
        occurs ")" value = false ->
        let rest := Cpp.find "(" (String ")" tail) in
        parseValues (verdict +:+ Cpp.nl +:+ "((" +:+ name +:+ " " +:+ value +:+ ")" +:+ tail)
        = value :: parseValues_from (String.length rest) rest
        /\ (occurs "(" tail = false ->
            parseValues (verdict +:+ Cpp.nl +:+ "((" +:+ name +:+ " " +:+ value +:+ ")" +:+ tail)
            = [value]))
  /\ (forall verdict rest : string,
        occurs Cpp.LF verdict = false ->
        occurs " " rest = false ->
        parseValues (verdict +:+ Cpp.nl +:+ rest) = [""]).
Proof.
  split; [|split; [reflexivity|split; [|split]]].
  - intros verdict nv pairs Hverdict Hwf.
    unfold parseValues, getValueReply.
    change (verdict +:+ Cpp.nl +:+ "(" +:+ Cpp.join (map valuePair (nv :: pairs)) " "
            +:+ ")" +:+ Cpp.nl)
      with (verdict +:+ String Cpp.LF ("(" +:+ Cpp.join (map valuePair (nv :: pairs)) " "
                                       +:+ ")" +:+ Cpp.nl)).
    rewrite (find_skip Cpp.LF verdict _ Hverdict). rewrite find_here.
    exact (parseValues_from_pairs nv pairs (String Cpp.LF "(") eq_refl Hwf).
  - intros a s. apply parseValues_from_turn.
  - intros verdict name value tail Hverdict Hname Hvalue rest.
    assert (parseValues (verdict +:+ Cpp.nl +:+ "((" +:+ name +:+ " " +:+ value +:+ ")" +:+ tail)
            = value :: parseValues_from (String.length rest) rest) as Hcut.
    { unfold rest, parseValues.
      change (verdict +:+ Cpp.nl +:+ "((" +:+ name +:+ " " +:+ value +:+ ")" +:+ tail)
        with (verdict +:+ String Cpp.LF ("((" +:+ name +:+ " " +:+ value +:+ ")" +:+ tail)).
      rewrite (find_skip Cpp.LF verdict _ Hverdict), find_here.
      pose proof (parseValues_from_pair (String Cpp.LF "(") name value tail
                    eq_refl Hname Hvalue) as H.
      cbv zeta in H. rewrite <- H. clear H.
      assert (String Cpp.LF ("((" +:+ name +:+ " " +:+ value +:+ ")" +:+ tail)
              = (String Cpp.LF "(" +:+ "(" +:+ name) +:+ String " " (value +:+ String ")" tail))
        as ->; [|reflexivity].
      rewrite !append_assoc. reflexivity. }
    split; [exact Hcut|]. intros Htail. rewrite Hcut. subst rest.
    cbn [Cpp.find]. change (Ascii.eqb ")" "(") with false. cbv iota.
    now rewrite (find_absent _ _ Htail).
  - intros verdict rest Hverdict Hrest. unfold parseValues.
    change (verdict +:+ Cpp.nl +:+ rest) with (verdict +:+ String Cpp.LF rest).
    rewrite (find_skip Cpp.LF verdict _ Hverdict), find_here.
    rewrite parseValues_from_turn.
    assert (Cpp.find " " (String Cpp.LF rest) = "") as ->.
    { apply find_absent. cbn [occurs]. now rewrite Hrest. }
    reflexivity.
Qed.

(** The value [(- 5)] of a pair comes back without its closing parenthesis,
    and the reply [sat] alone gives one empty value. *)
Lemma parseValues_cuts_value :
  parseValues (getValueReply "sat" [("EVALEXPR_0", "(- 5)")]) = ["(- 5"]
  /\ parseValues (getValueReply "sat" [("EVALEXPR_0", "(- 5)")])
     <> map snd [("EVALEXPR_0", "(- 5)")]
  /\ getValueReply "sat" [("EVALEXPR_0", "(- 5)")]
     = "sat" +:+ Cpp.nl +:+ "((EVALEXPR_0 (- 5)))" +:+ Cpp.nl
  /\ parseValues ("sat" +:+ Cpp.nl) = [""].
Proof.
  split; [vm_compute; reflexivity|]. split; [vm_compute; discriminate|].
  split; vm_compute; reflexivity.
Qed.

Lemma parseValues_get_value_reply_witness :
  parseValues (getValueReply "sat" [("EVALEXPR_0", "5"); ("EVALEXPR_1", "true")])
  = ["5"; "true"]
  /\ parseValues ("sat" +:+ Cpp.nl +:+ "((" +:+ "EVALEXPR_0" +:+ " " +:+ "(- 5" +:+ ")"
                  +:+ "))" +:+ Cpp.nl)
     = ["(- 5"].
Proof.
  split.
  - apply (proj1 parseValues_get_value_reply "sat" ("EVALEXPR_0", "5")
             [("EVALEXPR_1", "true")]).
    + reflexivity.
    + repeat constructor.
  - apply (proj1 (proj2 (proj2 (proj2 parseValues_get_value_reply)))
             "sat" "EVALEXPR_0" "(- 5" ("))" +:+ Cpp.nl) eq_refl eq_refl eq_refl).
    reflexivity.
Defined.

(** ** The dispatcher *)

Lemma resultFromSolverResponse_cases (response : string) :
  resultFromSolverResponse response = SATISFIABLE
  \/ resultFromSolverResponse response = UNSATISFIABLE
  \/ resultFromSolverResponse response = UNKNOWN
  \/ resultFromSolverResponse response = ERROR.
Proof.
  unfold resultFromSolverResponse.
  destruct (Cpp.starts_with response "sat"); [tauto|].
  destruct (Cpp.starts_with response "unsat"); [tauto|].
  destruct (Cpp.starts_with response "unknown"); tauto.
Qed.

Section Aggregation.

Context {World : Type}.
Variable SMTQuery : string.
Variable callback : Callback World.
Variable query : string.

Implicit Types (s : string) (rest commands : list string) (w : World) (r : ReadResult).

(** One turn of the loop, by what the backend answers. *)
Lemma consult_failed s rest (lastResult : CheckResult) (finalValues : list string) w r w' :
  callback (SMTQuery +:+ " " +:+ s) query w = (r, w') -> success r = false ->
  consult SMTQuery callback query (s :: rest) lastResult finalValues w
  = consult SMTQuery callback query rest lastResult finalValues w'.
Proof. intros E Hs. cbn [consult]. now rewrite E, Hs. Qed.

Lemma consult_replied s rest (lastResult : CheckResult) (finalValues : list string) w r w' :
  callback (SMTQuery +:+ " " +:+ s) query w = (r, w') -> success r = true ->
  consult SMTQuery callback query (s :: rest) lastResult finalValues w
  = match resultFromSolverResponse (responseOrErrorMessage r), lastResult with
    | SATISFIABLE, (UNKNOWN | CONFLICTING | ERROR) =>
        consult SMTQuery callback query rest SATISFIABLE
          (parseValues (responseOrErrorMessage r)) w'
    | UNSATISFIABLE, (UNKNOWN | CONFLICTING | ERROR) =>
        consult SMTQuery callback query rest UNSATISFIABLE finalValues w'
    | SATISFIABLE, UNSATISFIABLE | UNSATISFIABLE, SATISFIABLE =>
        (CONFLICTING, finalValues, w')
    | UNKNOWN, ERROR => consult SMTQuery callback query rest UNKNOWN finalValues w'
    | _, _ => consult SMTQuery callback query rest lastResult finalValues w'
    end.
Proof.
  intros E Hs. cbn [consult]. rewrite E, Hs. cbn [negb].
  destruct (resultFromSolverResponse (responseOrErrorMessage r)), lastResult; reflexivity.
Qed.

(** Once the running result is not [ERROR], it never is again. *)
Lemma consult_keeps_answer commands :
  forall (lastResult : CheckResult) (finalValues : list string) w,
    lastResult <> ERROR ->
    fst (fst (consult SMTQuery callback query commands lastResult finalValues w)) <> ERROR.
Proof.
  induction commands as [|s rest IH]; intros lastResult finalValues w Hl; [exact Hl|].
  destruct (callback (SMTQuery +:+ " " +:+ s) query w) as [r w'] eqn:E.
  destruct (success r) eqn:Hs.
  - rewrite (consult_replied _ _ _ _ _ _ _ E Hs).
    destruct (resultFromSolverResponse (responseOrErrorMessage r)), lastResult;
      first [congruence | apply IH; congruence | cbn; congruence].
  - rewrite (consult_failed _ _ _ _ _ _ _ E Hs). now apply IH.
Qed.

(** The running result stays [ERROR] exactly as long as no answer is usable. *)
Lemma consult_error_iff commands :
  forall (finalValues : list string) w,
    fst (fst (consult SMTQuery callback query commands ERROR finalValues w)) = ERROR
    <-> Forall (fun r => usable r = false) (replies SMTQuery callback query commands w).
Proof.
  induction commands as [|s rest IH]; intros finalValues w.
  - cbn. split; [constructor|reflexivity].
  - cbn [replies].
    destruct (callback (SMTQuery +:+ " " +:+ s) query w) as [r w'] eqn:E.
    destruct (success r) eqn:Hs.
    + rewrite (consult_replied _ _ _ _ _ _ _ E Hs).
      destruct (resultFromSolverResponse_cases (responseOrErrorMessage r)) as [C|[C|[C|C]]];
        rewrite C.
      1-3: split;
        [ intros H; exfalso; revert H; apply consult_keeps_answer; discriminate
        | intros H; apply Forall_inv in H; unfold usable in H; rewrite Hs, C in H;
          discriminate H ].
      rewrite IH. split.
      * intros H. constructor; [|exact H]. unfold usable. now rewrite Hs, C.
      * apply Forall_inv_tail.
    + rewrite (consult_failed _ _ _ _ _ _ _ E Hs). rewrite IH. split.
      * intros H. constructor; [|exact H]. unfold usable. now rewrite Hs.
      * apply Forall_inv_tail.
Qed.

(** C6. A reply that classifies as [UNKNOWN] becomes the running result only
    when the running result is still [ERROR]; it leaves every other running
    result, and the values, as they are.  So it does not replace a
    [SATISFIABLE] or [UNSATISFIABLE] that was adopted before: when a backend
    gives a definitive answer and the next one [UNKNOWN], the loop goes on
    with the answer and the values of the former. *)
Theorem unknown_adopted_only_over_error s rest (lastResult : CheckResult)
    (finalValues : list string) w r w' :
  callback (SMTQuery +:+ " " +:+ s) query w = (r, w') ->
  success r = true ->
  resultFromSolverResponse (responseOrErrorMessage r) = UNKNOWN ->
  consult SMTQuery callback query (s :: rest) lastResult finalValues w
  = consult SMTQuery callback query rest
      (if CheckResult_eqb lastResult ERROR then UNKNOWN else lastResult) finalValues w'
  /\ (solverAnswered lastResult = true ->
      consult SMTQuery callback query (s :: rest) lastResult finalValues w
      = consult SMTQuery callback query rest lastResult finalValues w')
  /\ (forall s0 w0 r0,
        callback (SMTQuery +:+ " " +:+ s0) query w0 = (r0, w) ->
        success r0 = true ->
        solverAnswered (resultFromSolverResponse (responseOrErrorMessage r0)) = true ->
        consult SMTQuery callback query (s0 :: s :: rest) ERROR [] w0
        = consult SMTQuery callback query rest
            (resultFromSolverResponse (responseOrErrorMessage r0))
            (if CheckResult_eqb (resultFromSolverResponse (responseOrErrorMessage r0))
                  SATISFIABLE
             then parseValues (responseOrErrorMessage r0) else []) w').
Proof.
  intros E Hs C.
  assert (forall l v,
             consult SMTQuery callback query (s :: rest) l v w
             = consult SMTQuery callback query rest
                 (if CheckResult_eqb l ERROR then UNKNOWN else l) v w') as Step.
  { intros l v. rewrite (consult_replied _ _ _ _ _ _ _ E Hs), C. now destruct l. }
  split; [apply Step|]. split.
  - intros Ha. rewrite Step. now destruct lastResult.
  - intros s0 w0 r0 E0 Hs0 Ha0.
    rewrite (consult_replied _ _ _ _ _ _ _ E0 Hs0).
    destruct (resultFromSolverResponse (responseOrErrorMessage r0));
      try discriminate Ha0; cbn [CheckResult_eqb]; now rewrite Step.
Qed.

End Aggregation.

Lemma unknown_adopted_only_over_error_witness :
  consult "smt-query" (answering "unknown") "(check-sat)" ["cvc4"] SATISFIABLE ["5"] tt
  = (SATISFIABLE, ["5"], tt).
Proof.
  apply (proj1 (proj2 (unknown_adopted_only_over_error "smt-query" (answering "unknown")
                         "(check-sat)" "cvc4" [] SATISFIABLE ["5"] tt _ tt
                         eq_refl eq_refl eq_refl))).
  reflexivity.
Defined.

Section Check.

Context {World : Type}.
Variable order : EvaluationOrder.
Variable SMTQuery : string.
Implicit Types (o : SMTLib2Interface World) (w : World) (r : ReadResult).

(** [check] once the query is built and the callback is known. *)
Lemma check_unfold (es : list Expression) o w (query : string) o1 (callback : Callback World) :
  dumpQuery order es o = inr (query, o1) ->
  m_smtCallback o = Some callback ->
  m_smtCallback o1 = Some callback
  /\ m_enabledSolvers o1 = m_enabledSolvers o
  /\ m_unhandledQueries o1 = m_unhandledQueries o
  /\ check order SMTQuery es o w
     = let '(lastResult, finalValues, w') :=
         consult SMTQuery callback query (solverCommands (m_enabledSolvers o)) ERROR [] w in
       inr (lastResult, finalValues,
            if CheckResult_eqb lastResult ERROR
            then set_unhandledQueries (fun v => (v ++ [query])%list) o1 else o1,
            w').
Proof.
  intros Hq Hc.
  destruct (renders_dumpQuery order es _ _ _ Hq) as [new [(_ & U & C & E & _) _]].
  rewrite C, E, U. repeat split; [exact Hc|].
  unfold check. rewrite Hq, C, Hc, E. reflexivity.
Qed.

(** C1. With both backends enabled and both callbacks successful: when both
    replies classify as [SATISFIABLE], the verdict is [SATISFIABLE] and the
    values are parsed from the reply of z3, the first to be asked; when one
    reply classifies as [SATISFIABLE] and the other as [UNSATISFIABLE], in
    either order, the verdict is [CONFLICTING].  And whatever backends might
    follow the two, the loop ends at the second, conflicting answer: the world
    it leaves is the one after the second call of the callback. *)
Theorem check_two_backends (es : list Expression) o w (query : string) o1
    (callback : Callback World) r1 w1 r2 w2 :
  dumpQuery order es o = inr (query, o1) ->
  m_smtCallback o = Some callback ->
  z3 (m_enabledSolvers o) = true ->
  cvc4 (m_enabledSolvers o) = true ->
  callback (SMTQuery +:+ " " +:+ "z3 rlimit=1000000") query w = (r1, w1) ->
  callback (SMTQuery +:+ " " +:+ "cvc4") query w1 = (r2, w2) ->
  success r1 = true ->
  success r2 = true ->
  let c1 := resultFromSolverResponse (responseOrErrorMessage r1) in
  let c2 := resultFromSolverResponse (responseOrErrorMessage r2) in
  (c1 = SATISFIABLE -> c2 = SATISFIABLE ->
   check order SMTQuery es o w
   = inr (SATISFIABLE, parseValues (responseOrErrorMessage r1), o1, w2))
  /\ (c1 = SATISFIABLE -> c2 = UNSATISFIABLE ->
      check order SMTQuery es o w
      = inr (CONFLICTING, parseValues (responseOrErrorMessage r1), o1, w2))
  /\ (c1 = UNSATISFIABLE -> c2 = SATISFIABLE ->
      check order SMTQuery es o w = inr (CONFLICTING, [], o1, w2))
  /\ (forall more : list string,
        (c1 = SATISFIABLE /\ c2 = UNSATISFIABLE) \/ (c1 = UNSATISFIABLE /\ c2 = SATISFIABLE) ->
        consult SMTQuery callback query ("z3 rlimit=1000000" :: "cvc4" :: more) ERROR [] w
        = (CONFLICTING,
           if CheckResult_eqb c1 SATISFIABLE then parseValues (responseOrErrorMessage r1)
           else [],
           w2)).
Proof.
  intros Hq Hc Hz Hv E1 E2 S1 S2 c1 c2.
  destruct (check_unfold es o w query o1 callback Hq Hc) as (_ & _ & _ & ->).
  unfold solverCommands. rewrite Hz, Hv. cbn [app].
  assert (forall more v1 v2,
             c1 = v1 -> c2 = v2 -> solverAnswered v1 = true ->
             consult SMTQuery callback query ("z3 rlimit=1000000" :: "cvc4" :: more) ERROR [] w
             = match v1, v2 with
               | SATISFIABLE, UNSATISFIABLE =>
                   (CONFLICTING, parseValues (responseOrErrorMessage r1), w2)
               | UNSATISFIABLE, SATISFIABLE => (CONFLICTING, [], w2)
               | _, _ =>
                   consult SMTQuery callback query more v1
                     (if CheckResult_eqb v1 SATISFIABLE
                      then parseValues (responseOrErrorMessage r1) else []) w2
               end) as Two.
  { intros more v1 v2 C1 C2 Ha.
    rewrite (consult_replied _ _ _ _ _ _ _ _ _ _ E1 S1). fold c1. rewrite C1.
    destruct v1; try discriminate Ha;
      rewrite (consult_replied _ _ _ _ _ _ _ _ _ _ E2 S2); fold c2; rewrite C2;
      destruct v2; reflexivity. }
  repeat split.
  - intros C1 C2. now rewrite (Two [] _ _ C1 C2).
  - intros C1 C2. now rewrite (Two [] _ _ C1 C2).
  - intros C1 C2. now rewrite (Two [] _ _ C1 C2).
  - intros more [[C1 C2]|[C1 C2]]; rewrite (Two more _ _ C1 C2), C1; reflexivity.
Qed.

End Check.

Lemma check_two_backends_witness :
  check leftToRight "smt-query" [intX] (freshSession (Some fiveAndSeven)) tt
  = inr (SATISFIABLE, ["5"], freshSession (Some fiveAndSeven), tt).
Proof.
  refine (eq_trans
            (proj1 (check_two_backends leftToRight "smt-query" [intX]
                      (freshSession (Some fiveAndSeven)) tt
                      queryForX (freshSession (Some fiveAndSeven)) fiveAndSeven
                      {| success := true;
                         responseOrErrorMessage :=
                           "sat" +:+ Cpp.nl +:+ "((|EVALEXPR_0| 5))" +:+ Cpp.nl |} tt
                      {| success := true;
                         responseOrErrorMessage :=
                           "sat" +:+ Cpp.nl +:+ "((|EVALEXPR_0| 7))" +:+ Cpp.nl |} tt
                      _ _ _ _ _ _ _ _) _ _) _);
    vm_compute; reflexivity.
Defined.

Section CheckVerdict.

Context {World : Type}.
Variable order : EvaluationOrder.
Variable SMTQuery : string.
Implicit Types (o : SMTLib2Interface World) (w : World).

(** C4, as the code has it.  [check] raises exactly when building the query
    raises (an evaluate-expression with a sort other than Int and Bool, or an
    expression that does not render) or when no callback is installed.
    Otherwise it returns, whatever the backends do: the verdict is [ERROR]
    exactly when no reply of an enabled backend is usable (every callback
    failed or its reply classifies as [ERROR]); in that case the query is
    appended once to the unhandled queries, and in every other case the
    unhandled queries stay as they are. *)
Theorem check_error_iff_no_usable_answer (es : list Expression) o w :
  (forall f, dumpQuery order es o = inl f -> check order SMTQuery es o w = inl f)
  /\ (forall query o1,
        dumpQuery order es o = inr (query, o1) ->
        m_smtCallback o = None ->
        check order SMTQuery es o w = inl (AssertionFailed ""))
  /\ (forall query o1 callback,
        dumpQuery order es o = inr (query, o1) ->
        m_smtCallback o = Some callback ->
        exists result values o2 w2,
          check order SMTQuery es o w = inr (result, values, o2, w2)
          /\ (result = ERROR <->
              Forall (fun r => usable r = false)
                (replies SMTQuery callback query (solverCommands (m_enabledSolvers o)) w))
          /\ (result = ERROR ->
              m_unhandledQueries o2 = (m_unhandledQueries o ++ [query])%list)
          /\ (result <> ERROR -> m_unhandledQueries o2 = m_unhandledQueries o)).
Proof.
  split; [|split].
  - intros f H. unfold check. now rewrite H.
  - intros query o1 Hq Hc.
    destruct (renders_dumpQuery order es _ _ _ Hq) as [new [(_ & _ & C & _) _]].
    unfold check. now rewrite Hq, C, Hc.
  - intros query o1 callback Hq Hc.
    destruct (check_unfold order SMTQuery es o w query o1 callback Hq Hc) as (_ & _ & U & ->).
    pose proof (consult_error_iff SMTQuery callback query
                  (solverCommands (m_enabledSolvers o)) [] w) as Hiff.
    destruct (consult SMTQuery callback query (solverCommands (m_enabledSolvers o)) ERROR [] w)
      as [[result values] w2].
    cbn [fst] in Hiff.
    eexists result, values, _, w2. split; [reflexivity|]. split; [exact Hiff|]. split.
    + intros ->. cbn. now rewrite U.
    + intros Hne. destruct result; try exact U. congruence.
Qed.

End CheckVerdict.

(** Against C4 as stated: [check] raises on an evaluate-expression of a
    bit-vector sort, with both backends enabled and a callback that answers. *)
Lemma check_raises_on_bitvector_expression :
  check leftToRight "smt-query" [mkExpression "x" [] (Some (BitVectorSort 1 8))]
    (freshSession (Some (answering "sat"))) tt
  = inl (AssertionFailed "Invalid sort for expression to evaluate.").
Proof. reflexivity. Qed.

(** The callback fails for z3 and answers cvc4 with a reply that is no
    verdict: [check] returns [ERROR] and logs the query. *)
Lemma check_error_iff_no_usable_answer_witness :
  let callback : Callback unit :=
    fun label _ w =>
      ({| success := String.eqb label "smt-query cvc4";
          responseOrErrorMessage := "(error)" |}, w) in
  exists result values o2 w2,
    check leftToRight "smt-query" [] (freshSession (Some callback)) tt
    = inr (result, values, o2, w2)
    /\ result = ERROR
    /\ m_unhandledQueries o2
       = ["(set-option :produce-models true)" +:+ Cpp.nl +:+ "(set-logic ALL)" +:+ Cpp.nl
          +:+ "(check-sat)" +:+ Cpp.nl].
Proof.
  intros callback.
  destruct (proj2 (proj2 (check_error_iff_no_usable_answer leftToRight "smt-query" []
                            (freshSession (Some callback)) tt))
              _ _ callback eq_refl eq_refl)
    as (result & values & o2 & w2 & E & Hiff & Hlog & _).
  assert (result = ERROR) as Hr by (apply Hiff; repeat constructor).
  exists result, values, o2, w2. split; [exact E|]. split; [exact Hr|].
  rewrite (Hlog Hr). reflexivity.
Defined.

(** * Further properties of the encoder *)

Section EncoderFacts.

Context {World : Type}.
Variable order : EvaluationOrder.
Implicit Types (o : SMTLib2Interface World) (name : string) (so : SortPointer).

Lemma back_append_top (below : list string) (top data : string) :
  back_append (below ++ [top]) data = (below ++ [top +:+ data])%list.
Proof.
  induction below as [|x below IH]; [reflexivity|].
  change ((x :: below) ++ [top])%list with (x :: (below ++ [top]))%list.
  cbn [back_append]. rewrite IH. destruct (below ++ [top])%list eqn:E; [|reflexivity].
  destruct below; discriminate E.
Qed.

(** X1. [reset] returns on every object, also on one whose scope stack is
    empty: it leaves one scope that holds the preamble (with the timeout line
    exactly when a timeout is configured), empties the declaration table, the
    tuple registry and the sort-name cache, and keeps the unhandled queries,
    the callback, the enabled solvers and the timeout. A second [reset]
    changes nothing more. *)
Theorem reset_reinitialises o :
  let fresh :=
    {| m_accumulatedOutput := [preamble (m_queryTimeout o)];
       m_variables := ∅; m_userSorts := []; m_sortNames := ∅;
       m_unhandledQueries := m_unhandledQueries o;
       m_smtCallback := m_smtCallback o;
       m_enabledSolvers := m_enabledSolvers o;
       m_queryTimeout := m_queryTimeout o |} in
  reset o = inr (tt, fresh) /\ reset fresh = inr (tt, fresh).
Proof.
  assert (forall o', reset o' =
            inr (tt, {| m_accumulatedOutput := [preamble (m_queryTimeout o')];
                        m_variables := ∅; m_userSorts := []; m_sortNames := ∅;
                        m_unhandledQueries := m_unhandledQueries o';
                        m_smtCallback := m_smtCallback o';
                        m_enabledSolvers := m_enabledSolvers o';
                        m_queryTimeout := m_queryTimeout o' |})) as H.
  { intros [out vars sorts names log cb enabled [t|]];
      unfold reset, write, bind, modify, gets, smtAssert, ret, preamble,
        set_accumulatedOutput, set_variables, set_userSorts, set_sortNames;
      cbn -[String.append Cpp.to_string Cpp.nl];
      rewrite ?append_assoc; reflexivity. }
  intros fresh. split; [apply H|]. rewrite (H fresh). reflexivity.
Qed.

(** X2. [write] appends the data and a line feed to the top scope and leaves
    the scopes below as they are; on an empty scope stack it is a contract
    violation. *)
Theorem write_top_scope_only (data : string) o :
  (m_accumulatedOutput o = [] -> write data o = inl (AssertionFailed ""))
  /\ (forall below top,
        m_accumulatedOutput o = (below ++ [top])%list ->
        exists o',
          write data o = inr (tt, o')
          /\ m_accumulatedOutput o' = (below ++ [top +:+ data +:+ Cpp.nl])%list
          /\ set_accumulatedOutput (fun _ => m_accumulatedOutput o) o' = o).
Proof.
  split.
  - intros E. unfold write, bind, gets. now rewrite E.
  - intros below top E. unfold write, bind, gets. rewrite E.
    assert (Nat.eqb (length (below ++ [top])) 0 = false) as ->.
    { rewrite length_app. cbn. apply Nat.eqb_neq. lia. }
    cbn [negb smtAssert ret modify]. eexists. split; [reflexivity|].
    cbn [m_accumulatedOutput set_accumulatedOutput]. rewrite E, back_append_top.
    split; [reflexivity|].
    destruct o as [out vars sorts names log cb enabled timeout]. cbn in *. now subst.
Qed.


(** X4. The sort-name cache is keyed by the address of the sort object alone.
    After [toSmtLibSort] has returned a text for a sort, the text is in the
    cache under the address of the sort, and [toSmtLibSort] of any sort at
    that address, whatever its structure, returns the same text and leaves the
    object as it is. *)
Theorem toSmtLibSort_cached (s : Sort) o (text : string) o' :
  toSmtLibSort order s o = inr (text, o') ->
  m_sortNames o' !! address s = Some text
  /\ forall s' : Sort,
       address s' = address s -> toSmtLibSort order s' o' = inr (text, o').
Proof.
  intros H.
  assert (m_sortNames o' !! address s = Some text) as Hc.
  { unfold toSmtLibSort, toSmtLibSort_at in H.
    apply bind_inr in H as (cached & o1 & H1 & H). injection H1 as <- <-.
    apply bind_inr in H as (u & o1 & _ & H).
    apply bind_inr in H as (cached & o2 & H1 & H). injection H1 as <- <-.
    destruct (m_sortNames o1 !! address s) eqn:E; [|discriminate H].
    injection H as <- <-. exact E. }
  split; [exact Hc|]. intros s' Ha.
  unfold toSmtLibSort, toSmtLibSort_at, bind, gets, ret. rewrite Ha, Hc.
  cbn beta iota. now rewrite Hc.
Qed.

Lemma toSmtLibSort_at_fails (a : addr) (compute : M World string) o (f : Failure) :
  m_sortNames o !! a = None ->
  compute o = inl f ->
  toSmtLibSort_at a compute o = inl f.
Proof.
  intros Hc Hf. unfold toSmtLibSort_at, bind, gets. now rewrite Hc, Hf.
Qed.

(** X5. The sorts that have no text. For a sort that is not in the sort-name
    cache, [toSmtLibSort] fails with the message "Invalid SMT sort" on a
    function sort and on a sort of sorts, with a contract violation on an
    array sort whose domain or range is null, and with a contract violation on
    a tuple sort of an unregistered name that has not as many member names as
    components. *)
Theorem toSmtLibSort_rejects (a : addr) o :
  m_sortNames o !! a = None ->
  (forall domain codomain,
      toSmtLibSort order (FunctionSort a domain codomain) o
      = inl (AssertionFailed "Invalid SMT sort"))
  /\ (forall inner,
        toSmtLibSort order (SortSort a inner) o = inl (AssertionFailed "Invalid SMT sort"))
  /\ (forall domain range,
        domain = None \/ range = None ->
        toSmtLibSort order (ArraySort a domain range) o = inl (AssertionFailed ""))
  /\ (forall name members components,
        registered ("|" +:+ name +:+ "|") o = false ->
        length members <> length components ->
        toSmtLibSort order (TupleSort a name members components) o
        = inl (AssertionFailed "")).
Proof.
  intros Hc. unfold toSmtLibSort. cbn [address].
  split; [|split; [|split]].
  - intros domain codomain. now apply toSmtLibSort_at_fails.
  - intros inner. now apply toSmtLibSort_at_fails.
  - intros domain range Hnull. apply toSmtLibSort_at_fails; [exact Hc|].
    destruct Hnull as [-> | ->]; [reflexivity|]. now destruct domain.
  - intros name members components Hr Hl. apply toSmtLibSort_at_fails; [exact Hc|].
    cbn [sortToString]. unfold bind, gets. unfold registered in Hr. rewrite Hr.
    apply Nat.eqb_neq in Hl. now rewrite Hl.
Qed.

Lemma toSmtLibSort_at_uncached (a : addr) (compute : M World string) o :
  m_sortNames o !! a = None ->
  toSmtLibSort_at a compute o
  = match compute o with
    | inr (text, o1) => inr (text, set_sortNames (fun m => <[a := text]> m) o1)
    | inl f => inl f
    end.
Proof.
  intros Hc. unfold toSmtLibSort_at, bind, gets. rewrite Hc.
  destruct (compute o) as [f|[text o1]]; [reflexivity|].
  unfold modify. cbn [m_sortNames set_sortNames]. now rewrite lookup_insert_eq.
Qed.

(** The loop over the members of a tuple renders the components from left
    to right and appends one field for each member. *)
Lemma tupleMembers_texts (components : list SortPointer) :
  forall (members : list string) (decl : string) o,
    length members = length components ->
    tupleMembers (fun c => toSmtLibSort_at (address c) (sortToString order c))
      members components decl o
    = match renderPointers order components o with
      | inr (texts, o1) => inr (decl +:+ memberFields members texts, o1)
      | inl f => inl f
      end.
Proof.
  induction components as [|[c|] components IH]; intros [|m members] decl o Hl;
    try discriminate Hl; cbn [tupleMembers renderPointers memberFields].
  - unfold ret. now rewrite append_nil_r.
  - change (toSmtLibSort_at (address c) (sortToString order c)) with (@toSmtLibSort World order c).
    unfold bind at 1 2. destruct (toSmtLibSort order c o) as [f|[t o1]]; [reflexivity|].
    rewrite IH by (cbn [length] in Hl; lia).
    unfold bind. destruct (renderPointers order components o1) as [f|[ts o2]]; [reflexivity|].
    unfold ret. cbn [memberFields]. now rewrite !append_assoc.
  - reflexivity.
Qed.

(** The texts of a list of sorts have the length of the list. *)
Lemma renderPointers_length (sorts : list SortPointer) :
  forall o (texts : list string) o',
    renderPointers order sorts o = inr (texts, o') -> length texts = length sorts.
Proof.
  induction sorts as [|[s|] sorts IH]; intros o texts o' H; cbn [renderPointers] in H.
  - now injection H as <- _.
  - apply bind_inr in H as (t & o1 & _ & H). apply bind_inr in H as (ts & o2 & H2 & H).
    injection H as <- _. cbn [length]. f_equal. eapply IH, H2.
  - discriminate H.
Qed.

Lemma renders_renderPointers_good (good : string -> Prop) (sorts : list SortPointer) :
  Forall (onPointer (tupleNames good)) sorts ->
  renders good (@renderPointers World order sorts).
Proof.
  induction 1 as [|[s|] sorts Hs _ IH]; cbn [renderPointers].
  - apply renders_ret.
  - apply renders_bind; [now apply renders_toSmtLibSort|]. intros t.
    apply renders_bind; [exact IH|]. intros ts. apply renders_ret.
  - apply renders_throw.
Qed.

(** The first rendering of a tuple sort whose name is not registered. *)
Lemma sortToString_tuple (a : addr) (name : string) (members : list string)
    (components : list SortPointer) o :
  registered ("|" +:+ name +:+ "|") o = false ->
  sortToString order (TupleSort a name members components) o
  = (if Nat.eqb (length members) (length components) then
       match renderPointers order components o with
       | inr (texts, o1) =>
           match write (tupleDeclaration ("|" +:+ name +:+ "|") members texts)
                   (set_userSorts
                      (fun v => (v ++ [("|" +:+ name +:+ "|",
                                        tupleDeclaration ("|" +:+ name +:+ "|") members texts)])%list)
                      o1) with
           | inr (_, o2) => inr ("|" +:+ name +:+ "|", o2)
           | inl f => inl f
           end
       | inl f => inl f
       end
     else inl (AssertionFailed "")).
Proof.
  intros Hr. cbn [sortToString]. unfold bind at 1. unfold gets at 1.
  unfold registered in Hr. rewrite Hr. unfold bind at 1.
  destruct (Nat.eqb (length members) (length components)) eqn:El; [|reflexivity].
  cbn [smtAssert]. unfold ret at 1. apply Nat.eqb_eq in El.
  unfold bind at 1. rewrite (tupleMembers_texts _ _ _ _ El).
  destruct (renderPointers order components o) as [f|[texts o1]]; [reflexivity|].
  unfold tupleDeclaration. rewrite !append_assoc.
  unfold bind at 1. unfold modify at 1. unfold bind.
  match goal with |- context [write ?d ?x] => destruct (write d x) as [f|[u o2]] end;
    reflexivity.
Qed.

(** X6. A tuple sort is declared once for its name.  The first rendering of
    an instance whose name is not registered and which is not in the sort-name
    cache asserts that there are as many members as components, renders the
    components from left to right, registers the name with the declaration
    [(declare-datatypes ((|name| 0)) (((|name| (|m1| T1) ... (|mn| Tn)))))]
    made of the members and of the texts of the components as this call
    rendered them, writes this declaration, and caches the name between bars
    for the instance.  When it returns and no tuple sort among the components
    bears the name, the registry has got the entries of the components, none
    for the name, and then this one entry, and the top scope has got their
    declarations and then this one declaration; and from then on every
    instance that bears the name and is not cached, with whatever members and
    components, renders as the name between bars, and nothing is registered
    or written for it: the registry goes by the name alone. *)
Theorem tuple_declared_once_per_name (a : addr) (name : string) (members : list string)
    (components : list SortPointer) o :
  let tupleName := "|" +:+ name +:+ "|" in
  registered tupleName o = false ->
  m_sortNames o !! a = None ->
  toSmtLibSort order (TupleSort a name members components) o
  = (if Nat.eqb (length members) (length components) then
       match renderPointers order components o with
       | inr (texts, o1) =>
           match write (tupleDeclaration tupleName members texts)
                   (set_userSorts
                      (fun v => (v ++ [(tupleName,
                                        tupleDeclaration tupleName members texts)])%list)
                      o1) with
           | inr (_, o2) => inr (tupleName, set_sortNames (fun m => <[a := tupleName]> m) o2)
           | inl f => inl f
           end
       | inl f => inl f
       end
     else inl (AssertionFailed ""))
  /\ (forall (text : string) o',
        Forall (onPointer (tupleNames (fun n => n <> tupleName))) components ->
        toSmtLibSort order (TupleSort a name members components) o = inr (text, o') ->
        text = tupleName
        /\ exists (new : list (string * string)) (texts : list string) o1,
             renderPointers order components o = inr (texts, o1)
             /\ length texts = length members
             /\ m_userSorts o1 = (m_userSorts o ++ new)%list
             /\ Forall (fun entry => fst entry <> tupleName) new
             /\ m_userSorts o'
                = (m_userSorts o ++ new
                   ++ [(tupleName, tupleDeclaration tupleName members texts)])%list
             /\ m_accumulatedOutput o'
                = back_append (m_accumulatedOutput o)
                    (declarationLines new
                     +:+ tupleDeclaration tupleName members texts +:+ Cpp.nl)
             /\ (forall (a' : addr) (members' : list string)
                        (components' : list SortPointer),
                   m_sortNames o' !! a' = None ->
                   toSmtLibSort order (TupleSort a' name members' components') o'
                   = inr (tupleName, set_sortNames (fun m => <[a' := tupleName]> m) o'))).
Proof.
  intros tupleName Hr Hcache.
  assert (toSmtLibSort order (TupleSort a name members components) o
          = (if Nat.eqb (length members) (length components) then
               match renderPointers order components o with
               | inr (texts, o1) =>
                   match write (tupleDeclaration tupleName members texts)
                           (set_userSorts
                              (fun v => (v ++ [(tupleName,
                                                tupleDeclaration tupleName members texts)])%list)
                              o1) with
                   | inr (_, o2) =>
                       inr (tupleName, set_sortNames (fun m => <[a := tupleName]> m) o2)
                   | inl f => inl f
                   end
               | inl f => inl f
               end
             else inl (AssertionFailed ""))) as Heq.
  { unfold toSmtLibSort. cbn [address]. rewrite (toSmtLibSort_at_uncached _ _ _ Hcache).
    rewrite (sortToString_tuple _ _ _ _ _ Hr). fold tupleName.
    destruct (Nat.eqb (length members) (length components)); [|reflexivity].
    destruct (renderPointers order components o) as [f|[texts o1]]; [reflexivity|].
    match goal with |- context [write ?d ?x] => destruct (write d x) as [f|[u o2]] end;
      reflexivity. }
  split; [exact Heq|].
  intros text o' Hnames H. rewrite Heq in H.
  destruct (Nat.eqb (length members) (length components)) eqn:El; [|discriminate H].
  apply Nat.eqb_eq in El.
  destruct (renderPointers order components o) as [f|[texts o1]] eqn:Er; [discriminate H|].
  destruct (renders_renderPointers_good _ _ Hnames _ _ _ Er)
    as [new [(_ & _ & _ & _ & _ & S & O & _) G]].
  match type of H with
  | context [write ?d ?x] => destruct (write d x) as [f|[u o2]] eqn:Ew; [discriminate H|]
  end.
  apply write_inr in Ew as [_ ->]. injection H as <- <-.
  split; [reflexivity|]. exists new, texts, o1.
  split; [reflexivity|]. split; [rewrite (renderPointers_length _ _ _ _ Er); lia|].
  split; [exact S|]. split; [exact G|].
  cbn [m_userSorts m_accumulatedOutput set_sortNames set_accumulatedOutput set_userSorts].
  split; [now rewrite S, <- app_assoc|].
  split; [now rewrite O, back_append_append|].
  intros a' members' components' Hc.
  unfold toSmtLibSort. cbn [address]. rewrite (toSmtLibSort_at_uncached _ _ _ Hc).
  rewrite sortToString_registered; [reflexivity|].
  unfold registered.
  cbn [m_userSorts set_sortNames set_accumulatedOutput set_userSorts].
  rewrite existsb_app. cbn [existsb fst]. fold tupleName. rewrite String.eqb_refl.
  cbn [orb]. now rewrite orb_true_r.
Qed.

(** X25. The texts of the sorts.  A sort that is not in the sort-name cache
    renders as [Int], [Bool] or [(_ BitVec n)] by its kind, and the object
    gets nothing but the cache entry.  An array sort renders as
    [(Array D R)] for the texts [D] of its domain and [R] of its range; the
    two are rendered one after the other, in the order that the compiler
    chose for the operands, and the text is the same either way. *)
Theorem sort_texts (a : addr) o :
  m_sortNames o !! a = None ->
  (forall isSigned,
      toSmtLibSort order (IntSort a isSigned) o
      = inr ("Int", set_sortNames (fun m => <[a := "Int"]> m) o))
  /\ toSmtLibSort order (BoolSort a) o
     = inr ("Bool", set_sortNames (fun m => <[a := "Bool"]> m) o)
  /\ (forall size,
        toSmtLibSort order (BitVectorSort a size) o
        = inr ("(_ BitVec " +:+ Cpp.to_string size +:+ ")",
               set_sortNames
                 (fun m => <[a := "(_ BitVec " +:+ Cpp.to_string size +:+ ")"]> m) o))
  /\ (forall (d r : Sort) (text : string) o',
        toSmtLibSort order (ArraySort a (Some d) (Some r)) o = inr (text, o') ->
        exists (D R : string) o1 o2,
          text = "(Array " +:+ D +:+ " " +:+ R +:+ ")"
          /\ (if rangeBeforeDomain order
              then toSmtLibSort order r o = inr (R, o1)
                   /\ toSmtLibSort order d o1 = inr (D, o2)
              else toSmtLibSort order d o = inr (D, o1)
                   /\ toSmtLibSort order r o1 = inr (R, o2))
          /\ o' = set_sortNames (fun m => <[a := text]> m) o2).
Proof.
  intros Hc.
  assert (forall s : Sort,
             address s = a ->
             toSmtLibSort order s o
             = match sortToString order s o with
               | inr (text, o1) => inr (text, set_sortNames (fun m => <[a := text]> m) o1)
               | inl f => inl f
               end) as Hs.
  { intros s <-. now apply toSmtLibSort_at_uncached. }
  split; [intros isSigned; now rewrite Hs|]. split; [now rewrite Hs|].
  split; [intros size; now rewrite Hs|].
  intros d r text o' H. rewrite Hs in H by reflexivity. cbn [sortToString] in H.
  change (toSmtLibSort_at (address d) (sortToString order d))
    with (@toSmtLibSort World order d) in H.
  change (toSmtLibSort_at (address r) (sortToString order r))
    with (@toSmtLibSort World order r) in H.
  destruct (rangeBeforeDomain order).
  - unfold bind in H.
    destruct (toSmtLibSort order r o) as [f|[R o1]] eqn:Er; [discriminate H|].
    destruct (toSmtLibSort order d o1) as [f|[D o2]] eqn:Ed; [discriminate H|].
    injection H as <- <-. exists D, R, o1, o2. auto.
  - unfold bind in H.
    destruct (toSmtLibSort order d o) as [f|[D o1]] eqn:Ed; [discriminate H|].
    destruct (toSmtLibSort order r o1) as [f|[R o2]] eqn:Er; [discriminate H|].
    injection H as <- <-. exists D, R, o1, o2. auto.
Qed.

(** [write] that throws leaves the object as it is. *)
Lemma Thrown_write_throws (data : string) o (f : Failure) o' :
  Thrown.write data o = (inl f, o') -> o' = o.
Proof.
  unfold Thrown.write, Thrown.bind, Thrown.gets.
  destruct (m_accumulatedOutput o) as [|x v]; cbn; [|discriminate].
  now intros [= _ <-].
Qed.

(** An object that has grown from one with [name] in the table. *)
Lemma throw_after_emplace name (s : Sort) (new : list (string * string)) o o' :
  grown new (set_variables (fun m => <[name := Some s]> m) o) o' ->
  m_variables o' = <[name := Some s]> (m_variables o)
  /\ (exists new,
         m_userSorts o' = (m_userSorts o ++ new)%list
         /\ m_accumulatedOutput o'
            = back_append (m_accumulatedOutput o) (declarationLines new))
  /\ (forall s' : Sort, declareVariable order name (Some s') o' = inr (tt, o'))
  /\ (forall a domain codomain,
        declareFunction order name (Some (FunctionSort a domain codomain)) o'
        = inr (tt, o')).
Proof.
  intros (V & _ & _ & _ & _ & S & O). cbn [m_variables set_variables] in V.
  cbn [m_userSorts m_accumulatedOutput set_variables] in S, O.
  assert (is_Some (m_variables o' !! name)) as Hd.
  { rewrite V, lookup_insert_eq. eauto. }
  split; [exact V|]. split; [eauto|]. split.
  - intros s'. now apply declareVariable_again.
  - intros a domain codomain. now apply declareFunction_again.
Qed.

(** X26. The text of a list of sorts.  [toSmtLibSorts] renders the sorts of
    the list from left to right, each on the object that the one before it
    left, and returns their texts, each followed by a blank, between
    parentheses; it fails where the first sort that fails fails, and a null
    pointer in the list is undefined behaviour.  When it returns there is one
    text for every sort of the list, and the object has got the datatype
    declarations of the tuple sorts that were rendered and is otherwise
    unchanged but for the sort-name cache.  The empty list gives [()], and a
    list of one sort gives [(T )] with the text [T] of the sort. *)
Theorem sort_list_text (sorts : list SortPointer) o :
  toSmtLibSorts order sorts o
  = match renderPointers order sorts o with
    | inr (texts, o') => inr ("(" +:+ trailing texts +:+ ")", o')
    | inl f => inl f
    end
  /\ renderPointers order [] o = inr ([], o)
  /\ (forall (p : SortPointer) (rest : list SortPointer),
        renderPointers order (p :: rest) o
        = match p with
          | Some s =>
              match toSmtLibSort order s o with
              | inr (t, o1) =>
                  match renderPointers order rest o1 with
                  | inr (ts, o2) => inr (t :: ts, o2)
                  | inl f => inl f
                  end
              | inl f => inl f
              end
          | None => inl UndefinedBehaviour
          end)
  /\ (forall (texts : list string) o',
        renderPointers order sorts o = inr (texts, o') ->
        length texts = length sorts
        /\ Forall (fun p => p <> None) sorts
        /\ exists new, rendered new o o')
  /\ toSmtLibSorts order [] o = inr ("()", o)
  /\ (forall s : Sort,
        toSmtLibSorts order [Some s] o
        = match toSmtLibSort order s o with
          | inr (T, o') => inr ("(" +:+ T +:+ " )", o')
          | inl f => inl f
          end).
Proof.
  split; [apply toSmtLibSorts_from_texts|]. split; [reflexivity|]. split; [|split; [|split]].
  - intros [s|] rest; [|reflexivity]. cbn [renderPointers]. unfold bind.
    destruct (toSmtLibSort order s o) as [f|[t o1]]; [reflexivity|].
    destruct (renderPointers order rest o1) as [f|[ts o2]]; reflexivity.
  - intros texts o' H. split; [eapply renderPointers_length, H|]. split.
    + clear - H. revert o texts o' H.
      induction sorts as [|[s|] sorts IH]; intros o texts o' H; cbn [renderPointers] in H.
      * constructor.
      * apply bind_inr in H as (t & o1 & _ & H). apply bind_inr in H as (ts & o2 & H2 & _).
        constructor; [discriminate|eapply IH, H2].
      * discriminate H.
    + destruct (renders_renderPointers order sorts _ _ _ H) as [new [R _]]. eauto.
  - reflexivity.
  - intros s. unfold toSmtLibSorts. cbn [toSmtLibSorts_from]. unfold bind.
    destruct (toSmtLibSort order s o) as [f|[T o']]; [reflexivity|].
    unfold ret. now rewrite !append_assoc.
Qed.

(** X27. What a declaration that throws leaves behind.  [declareVariable]
    enters the name in the table before it renders the sort, [declareFunction]
    after it has rendered the sorts.  So when the first call of
    [declareVariable] for a name, with a sort that is no function sort, throws
    (the sort has no text, or there is no scope to write to), the name is in
    the table with that sort, the registry and the top scope have got what was
    rendered before the exception and no line for the name, and every later
    declaration of the name returns and leaves the object as it is: the name
    has no declaration line.  When [declareFunction] throws on an object with
    a scope on the stack, the table is as it was.  (An exception is meant
    here, not undefined behaviour.)  On what returns and on what fails the
    two embeddings agree. *)
Theorem declaration_after_throw name o :
  m_variables o !! name = None ->
  (forall (s : Sort) (f : Failure) o',
      Kind_eqb (kind s) KFunction = false ->
      f <> UndefinedBehaviour ->
      Thrown.declareVariable order name (Some s) o = (inl f, o') ->
      m_variables o' = <[name := Some s]> (m_variables o)
      /\ (exists new,
             m_userSorts o' = (m_userSorts o ++ new)%list
             /\ m_accumulatedOutput o'
                = back_append (m_accumulatedOutput o) (declarationLines new))
      /\ (forall s' : Sort, declareVariable order name (Some s') o' = inr (tt, o'))
      /\ (forall a domain codomain,
            declareFunction order name (Some (FunctionSort a domain codomain)) o'
            = inr (tt, o')))
  /\ (forall so (f : Failure) o',
        m_accumulatedOutput o <> [] ->
        f <> UndefinedBehaviour ->
        Thrown.declareFunction order name so o = (inl f, o') ->
        m_variables o' = m_variables o)
  /\ (forall so,
        Thrown.returned (Thrown.declareVariable order name so o)
        = declareVariable order name so o
        /\ Thrown.returned (Thrown.declareFunction order name so o)
           = declareFunction order name so o).
Proof.
  intros Hn.
  assert (bool_decide (is_Some (m_variables o !! name)) = false) as Hd.
  { apply bool_decide_eq_false_2. rewrite Hn. now intros [? ?]. }
  split; [|split].
  - intros s f o' Hk _ H. unfold Thrown.declareVariable in H. rewrite Hk in H.
    unfold Thrown.bind at 1 in H. unfold Thrown.gets at 1 in H. rewrite Hd in H.
    unfold Thrown.bind at 1 in H. unfold Thrown.modify at 1 in H.
    assert (set_variables (Cpp.emplace name (Some s)) o
            = set_variables (fun m => <[name := Some s]> m) o) as E.
    { unfold set_variables. now rewrite (emplace_fresh _ _ _ Hn). }
    rewrite E in H. clear E.
    unfold Thrown.bind in H.
    destruct (leaves_toSmtLibSort order s (set_variables (fun m => <[name := Some s]> m) o))
      as [new G].
    destruct (Thrown.toSmtLibSort order s (set_variables (fun m => <[name := Some s]> m) o))
      as [[g|t] o1] eqn:Es; cbn [snd] in G.
    + injection H as _ <-. now apply throw_after_emplace with (new := new).
    + apply Thrown_write_throws in H as ->. now apply throw_after_emplace with (new := new).
  - intros so f o' Hdepth _ H. unfold Thrown.declareFunction in H.
    destruct so as [s|]; [|now injection H as _ <-].
    destruct s as [| | | | |a domain codomain|]; try now injection H as _ <-.
    unfold Thrown.bind at 1 in H. unfold Thrown.gets at 1 in H. rewrite Hd in H.
    unfold Thrown.bind at 1 in H. unfold Thrown.toSmtLibSorts in H.
    destruct (leaves_toSmtLibSorts_from order domain "(" o) as [n1 G1].
    destruct (Thrown.toSmtLibSorts_from order domain "(" o) as [[g|D] o1] eqn:Ed;
      cbn [snd] in G1.
    { injection H as _ <-. apply G1. }
    unfold Thrown.bind at 1 in H.
    destruct codomain as [c|].
    2:{ injection H as _ <-. apply G1. }
    destruct (leaves_toSmtLibSort order c o1) as [n2 G2].
    destruct (Thrown.toSmtLibSort order c o1) as [[g|C] o2] eqn:Ec; cbn [snd] in G2.
    { injection H as _ <-. destruct G1 as [V1 _], G2 as [V2 _]. now rewrite V2. }
    exfalso. unfold Thrown.bind at 1 in H. unfold Thrown.modify at 1 in H.
    apply Thrown_write_throws in H as H'.
    revert H. unfold Thrown.write, Thrown.bind, Thrown.gets.
    cbn [m_accumulatedOutput set_variables].
    pose proof (grown_depth _ _ _ G1) as D1. pose proof (grown_depth _ _ _ G2) as D2.
    unfold depth in D1, D2.
    destruct (m_accumulatedOutput o2) as [|x v] eqn:E2.
    + cbn [length] in D2. destruct (m_accumulatedOutput o) as [|y w]; [congruence|].
      cbn [length] in D1. lia.
    + cbn. discriminate.
  - intros so. split; [apply Thrown_agrees|apply agrees_declareFunction].
Qed.

End EncoderFacts.

Lemma write_top_scope_only_witness :
  exists o',
    write "(push 1)" (freshSession None) = inr (tt, o')
    /\ m_accumulatedOutput o' = ([] ++ [preamble None +:+ "(push 1)" +:+ Cpp.nl])%list
    /\ set_accumulatedOutput (fun _ => m_accumulatedOutput (freshSession None)) o'
       = freshSession None.
Proof.
  apply (proj2 (write_top_scope_only "(push 1)" (freshSession None)) [] (preamble None)).
  vm_compute. reflexivity.
Defined.


Lemma toSmtLibSort_cached_witness :
  m_sortNames sessionWithPair !! address pairTuple = Some "|pair|"
  /\ forall s' : Sort,
       address s' = address pairTuple ->
       toSmtLibSort leftToRight s' sessionWithPair = inr ("|pair|", sessionWithPair).
Proof.
  apply (toSmtLibSort_cached leftToRight pairTuple (freshSession None)).
  vm_compute. reflexivity.
Defined.

Lemma toSmtLibSort_rejects_witness :
  toSmtLibSort leftToRight (ArraySort 9 None (Some (BoolSort 7))) (freshSession None)
  = inl (AssertionFailed "").
Proof.
  apply (proj1 (proj2 (proj2 (toSmtLibSort_rejects leftToRight 9 (freshSession None) eq_refl)))).
  left. reflexivity.
Defined.

Lemma tuple_declared_once_per_name_witness :
  m_userSorts sessionWithPair
  = [("|pair|",
      "(declare-datatypes ((|pair| 0)) (((|pair| (|first| Int) (|second| Bool)))))")]
  /\ toSmtLibSort leftToRight pairTupleAgain sessionWithPair
     = inr ("|pair|", set_sortNames (fun m => <[8 := "|pair|"]> m) sessionWithPair).
Proof.
  destruct (proj2 (tuple_declared_once_per_name leftToRight 5 "pair" ["first"; "second"]
                     [Some (IntSort 6 false); Some (BoolSort 7)]
                     (freshSession None) eq_refl eq_refl)
              "|pair|" sessionWithPair
              ltac:(repeat constructor) ltac:(vm_compute; reflexivity))
    as (_ & new & texts & o1 & _ & _ & _ & _ & _ & _ & Hlater).
  split; [vm_compute; reflexivity|].
  apply (Hlater 8 ["first"; "second"] [Some (IntSort 6 false); Some (BoolSort 7)]).
  vm_compute. reflexivity.
Defined.

Lemma sort_texts_witness :
  exists (D R : string) o1 o2,
    "(Array Int Bool)" = "(Array " +:+ D +:+ " " +:+ R +:+ ")"
    /\ (if rangeBeforeDomain leftToRight
        then toSmtLibSort leftToRight (BoolSort 4) (freshSession None) = inr (R, o1)
             /\ toSmtLibSort leftToRight (IntSort 3 false) o1 = inr (D, o2)
        else toSmtLibSort leftToRight (IntSort 3 false) (freshSession None) = inr (D, o1)
             /\ toSmtLibSort leftToRight (BoolSort 4) o1 = inr (R, o2))
    /\ sessionWithArray = set_sortNames (fun m => <[2 := "(Array Int Bool)"]> m) o2.
Proof.
  apply (proj2 (proj2 (proj2 (sort_texts leftToRight 2 (freshSession None) eq_refl)))
           (IntSort 3 false) (BoolSort 4) "(Array Int Bool)" sessionWithArray).
  vm_compute. reflexivity.
Defined.

Lemma declaration_after_throw_witness :
  m_variables sessionAfterThrow
  = <["x" := Some (SortSort 9 None)]> (m_variables (freshSession None))
  /\ declareVariable leftToRight "x" (Some (IntSort 1 false)) sessionAfterThrow
     = inr (tt, sessionAfterThrow)
  /\ contains "(declare-fun" (Cpp.join (m_accumulatedOutput sessionAfterThrow) Cpp.nl) = false.
Proof.
  destruct (proj1 (declaration_after_throw leftToRight "x" (freshSession None) eq_refl)
              (SortSort 9 None) (AssertionFailed "Invalid SMT sort") sessionAfterThrow
              eq_refl ltac:(discriminate) ltac:(vm_compute; reflexivity))
    as (Htable & _ & Hagain & _).
  split; [exact Htable|]. split; [apply Hagain|]. vm_compute. reflexivity.
Defined.

(** * Further properties of the expression encoder *)

Section ExpressionFacts.

Context {World : Type}.
Variable order : EvaluationOrder.
Implicit Types (o : SMTLib2Interface World) (op : string) (so : SortPointer).

(** The loop over the arguments appends their texts, each after a blank, and
    fails where the first argument fails. *)
Lemma appendArguments_texts (args : list Expression) :
  forall (sexpr : string) o,
    appendArguments (toSExpr order) args sexpr o
    = match renderAll order args o with
      | inr (texts, o') => inr (sexpr +:+ spaced texts, o')
      | inl f => inl f
      end.
Proof.
  induction args as [|arg args IH]; intros sexpr o.
  - cbn. now rewrite append_nil_r.
  - cbn [appendArguments renderAll]. unfold bind.
    destruct (toSExpr order arg o) as [f|[t o1]]; [reflexivity|].
    rewrite IH. destruct (renderAll order args o1) as [f|[ts o2]]; [reflexivity|].
    unfold ret. cbn [spaced]. now rewrite !append_assoc.
Qed.

Lemma specialOperator_false op :
  specialOperator op = false ->
  String.eqb op "int2bv" = false /\ String.eqb op "bv2int" = false
  /\ String.eqb op "const_array" = false /\ String.eqb op "tuple_get" = false
  /\ String.eqb op "tuple_constructor" = false.
Proof.
  unfold specialOperator. intros H.
  repeat (apply orb_false_elim in H as [H ?]). auto.
Qed.

(** X7. The text of an application. An expression without arguments is its
    name, whatever the name. An application of an operator that is none of
    [int2bv], [bv2int], [const_array], [tuple_get], [tuple_constructor] is the
    operator and the texts of the arguments, rendered from left to right, each
    after one blank, between parentheses; it fails where the first failing
    argument fails. [tuple_constructor] is the same with the name of its tuple
    sort between bars as the operator, and a contract violation when its sort
    is not a tuple sort. *)
Theorem toSExpr_application op (args : list Expression) so o :
  args <> [] ->
  toSExpr order (mkExpression op [] so) o = inr (op, o)
  /\ (specialOperator op = false ->
      toSExpr order (mkExpression op args so) o
      = match renderAll order args o with
        | inr (texts, o') => inr ("(" +:+ op +:+ spaced texts +:+ ")", o')
        | inl f => inl f
        end)
  /\ (forall a tupleName members components,
        so = Some (TupleSort a tupleName members components) ->
        toSExpr order (mkExpression "tuple_constructor" args so) o
        = match renderAll order args o with
          | inr (texts, o') => inr ("(|" +:+ tupleName +:+ "|" +:+ spaced texts +:+ ")", o')
          | inl f => inl f
          end)
  /\ (match so with Some (TupleSort _ _ _ _) => False | _ => True end ->
      toSExpr order (mkExpression "tuple_constructor" args so) o
      = inl (AssertionFailed "")).
Proof.
  intros Hargs. destruct args as [|front rest]; [contradiction|].
  split; [reflexivity|]. split; [|split].
  - intros Hop. apply specialOperator_false in Hop as (E1 & E2 & E3 & E4 & E5).
    cbn [toSExpr]. rewrite E1, E2, E3, E4, E5. unfold bind at 1.
    rewrite appendArguments_texts.
    destruct (renderAll order (front :: rest) o) as [f|[texts o']]; [reflexivity|].
    unfold ret. now rewrite !append_assoc.
  - intros a tupleName members components ->. cbn [toSExpr].
    change (String.eqb "tuple_constructor" "int2bv") with false.
    change (String.eqb "tuple_constructor" "bv2int") with false.
    change (String.eqb "tuple_constructor" "const_array") with false.
    change (String.eqb "tuple_constructor" "tuple_get") with false.
    change (String.eqb "tuple_constructor" "tuple_constructor") with true.
    cbv iota. unfold bind at 1. rewrite appendArguments_texts.
    destruct (renderAll order (front :: rest) o) as [f|[texts o']]; [reflexivity|].
    unfold ret. now rewrite !append_assoc.
  - intros Hso. cbn [toSExpr].
    change (String.eqb "tuple_constructor" "int2bv") with false.
    change (String.eqb "tuple_constructor" "bv2int") with false.
    change (String.eqb "tuple_constructor" "const_array") with false.
    change (String.eqb "tuple_constructor" "tuple_get") with false.
    change (String.eqb "tuple_constructor" "tuple_constructor") with true.
    cbv iota. destruct so as [[]|]; try reflexivity. contradiction.
Qed.

(** X8. The text of [bv2int]. With an unsigned Int sort the result is [(bv2nat
    t)] for the text [t] of the first argument. With a signed Int sort and a
    first argument of a bit-vector sort of width [size] it is the
    two's-complement selection on the bit at position [size - 1], computed in
    32-bit unsigned arithmetic (so that width 0 gives position 4294967295);
    the extract operator is followed by the argument without a blank. With a
    signed Int sort and a first argument that is not of a bit-vector sort the
    argument is rendered and then the contract is violated. With a sort that
    is not an Int sort the contract is violated and nothing is rendered. *)
Theorem toSExpr_bv2int (front : Expression) (rest : list Expression) so o :
  let e := mkExpression "bv2int" (front :: rest) so in
  (forall a, so = Some (IntSort a false) ->
     toSExpr order e o
     = match toSExpr order front o with
       | inr (t, o') => inr ("(bv2nat " +:+ t +:+ ")", o')
       | inl f => inl f
       end)
  /\ (forall a b size, so = Some (IntSort a true) ->
        sort front = Some (BitVectorSort b size) ->
        size < 2 ^ 32 ->
        toSExpr order e o
        = match toSExpr order front o with
          | inr (t, o') =>
              inr ("(ite (= ((_ extract " +:+ signPosition size +:+ " " +:+
                   signPosition size +:+ ")" +:+ t +:+ ") #b0) " +:+
                   "(bv2nat " +:+ t +:+ ") (- (bv2nat (bvneg " +:+ t +:+ "))))", o')
          | inl f => inl f
          end)
  /\ (forall a, so = Some (IntSort a true) ->
        match sort front with Some (BitVectorSort _ _) => False | _ => True end ->
        toSExpr order e o
        = match toSExpr order front o with
          | inr _ => inl (AssertionFailed "")
          | inl f => inl f
          end)
  /\ (match so with Some (IntSort _ _) => False | _ => True end ->
      toSExpr order e o = inl (AssertionFailed "")).
Proof.
  intros e. subst e. cbn [toSExpr].
  change (String.eqb "bv2int" "int2bv") with false.
  change (String.eqb "bv2int" "bv2int") with true. cbv iota.
  split; [|split; [|split]].
  - intros a ->. unfold bind. cbn [negb].
    destruct (toSExpr order front o) as [f|[t o']]; reflexivity.
  - intros a b size -> Hfront Hsize. unfold bind. cbn [negb]. rewrite Hfront.
    destruct (toSExpr order front o) as [f|[t o']]; [reflexivity|].
    unfold ret. f_equal. f_equal.
    assert (Cpp.to_string (unsigned_pred size) = signPosition size) as ->.
    { unfold signPosition, unsigned_pred. f_equal. destruct (N.eqb_spec size 0) as [->|Hn].
      - reflexivity.
      - replace (size + 2 ^ 32 - 1) with (size - 1 + 1 * 2 ^ 32) by lia.
        rewrite N.Div0.mod_add. apply N.mod_small. lia. }
    rewrite !append_assoc. reflexivity.
  - intros a -> Hfront. unfold bind. cbn [negb].
    destruct (toSExpr order front o) as [f|[t o']]; [reflexivity|].
    destruct (sort front) as [[]|]; try reflexivity. contradiction.
  - intros Hso. destruct so as [[]|]; try reflexivity. contradiction.
Qed.

(** X9. The text of [tuple_get] with exactly two arguments, the first of a
    tuple sort, the second named by the decimal digits of [index]. When the
    tuple has a member at [index], the result is the name of that member
    between bars applied to the text of the first argument. When it has not,
    the contract is violated and the first argument is not rendered. *)
Theorem toSExpr_tuple_get (a0 a1 : Expression) so o
    (a : addr) (tupleName : string) (members : list string)
    (components : list SortPointer) (index : N) :
  sort a0 = Some (TupleSort a tupleName members components) ->
  Cpp.stoul (name a1) = inr index ->
  let e := mkExpression "tuple_get" [a0; a1] so in
  (forall member,
      members !! N.to_nat index = Some member ->
      toSExpr order e o
      = match toSExpr order a0 o with
        | inr (t, o') => inr ("(|" +:+ member +:+ "| " +:+ t +:+ ")", o')
        | inl f => inl f
        end)
  /\ (members !! N.to_nat index = None ->
      toSExpr order e o = inl (AssertionFailed "")).
Proof.
  intros Hsort Hindex e. subst e. cbn [toSExpr].
  change (String.eqb "tuple_get" "int2bv") with false.
  change (String.eqb "tuple_get" "bv2int") with false.
  change (String.eqb "tuple_get" "const_array") with false.
  change (String.eqb "tuple_get" "tuple_get") with true. cbv iota.
  rewrite Hindex, Hsort. cbn [of_stoul]. split.
  - intros member Hm.
    assert ((index <? N.of_nat (length members)) = true) as Hlt.
    { apply N.ltb_lt. apply lookup_lt_Some in Hm. lia. }
    unfold bind, lift. rewrite Hlt, Hm. cbn [smtAssert]. unfold ret.
    destruct (toSExpr order a0 o) as [f|[t o']]; [reflexivity|].
    now rewrite !append_assoc.
  - intros Hm.
    assert ((index <? N.of_nat (length members)) = false) as Hlt.
    { apply N.ltb_ge. apply lookup_ge_None in Hm. lia. }
    unfold bind, lift. now rewrite Hlt.
Qed.

(** X10. The text of [const_array] with exactly two arguments, the first of
    the sort of an array sort. The array sort is rendered first (which may
    declare tuple sorts), then the second argument; the result is [((as const
    T) v)] for their texts [T] and [v]. With one argument, or with more than
    two, the contract is violated and nothing is rendered. *)
Theorem toSExpr_const_array (a0 a1 : Expression) (more : list Expression) so o
    (a self : addr) (domain range : SortPointer) :
  sort a0 = Some (SortSort a (Some (ArraySort self domain range))) ->
  let op := "const_array" in
  toSExpr order (mkExpression op [a0; a1] so) o
  = match toSmtLibSort order (ArraySort self domain range) o with
    | inr (T, o1) =>
        match toSExpr order a1 o1 with
        | inr (v, o') => inr ("((as const " +:+ T +:+ ") " +:+ v +:+ ")", o')
        | inl f => inl f
        end
    | inl f => inl f
    end
  /\ toSExpr order (mkExpression op [a0] so) o = inl (AssertionFailed "")
  /\ (more <> [] ->
      toSExpr order (mkExpression op (a0 :: a1 :: more) so) o = inl (AssertionFailed "")).
Proof.
  intros Hsort op. subst op. cbn [toSExpr].
  change (String.eqb "const_array" "int2bv") with false.
  change (String.eqb "const_array" "bv2int") with false.
  change (String.eqb "const_array" "const_array") with true. cbv iota.
  split; [|split].
  - rewrite Hsort. unfold bind.
    destruct (toSmtLibSort order (ArraySort self domain range) o) as [f|[T o1]]; [reflexivity|].
    destruct (toSExpr order a1 o1) as [f|[v o']]; [reflexivity|].
    unfold ret. now rewrite !append_assoc.
  - reflexivity.
  - intros Hmore. destruct more; [contradiction|reflexivity].
Qed.

(** X11. [addAssertion] that returns has appended to the top scope the
    datatype declarations of the tuple sorts that the expression made it
    render and then exactly one line [(assert t)], where [t] is the text of
    the expression; the registry got those tuple sorts; the declaration table,
    the unhandled queries and the number of scopes are as before. It fails
    exactly when the expression has no text or there is no scope to write to. *)
Theorem addAssertion_appends (e : Expression) o :
  match addAssertion order e o with
  | inr (_, o') =>
      exists new t o1,
        toSExpr order e o = inr (t, o1)
        /\ Forall isDatatypeDeclaration new
        /\ m_userSorts o' = (m_userSorts o ++ new)%list
        /\ m_accumulatedOutput o'
           = back_append (m_accumulatedOutput o)
               (declarationLines new +:+ "(assert " +:+ t +:+ ")" +:+ Cpp.nl)
        /\ m_variables o' = m_variables o
        /\ m_unhandledQueries o' = m_unhandledQueries o
        /\ depth o' = depth o
        /\ depth o <> 0%nat
  | inl f =>
      toSExpr order e o = inl f
      \/ (f = AssertionFailed "" /\ depth o = 0%nat
          /\ exists t o1, toSExpr order e o = inr (t, o1))
  end.
Proof.
  unfold addAssertion, bind.
  destruct (toSExpr order e o) as [f|[t o1]] eqn:He; [now left|].
  destruct (renders_toSExpr order e _ _ _ He) as [new [(V & U & _ & _ & _ & S & O & F) _]].
  assert (depth o1 = depth o) as Hdepth.
  { unfold depth. rewrite O. apply back_append_length. }
  destruct (write ("(assert " +:+ t +:+ ")") o1) as [f|[[] o']] eqn:Hw.
  - right. unfold write, bind, gets in Hw. unfold depth in Hdepth.
    destruct (m_accumulatedOutput o1) as [|x v]; [|discriminate Hw].
    cbn in Hw. assert (f = AssertionFailed "") as -> by congruence. clear Hw.
    cbn [length] in Hdepth. unfold depth. eauto 6.
  - apply write_inr in Hw as [Hne ->]. exists new, t, o1.
    unfold depth in *. cbn. rewrite back_append_length.
    rewrite O, back_append_append, !append_assoc.
    repeat split; try assumption.
    + apply back_append_length.
    + rewrite <- Hdepth. destruct (m_accumulatedOutput o1); [contradiction|cbn; lia].
Qed.

End ExpressionFacts.

Lemma toSExpr_application_witness :
  toSExpr leftToRight (mkExpression "+" [intX; indexOne] (Some (IntSort 1 false)))
    (freshSession None)
  = inr ("(+ x 1)", freshSession None).
Proof.
  refine (eq_trans
            (proj1 (proj2 (toSExpr_application leftToRight "+" [intX; indexOne]
                             (Some (IntSort 1 false)) (freshSession None) _)) eq_refl) _).
  - discriminate.
  - vm_compute. reflexivity.
Defined.

Lemma toSExpr_bv2int_witness :
  toSExpr leftToRight (mkExpression "bv2int" [bitVectorB] (Some (IntSort 1 true)))
    (freshSession None)
  = inr ("(ite (= ((_ extract 7 7)b) #b0) (bv2nat b) (- (bv2nat (bvneg b))))",
         freshSession None).
Proof.
  refine (eq_trans
            (proj1 (proj2 (toSExpr_bv2int leftToRight bitVectorB [] (Some (IntSort 1 true))
                             (freshSession None))) 1 3 8 eq_refl eq_refl _) _).
  - reflexivity.
  - vm_compute. reflexivity.
Defined.

Lemma toSExpr_tuple_get_witness :
  toSExpr leftToRight (mkExpression "tuple_get" [pairP; indexOne] (Some (BoolSort 7)))
    (freshSession None)
  = inr ("(|second| p)", freshSession None).
Proof.
  refine (eq_trans
            (proj1 (toSExpr_tuple_get leftToRight pairP indexOne (Some (BoolSort 7))
                      (freshSession None) 5 "pair" ["first"; "second"]
                      [Some (IntSort 6 false); Some (BoolSort 7)] 1 eq_refl _)
               "second" eq_refl) _).
  - vm_compute. reflexivity.
  - vm_compute. reflexivity.
Defined.

Lemma toSExpr_const_array_witness :
  match toSExpr leftToRight
          (mkExpression "const_array" [arraySortExpression; literalFalse] (Some arrayOfBool))
          (freshSession None) with
  | inr (text, _) => text = "((as const (Array Int Bool)) false)"
  | inl _ => False
  end.
Proof.
  rewrite (proj1 (toSExpr_const_array leftToRight arraySortExpression literalFalse []
                    (Some arrayOfBool) (freshSession None) 1 2
                    (Some (IntSort 3 false)) (Some (BoolSort 4)) eq_refl)).
  vm_compute. reflexivity.
Defined.

(** * Further properties of the dispatcher *)

Lemma prefix_head (a b : ascii) (p q s : string) :
  a <> b -> String.prefix (String a p) s = true -> String.prefix (String b q) s = false.
Proof.
  intros Hab. destruct s as [|c s]; [discriminate|]. cbn [String.prefix].
  destruct (Ascii.ascii_dec a c) as [<-|]; [|discriminate].
  destruct (Ascii.ascii_dec b a) as [->|]; [contradiction|reflexivity].
Qed.

(** X12. The classification looks at the front of the reply only, and the
    three prefixes exclude one another: a reply is [SATISFIABLE] exactly when
    it starts with [sat], [UNSATISFIABLE] exactly when it starts with [unsat],
    [UNKNOWN] exactly when it starts with [unknown], [ERROR] exactly when it
    starts with none of them, and never [CONFLICTING]. *)
Theorem resultFromSolverResponse_by_prefix (response : string) :
  (resultFromSolverResponse response = SATISFIABLE <-> String.prefix "sat" response = true)
  /\ (resultFromSolverResponse response = UNSATISFIABLE
      <-> String.prefix "unsat" response = true)
  /\ (resultFromSolverResponse response = UNKNOWN
      <-> String.prefix "unknown" response = true)
  /\ (resultFromSolverResponse response = ERROR
      <-> String.prefix "sat" response = false /\ String.prefix "unsat" response = false
          /\ String.prefix "unknown" response = false)
  /\ resultFromSolverResponse response <> CONFLICTING.
Proof.
  unfold resultFromSolverResponse, Cpp.starts_with.
  assert (String.prefix "sat" response = true -> String.prefix "unsat" response = false) as H1
    by (apply prefix_head; discriminate).
  assert (String.prefix "sat" response = true -> String.prefix "unknown" response = false) as H2
    by (apply prefix_head; discriminate).
  assert (String.prefix "unsat" response = true -> String.prefix "unknown" response = false)
    as H3.
  { clear. destruct response as [|c [|d r]]; cbn [String.prefix]; try discriminate.
    - now destruct (Ascii.ascii_dec "u" c).
    - destruct (Ascii.ascii_dec "u" c); [|discriminate].
      destruct (Ascii.ascii_dec "n" d); [|discriminate].
      apply prefix_head. discriminate. }
  destruct (String.prefix "sat" response) eqn:E1;
    [rewrite (H1 eq_refl), (H2 eq_refl); repeat split; try discriminate; try tauto;
       intros (? & _); discriminate|].
  destruct (String.prefix "unsat" response) eqn:E2;
    [rewrite (H3 eq_refl); repeat split; try discriminate; try tauto;
       intros (_ & ? & _); discriminate|].
  destruct (String.prefix "unknown" response) eqn:E3;
    repeat split; try discriminate; try tauto.
  intros (_ & _ & ?); discriminate.
Qed.

Lemma resultFromSolverResponse_by_prefix_witness :
  resultFromSolverResponse "saturated" = SATISFIABLE.
Proof.
  apply (proj2 (proj1 (resultFromSolverResponse_by_prefix "saturated"))). reflexivity.
Defined.

(** X13. Replies without value pairs. A reply without a line feed has no
    values. A reply with a line feed after which no blank follows has exactly
    one value, the empty text; this is so for the bare verdict line [sat] with
    its line feed. *)
Theorem parseValues_without_pairs (verdict rest : string) :
  occurs Cpp.LF verdict = false ->
  occurs " " rest = false ->
  parseValues verdict = []
  /\ parseValues (verdict +:+ Cpp.nl +:+ rest) = [""].
Proof.
  intros Hlf Hblank. unfold parseValues. split.
  - rewrite <- (append_nil_r verdict), find_skip by exact Hlf. reflexivity.
  - rewrite find_skip by exact Hlf. unfold Cpp.nl. rewrite append_cons, find_here.
    cbn [String.length parseValues_from].
    assert (Cpp.find " " (String Cpp.LF ("" +:+ rest)) = "") as ->.
    { cbn [Cpp.find]. change (Ascii.eqb Cpp.LF " ") with false. cbv iota.
      change ("" +:+ rest) with rest.
      rewrite <- (append_nil_r rest), find_skip by exact Hblank. reflexivity. }
    change (Cpp.next "") with "". change (Cpp.find ")" "") with "".
    change (Cpp.find "(" "") with "". change (Cpp.upto ")" "") with "".
    now destruct (String.length ("" +:+ rest)).
Qed.

Lemma parseValues_without_pairs_witness :
  parseValues "sat" = [] /\ parseValues ("sat" +:+ Cpp.nl +:+ "") = [""].
Proof.
  apply (parseValues_without_pairs "sat" ""); reflexivity.
Defined.

Section Verdict.

Context {World : Type}.
Variable SMTQuery : string.
Variable callback : Callback World.
Variable query : string.

Implicit Types (s : string) (commands : list string) (w : World) (r : ReadResult).

Lemma classify_cases r :
  classify r = SATISFIABLE \/ classify r = UNSATISFIABLE
  \/ classify r = UNKNOWN \/ classify r = ERROR.
Proof.
  unfold classify. destruct (success r); [apply resultFromSolverResponse_cases|tauto].
Qed.

(** One turn of the loop, by the classification of the reply. *)
Lemma consult_turn s commands (lastResult : CheckResult) (finalValues : list string) w r w' :
  callback (SMTQuery +:+ " " +:+ s) query w = (r, w') ->
  consult SMTQuery callback query (s :: commands) lastResult finalValues w
  = match classify r, lastResult with
    | SATISFIABLE, (UNKNOWN | CONFLICTING | ERROR) =>
        consult SMTQuery callback query commands SATISFIABLE
          (parseValues (responseOrErrorMessage r)) w'
    | UNSATISFIABLE, (UNKNOWN | CONFLICTING | ERROR) =>
        consult SMTQuery callback query commands UNSATISFIABLE finalValues w'
    | SATISFIABLE, UNSATISFIABLE | UNSATISFIABLE, SATISFIABLE =>
        (CONFLICTING, finalValues, w')
    | UNKNOWN, ERROR => consult SMTQuery callback query commands UNKNOWN finalValues w'
    | _, _ => consult SMTQuery callback query commands lastResult finalValues w'
    end.
Proof.
  intros E. unfold classify. destruct (success r) eqn:Hs.
  - apply consult_replied; assumption.
  - rewrite (consult_failed _ _ _ _ _ _ _ _ _ _ E Hs). now destruct lastResult.
Qed.

Lemma consult_verdict_values commands :
  forall (lastResult : CheckResult) (finalValues : list string) w,
    lastResult <> CONFLICTING ->
    let rs := replies SMTQuery callback query commands w in
    let out := consult SMTQuery callback query commands lastResult finalValues w in
    fst (fst out) = aggregate (lastResult :: map classify rs)
    /\ snd (fst out)
       = if solverAnswered lastResult then finalValues else valuesFrom finalValues rs.
Proof.
  induction commands as [|s commands IH]; intros lastResult finalValues w Hl.
  - cbn. split; now destruct lastResult.
  - cbn [replies]. destruct (callback (SMTQuery +:+ " " +:+ s) query w) as [r w'] eqn:E.
    cbv zeta. rewrite (consult_turn _ _ _ _ _ _ _ E).
    cbn [map]. unfold valuesFrom. cbn [firstAnswer].
    destruct (classify_cases r) as [C|[C|[C|C]]]; rewrite C;
      destruct lastResult; try contradiction;
      cbn [solverAnswered CheckResult_eqb orb fst snd];
      try match goal with
          | |- context [consult SMTQuery callback query commands ?L ?V w'] =>
              let H1 := fresh in
              let H2 := fresh in
              assert (L <> CONFLICTING) as H1 by discriminate;
              destruct (IH L V w' H1) as [H2 H3]; cbv zeta in H2, H3;
              rewrite H2, H3; clear H1 H2 H3
          end;
      unfold aggregate, among, valuesFrom; cbn [existsb CheckResult_eqb orb andb solverAnswered];
      rewrite ?C; cbn [CheckResult_eqb];
      (split; [|reflexivity]);
      destruct (existsb (CheckResult_eqb SATISFIABLE)
                  (map classify (replies SMTQuery callback query commands w')));
      destruct (existsb (CheckResult_eqb UNSATISFIABLE)
                  (map classify (replies SMTQuery callback query commands w')));
      destruct (existsb (CheckResult_eqb UNKNOWN)
                  (map classify (replies SMTQuery callback query commands w')));
      reflexivity.
Qed.

End Verdict.

Lemma firstAnswer_among (rs : list ReadResult) (r : ReadResult) :
  firstAnswer rs = Some r -> among (classify r) (map classify rs) = true.
Proof.
  induction rs as [|r0 rs IH]; [discriminate|]. cbn [firstAnswer map]. unfold among in *.
  cbn [existsb]. destruct (solverAnswered (classify r0)).
  - intros H. injection H as ->. now destruct (classify r).
  - intros H. rewrite (IH H). apply orb_true_r.
Qed.

Section Requests.

Context {World : Type}.
Variable SMTQuery : string.
Variable callback : Callback World.
Variable query : string.

(** The loop with a recording callback: the verdict, the values and the
    state of the callback are those of the loop with the callback itself, and
    the record grows by the requests for the first [n] commands, in their
    order; [n] is the number of all commands unless the loop ended at a
    conflict. *)
Lemma consult_recording (commands : list string) :
  forall (lastResult : CheckResult) (finalValues : list string)
         (log : list (string * string)) (w : World),
    let plain := consult SMTQuery callback query commands lastResult finalValues w in
    exists n : nat,
      consult SMTQuery (recording callback) query commands lastResult finalValues (log, w)
      = (fst (fst plain), snd (fst plain),
         ((log ++ requestsFor SMTQuery query (take n commands))%list, snd plain))
      /\ (n = length commands \/ fst (fst plain) = CONFLICTING).
Proof.
  induction commands as [|s commands IH]; intros lastResult finalValues log w.
  - exists 0%nat. cbn. rewrite app_nil_r. auto.
  - cbn [consult]. unfold recording at 1. cbn [fst snd].
    destruct (callback (SMTQuery +:+ " " +:+ s) query w) as [r w'].
    assert (forall l v,
              let plain := consult SMTQuery callback query commands l v w' in
              exists n : nat,
                consult SMTQuery (recording callback) query commands l v
                  ((log ++ [(SMTQuery +:+ " " +:+ s, query)])%list, w')
                = (fst (fst plain), snd (fst plain),
                   ((log ++ requestsFor SMTQuery query (take n (s :: commands)))%list,
                    snd plain))
                /\ (n = length (s :: commands) \/ fst (fst plain) = CONFLICTING)) as Step.
    { intros l v. destruct (IH l v (log ++ [(SMTQuery +:+ " " +:+ s, query)])%list w')
        as (n & E & Hn).
      exists (S n). cbv zeta. rewrite E. cbn [take requestsFor map length].
      rewrite <- app_assoc. split; [reflexivity|]. destruct Hn; auto. }
    cbv zeta.
    destruct (negb (success r)); [apply Step|].
    destruct (solverAnswered (resultFromSolverResponse (responseOrErrorMessage r))).
    + destruct (negb (solverAnswered lastResult)); [apply Step|].
      destruct (negb (CheckResult_eqb lastResult
                        (resultFromSolverResponse (responseOrErrorMessage r)))); [|apply Step].
      exists 1%nat. cbn. auto.
    + destruct (CheckResult_eqb (resultFromSolverResponse (responseOrErrorMessage r)) UNKNOWN
                && CheckResult_eqb lastResult ERROR); apply Step.
Qed.

End Requests.

Section CheckFacts.

Context {World : Type}.
Variable order : EvaluationOrder.
Variable SMTQuery : string.

(** X14. The verdict and the values of [check], once the query is built and a
    callback is installed. The verdict is a function of the classified replies
    of the enabled backends alone, whatever their order: [CONFLICTING] when a
    [SATISFIABLE] and an [UNSATISFIABLE] are among them, else [SATISFIABLE] or
    [UNSATISFIABLE] when one is among them, else [UNKNOWN] when one is among
    them, else [ERROR]. The values are those parsed from the first definitive
    reply when that reply is [SATISFIABLE], and none otherwise; so there are
    values only with the verdicts [SATISFIABLE] and [CONFLICTING]. *)
Theorem check_verdict_and_values (es : list Expression) (o : SMTLib2Interface World)
    (w : World) (query : string) (o1 : SMTLib2Interface World) (callback : Callback World) :
  dumpQuery order es o = inr (query, o1) ->
  m_smtCallback o = Some callback ->
  let rs := replies SMTQuery callback query (solverCommands (m_enabledSolvers o)) w in
  (exists o2 w2,
      check order SMTQuery es o w
      = inr (aggregate (map classify rs), valuesFrom [] rs, o2, w2))
  /\ (valuesFrom [] rs <> [] ->
      aggregate (map classify rs) = SATISFIABLE
      \/ aggregate (map classify rs) = CONFLICTING).
Proof.
  intros Hq Hc rs. split.
  - destruct (check_unfold order SMTQuery es o w query o1 callback Hq Hc) as (_ & _ & _ & ->).
    destruct (consult_verdict_values SMTQuery callback query
                (solverCommands (m_enabledSolvers o)) ERROR [] w) as [Hv Hs]; [discriminate|].
    cbv zeta in Hv, Hs. fold rs in Hv, Hs.
    destruct (consult SMTQuery callback query (solverCommands (m_enabledSolvers o)) ERROR [] w)
      as [[result values] w2].
    cbn [fst snd solverAnswered CheckResult_eqb orb] in Hv, Hs. subst result values.
    eexists _, w2. reflexivity.
  - unfold valuesFrom. destruct (firstAnswer rs) as [r|] eqn:Ef; [|congruence].
    destruct (classify r) eqn:C; cbn [CheckResult_eqb]; try congruence.
    intros _. apply firstAnswer_among in Ef. rewrite C in Ef.
    unfold aggregate. rewrite Ef. cbn [andb].
    destruct (among UNSATISFIABLE (map classify rs)); auto.
Qed.

(** X15. What [check] leaves behind. A [check] that returns has not written
    its tail command to the script: the top scope got at most the datatype
    declarations of the tuple sorts that the expressions to evaluate made it
    render, which also entered the registry; the declaration table and the
    number of scopes are as before, and the unhandled queries got at most one
    entry. Without expressions to evaluate the query is the scopes joined by
    line feeds followed by the line [(check-sat)], and the object is as it
    was, but for the query appended to the unhandled queries when the verdict
    is [ERROR]. *)
Theorem check_leaves_script (es : list Expression) (o : SMTLib2Interface World) (w : World)
    (result : CheckResult) (values : list string) (o2 : SMTLib2Interface World) (w2 : World) :
  check order SMTQuery es o w = inr (result, values, o2, w2) ->
  (exists new,
      Forall isDatatypeDeclaration new
      /\ m_accumulatedOutput o2
         = back_append (m_accumulatedOutput o) (declarationLines new)
      /\ m_userSorts o2 = (m_userSorts o ++ new)%list
      /\ m_variables o2 = m_variables o
      /\ depth o2 = depth o
      /\ exists query,
           m_unhandledQueries o2
           = if CheckResult_eqb result ERROR
             then (m_unhandledQueries o ++ [query])%list
             else m_unhandledQueries o)
  /\ (es = [] ->
      o2 = if CheckResult_eqb result ERROR
           then set_unhandledQueries
                  (fun v => (v ++ [Cpp.join (m_accumulatedOutput o) Cpp.nl
                                   +:+ "(check-sat)" +:+ Cpp.nl])%list) o
           else o).
Proof.
  intros H. unfold check in H.
  destruct (dumpQuery order es o) as [f|[query o1]] eqn:Hq; [discriminate H|].
  destruct (m_smtCallback o1) as [callback|]; [|discriminate H].
  destruct (consult SMTQuery callback query (solverCommands (m_enabledSolvers o1)) ERROR [] w)
    as [[lastResult finalValues] w'].
  injection H as <- <- <- <-. split.
  - destruct (renders_dumpQuery order es _ _ _ Hq) as [new [(V & U & _ & _ & _ & S & O & F) _]].
    exists new.
    assert (depth o1 = depth o) as Hd by (unfold depth; rewrite O; apply back_append_length).
    destruct (CheckResult_eqb lastResult ERROR); unfold depth in *; cbn; rewrite ?U; eauto 10.
  - intros ->. unfold dumpQuery, checkSatAndGetValuesCommand, bind, gets, ret in Hq.
    destruct (tailBeforeJoin order); injection Hq as <- <-; reflexivity.
Qed.

(** X16. The query and the order of evaluation. The query is the joined scopes
    followed by the tail command, and building the tail command may write
    datatype declarations to the top scope. When the tail command is built
    before the scopes are joined, the query holds these declarations; when the
    scopes are joined first, it does not, although the script holds them
    afterwards. The language leaves the choice to the compiler. *)
Theorem dumpQuery_by_evaluation_order (es : list Expression) (o : SMTLib2Interface World)
    (query : string) (o' : SMTLib2Interface World) :
  dumpQuery order es o = inr (query, o') ->
  exists tail new,
    checkSatAndGetValuesCommand order es o = inr (tail, o')
    /\ Forall isDatatypeDeclaration new
    /\ m_accumulatedOutput o'
       = back_append (m_accumulatedOutput o) (declarationLines new)
    /\ query
       = Cpp.join (if tailBeforeJoin order then m_accumulatedOutput o'
                   else m_accumulatedOutput o) Cpp.nl
         +:+ tail.
Proof.
  intros H. unfold dumpQuery in H. destruct (tailBeforeJoin order).
  - apply bind_inr in H as (tail & o1 & Ht & H).
    apply bind_inr in H as (output & o2 & Ho & H). injection Ho as <- <-.
    injection H as <- <-.
    destruct (renders_checkSatAndGetValuesCommand order es _ _ _ Ht)
      as [new [(_ & _ & _ & _ & _ & _ & O & F) _]].
    exists tail, new. auto.
  - apply bind_inr in H as (output & o1 & Ho & H). injection Ho as <- <-.
    apply bind_inr in H as (tail & o2 & Ht & H). injection H as <- <-.
    destruct (renders_checkSatAndGetValuesCommand order es _ _ _ Ht)
      as [new [(_ & _ & _ & _ & _ & _ & O & F) _]].
    exists tail, new. auto.
Qed.

End CheckFacts.

Lemma check_verdict_and_values_witness :
  exists o2 w2,
    check leftToRight "smt-query" [intX] (freshSession (Some satAndUnsat)) tt
    = inr (CONFLICTING, ["5"], o2, w2).
Proof.
  destruct (proj1 (check_verdict_and_values leftToRight "smt-query" [intX]
                     (freshSession (Some satAndUnsat)) tt queryForX
                     (freshSession (Some satAndUnsat)) satAndUnsat
                     ltac:(vm_compute; reflexivity) eq_refl))
    as (o2 & w2 & E).
  exists o2, w2. rewrite E. vm_compute. reflexivity.
Defined.

Lemma check_leaves_script_witness :
  exists new,
    Forall isDatatypeDeclaration new
    /\ m_accumulatedOutput sessionAfterCheck
       = back_append (m_accumulatedOutput (freshSession (Some (answering "unknown"))))
           (declarationLines new)
    /\ m_userSorts sessionAfterCheck
       = (m_userSorts (freshSession (Some (answering "unknown"))) ++ new)%list
    /\ m_variables sessionAfterCheck
       = m_variables (freshSession (Some (answering "unknown")))
    /\ depth sessionAfterCheck = depth (freshSession (Some (answering "unknown")))
    /\ exists query,
         m_unhandledQueries sessionAfterCheck
         = if CheckResult_eqb UNKNOWN ERROR
           then (m_unhandledQueries (freshSession (Some (answering "unknown"))) ++ [query])%list
           else m_unhandledQueries (freshSession (Some (answering "unknown"))).
Proof.
  apply (proj1 (check_leaves_script leftToRight "smt-query" [pairsEqual]
                  (freshSession (Some (answering "unknown"))) tt UNKNOWN []
                  sessionAfterCheck tt ltac:(vm_compute; reflexivity))).
Defined.

Lemma dumpQuery_by_evaluation_order_witness :
  (exists tail new,
      checkSatAndGetValuesCommand leftToRight [pairsEqual] (freshSession None)
      = inr (tail, sessionAfterPairs)
      /\ Forall isDatatypeDeclaration new
      /\ m_accumulatedOutput sessionAfterPairs
         = back_append (m_accumulatedOutput (freshSession None)) (declarationLines new)
      /\ queryOf leftToRight [pairsEqual] (freshSession None)
         = Cpp.join (if tailBeforeJoin leftToRight then m_accumulatedOutput sessionAfterPairs
                     else m_accumulatedOutput (freshSession None)) Cpp.nl
           +:+ tail)
  /\ contains "(declare-datatypes" (queryOf leftToRight [pairsEqual] (freshSession None))
     = false
  /\ contains "(declare-datatypes" (queryOf tailFirst [pairsEqual] (freshSession None))
     = true
  /\ contains "(declare-datatypes" (Cpp.join (m_accumulatedOutput sessionAfterPairs) Cpp.nl)
     = true.
Proof.
  split; [|repeat split; vm_compute; reflexivity].
  apply (dumpQuery_by_evaluation_order leftToRight [pairsEqual] (freshSession None)
           (queryOf leftToRight [pairsEqual] (freshSession None)) sessionAfterPairs).
  vm_compute. reflexivity.
Defined.

Section CheckRequests.

Context {World : Type}.
Variable order : EvaluationOrder.
Variable SMTQuery : string.

(** X17. The requests of [check]. With a callback that records its requests,
    [check] extends the record by requests for the enabled backends, z3 (with
    its resource limit) before cvc4, each asked at most once and about the
    same query, the one that [dumpQuery] returns; the label of a request is
    the tag, a blank and the command. Every enabled backend is asked unless
    the verdict is [CONFLICTING]. *)
Theorem check_requests (es : list Expression)
    (o : SMTLib2Interface (list (string * string) * World))
    (log : list (string * string)) (w : World) (query : string)
    (o1 : SMTLib2Interface (list (string * string) * World)) (callback : Callback World) :
  dumpQuery order es o = inr (query, o1) ->
  m_smtCallback o = Some (recording callback) ->
  exists result values o2 (n : nat) w2,
    check order SMTQuery es o (log, w)
    = inr (result, values, o2,
           ((log ++ requestsFor SMTQuery query
                      (take n ((if z3 (m_enabledSolvers o) then ["z3 rlimit=1000000"] else [])
                               ++ (if cvc4 (m_enabledSolvers o) then ["cvc4"] else []))))%list,
            w2))
    /\ (n = ((if z3 (m_enabledSolvers o) then 1 else 0)
             + (if cvc4 (m_enabledSolvers o) then 1 else 0))%nat
        \/ result = CONFLICTING).
Proof.
  intros Hq Hc.
  destruct (check_unfold order SMTQuery es o (log, w) query o1 _ Hq Hc) as (_ & _ & _ & ->).
  destruct (consult_recording SMTQuery callback query (solverCommands (m_enabledSolvers o))
              ERROR [] log w) as (n & -> & Hn).
  cbv zeta in Hn. eexists _, _, _, n, _. split; [reflexivity|].
  destruct Hn as [-> | Hn]; [left|now right].
  unfold solverCommands. now destruct (z3 _), (cvc4 _).
Qed.

End CheckRequests.

Lemma check_requests_witness :
  exists result values o2 (n : nat) w2,
    check leftToRight "smt-query" [] recordingSession ([], tt)
    = inr (result, values, o2,
           (([] ++ requestsFor "smt-query" plainQuery
                     (take n ((if z3 (m_enabledSolvers recordingSession)
                               then ["z3 rlimit=1000000"] else [])
                              ++ (if cvc4 (m_enabledSolvers recordingSession)
                                  then ["cvc4"] else []))))%list,
            w2))
    /\ (n = ((if z3 (m_enabledSolvers recordingSession) then 1 else 0)
             + (if cvc4 (m_enabledSolvers recordingSession) then 1 else 0))%nat
        \/ result = CONFLICTING).
Proof.
  apply (check_requests leftToRight "smt-query" [] recordingSession [] tt plainQuery
           recordingSession (answering "unsat")).
  - vm_compute. reflexivity.
  - reflexivity.
Defined.

Section SolverFacts.

Context {World : Type}.
Variable SMTQuery : string.
Variable solve : string -> string -> World -> ReadResult * World.

(** X18. The callback of [SMTSolverCommand::solver()] accepts every request
    that [check] makes: on the label of a request for any command its
    assertion holds, and it answers as [solve] does. On a kind that does not
    start with the tag it fails with an assertion. *)
Theorem solver_accepts_requests (query : string) (commands : list string) (w : World) :
  Forall (fun request =>
            solver SMTQuery solve (fst request) (snd request) w
            = inr (solve (fst request) query w))
    (requestsFor SMTQuery query commands)
  /\ (forall kind : string,
        String.prefix SMTQuery kind = false ->
        solver SMTQuery solve kind query w = inl (AssertionFailed "")).
Proof.
  split.
  - unfold requestsFor. apply Forall_map, Forall_forall. intros s _. cbn [fst snd].
    unfold solver, rfind_from_0. now rewrite prefix_append.
  - intros kind Hk. unfold solver, rfind_from_0. now rewrite Hk.
Qed.

End SolverFacts.

Lemma solver_accepts_requests_witness :
  solver "smt-query" (answering "sat") "source" "(check-sat)" tt = inl (AssertionFailed "").
Proof.
  apply (proj2 (solver_accepts_requests "smt-query" (answering "sat") "(check-sat)" [] tt)).
  reflexivity.
Defined.

(** * Further properties of the reader *)

Module ReaderFacts.

Import Parser.

(** ** Single steps *)

Lemma plainChar_inv (c : ascii) :
  plainChar c = true ->
  isWhiteSpace c = false /\ Ascii.eqb c "(" = false /\ Ascii.eqb c ")" = false
  /\ Ascii.eqb c ";" = false /\ Ascii.eqb c NUL = false.
Proof.
  unfold plainChar, delimiter. intros H.
  apply andb_true_iff in H as [H Hn]. apply andb_true_iff in H as [Hd Hs].
  apply negb_true_iff in Hn, Hs, Hd.
  apply orb_false_iff in Hd as [Hd Hc]. apply orb_false_iff in Hd as [Hw Ho]. auto.
Qed.

Lemma delimiter_inv (c : ascii) :
  delimiter c = true -> Ascii.eqb c ";" = false /\ Ascii.eqb c NUL = false.
Proof.
  unfold delimiter, isWhiteSpace. intros H.
  repeat (apply orb_true_iff in H as [H|H]); apply Ascii.eqb_eq in H; subst c; auto.
Qed.

(** [advance] in a good stream that has no comment next: the reader moves on
    to what the stream has left, also at the end of the input. *)
Lemma advance_plain (p : SMTLib2Parser) :
  good (m_input p) = true ->
  startsComment (remaining (m_input p)) = false ->
  advance p = Returns tt (before (remaining (m_input p))).
Proof.
  destruct p as [[text ok] tok]. cbn [m_input good remaining]. intros -> Hc.
  unfold advance, get. cbn [m_input good remaining negb].
  destruct text as [|c r]; [reflexivity|]. cbn [startsComment] in Hc. now rewrite Hc.
Qed.

Lemma advance_before (c : ascii) (text : string) :
  startsComment text = false ->
  advance (before (String c text)) = Returns tt (before text).
Proof. intros Hc. now apply advance_plain. Qed.

Lemma skipWhitespace_stays (fuel : nat) (p : SMTLib2Parser) :
  isWhiteSpace (token p) = false -> skipWhitespace (S fuel) p = Returns tt p.
Proof. intros H. cbn [skipWhitespace]. now rewrite H. Qed.

Lemma skipWhitespace_step (fuel : nat) (p : SMTLib2Parser) :
  isWhiteSpace (token p) = true ->
  skipWhitespace (S fuel) p = andThen (advance p) (fun _ => skipWhitespace fuel).
Proof. intros H. cbn [skipWhitespace]. now rewrite H. Qed.

Lemma skipComment_none (comment : string) :
  occurs Cpp.LF comment = false -> occurs NUL comment = false ->
  skipComment comment = None.
Proof.
  induction comment as [|a comment IH]; intros Hlf Hnul; [reflexivity|].
  cbn [occurs] in Hlf, Hnul.
  apply orb_false_iff in Hlf as [Ha1 Hlf]. apply orb_false_iff in Hnul as [Ha2 Hnul].
  cbn [skipComment]. rewrite Ha1, Ha2. cbn [orb]. auto.
Qed.

(** ** The end of the input *)

Lemma allPlain_no_comment (a : string) : allPlain a = true -> startsComment a = false.
Proof.
  destruct a as [|c a]; [reflexivity|]. cbn [allPlain startsComment].
  intros H. apply andb_true_iff in H as [H _]. now apply plainChar_inv in H.
Qed.

Lemma parseToken_loop_at_end (a : string) :
  forall (result : string) (fuel : nat),
    allPlain a = true -> (String.length a + 1 <= fuel)%nat ->
    parseToken_loop fuel false result (before a) = ParsingException.
Proof.
  induction a as [|c a IH]; intros result fuel Ha Hf;
    (destruct fuel as [|fuel]; [cbn [String.length] in Hf; lia|]).
  - reflexivity.
  - cbn [allPlain] in Ha. apply andb_true_iff in Ha as [Hc Ha].
    destruct (plainChar_inv c Hc) as (Hw & Ho & Hcl & _ & Hn).
    cbn [parseToken_loop]. change (token (before (String c a))) with c.
    rewrite Hn, Hw, Ho, Hcl.
    cbn [negb orb andb]. rewrite advance_before by now apply allPlain_no_comment.
    cbn [andThen]. apply IH; [exact Ha|]. cbn [String.length] in Hf. lia.
Qed.

(** X19. An unquoted atom needs a delimiter behind it. In front of a text that
    is a plain atom and nothing else, or is empty, [parseExpression] throws
    the parsing exception: at the end of the input the reader takes the
    end-of-file value for a character of the atom and advances once more. *)
Theorem atom_at_end_of_input_throws (a : string) (fuel : nat) :
  plainAtom a = true \/ a = "" ->
  (String.length a + 2 <= fuel)%nat ->
  parseExpression fuel (before a) = ParsingException.
Proof.
  intros Ha Hf. destruct fuel as [|fuel]; [lia|].
  destruct fuel as [|fuel]; [lia|].
  assert (isWhiteSpace (token (before a)) = false /\ Ascii.eqb (token (before a)) "(" = false
          /\ Ascii.eqb (token (before a)) "|" = false /\ allPlain a = true)
    as (Hw & Ho & Hp & Hall).
  { destruct Ha as [Ha | ->]; [|repeat split].
    destruct a as [|c a]; [discriminate Ha|]. cbn [plainAtom] in Ha.
    apply andb_true_iff in Ha as [Hp Hall]. apply negb_true_iff in Hp.
    pose proof Hall as Hc. cbn [allPlain] in Hc. apply andb_true_iff in Hc as [Hc _].
    destruct (plainChar_inv c Hc) as (Hw & Ho & _). cbn [before token m_token]. auto. }
  cbn [parseExpression]. rewrite skipWhitespace_stays by exact Hw. cbn [andThen].
  rewrite Ho. unfold parseToken. rewrite skipWhitespace_stays by exact Hw.
  cbn [andThen]. rewrite Hp. cbn [andThen].
  rewrite parseToken_loop_at_end; [reflexivity|exact Hall|lia].
Qed.

(** ** Comments *)

(** X20. A comment that no line feed ends. When [advance] reads a [;] and
    neither a line feed nor a zero character follows in the input, its loop
    never ends. So [parseExpression] does not return in front of white space
    followed by such a comment. *)
Theorem unterminated_comment_diverges (ws comment : string) :
  occurs Cpp.LF comment = false -> occurs NUL comment = false ->
  (forall p : SMTLib2Parser,
      good (m_input p) = true ->
      remaining (m_input p) = String ";" comment ->
      advance p = Diverges)
  /\ (ws <> "" -> allWhiteSpace ws = true ->
      forall fuel : nat,
        (String.length ws + 1 <= fuel)%nat ->
        parseExpression fuel (before (ws +:+ String ";" comment)) = Diverges).
Proof.
  intros Hlf Hnul.
  assert (forall p : SMTLib2Parser,
             good (m_input p) = true ->
             remaining (m_input p) = String ";" comment ->
             advance p = Diverges) as Hadvance.
  { intros [[text ok] tok]. cbn [m_input good remaining]. intros -> ->.
    unfold advance, get. cbn [m_input good remaining negb].
    change (Ascii.eqb ";" ";") with true. cbv iota.
    now rewrite skipComment_none. }
  split; [exact Hadvance|]. intros Hne Hws fuel Hf.
  assert (forall (ws : string) (fuel : nat),
             ws <> "" -> allWhiteSpace ws = true -> (String.length ws <= fuel)%nat ->
             skipWhitespace fuel (before (ws +:+ String ";" comment)) = Diverges) as Hskip.
  { clear ws Hne Hws fuel Hf. induction ws as [|c ws IH]; intros fuel Hne Hws Hf;
      [contradiction|].
    cbn [allWhiteSpace] in Hws. apply andb_true_iff in Hws as [Hc Hws].
    destruct fuel as [|fuel]; [cbn [String.length] in Hf; lia|].
    rewrite append_cons. cbn [skipWhitespace].
    change (token (before (String c (ws +:+ String ";" comment)))) with c. rewrite Hc.
    destruct ws as [|d ws].
    - change ("" +:+ String ";" comment) with (String ";" comment).
      now rewrite Hadvance.
    - rewrite advance_plain.
      + cbn [andThen m_input remaining]. apply IH; [discriminate|exact Hws|].
        cbn [String.length] in *. lia.
      + reflexivity.
      + rewrite append_cons. cbn [before m_input remaining startsComment].
        cbn [allWhiteSpace] in Hws. apply andb_true_iff in Hws as [Hd _].
        destruct (Ascii.eqb_spec d ";") as [->|]; [discriminate Hd|reflexivity]. }
  destruct fuel as [|fuel]; [lia|]. cbn [parseExpression].
  rewrite Hskip; [reflexivity|exact Hne|exact Hws|lia].
Qed.

(** ** Quoted atoms *)

Lemma parseToken_loop_quoted (s : string) :
  forall (result : string) (fuel : nat) (rest : string),
    allQuoted s = true -> startsComment rest = false ->
    (String.length s + 1 <= fuel)%nat ->
    parseToken_loop fuel true result (before (s +:+ String "|" rest))
    = Returns (result +:+ s) (before rest).
Proof.
  induction s as [|c s IH]; intros result fuel rest Hs Hrest Hf;
    (destruct fuel as [|fuel]; [cbn [String.length] in Hf; lia|]).
  - change ("" +:+ String "|" rest) with (String "|" rest).
    cbn [parseToken_loop]. change (token (before (String "|" rest))) with "|"%char.
    change (Ascii.eqb "|" NUL) with false. change (Ascii.eqb "|" "|") with true.
    cbn [andb]. rewrite advance_before by exact Hrest. cbn [andThen].
    now rewrite append_nil_r.
  - cbn [allQuoted] in Hs. apply andb_true_iff in Hs as [Hc Hs].
    apply andb_true_iff in Hc as [Hc Hn]. apply andb_true_iff in Hc as [Hp Hsc].
    apply negb_true_iff in Hp, Hsc, Hn.
    rewrite append_cons. cbn [parseToken_loop].
    change (token (before (String c (s +:+ String "|" rest)))) with c.
    rewrite Hn, Hp. cbn [negb andb]. rewrite advance_before.
    + cbn [andThen]. rewrite IH; [|exact Hs|exact Hrest|cbn [String.length] in Hf; lia].
      now rewrite append_assoc.
    + destruct s as [|d s]; [reflexivity|]. rewrite append_cons. cbn [startsComment].
      cbn [allQuoted] in Hs. apply andb_true_iff in Hs as [Hd _].
      apply andb_true_iff in Hd as [Hd _]. apply andb_true_iff in Hd as [_ Hd].
      now apply negb_true_iff in Hd.
Qed.

(** X21. A quoted atom. In front of a bar, a text without bar, [;] and zero
    character, and a closing bar, [parseExpression] returns the text between
    the bars as an atom, white space and parentheses included, and holds the
    character behind the closing bar; no delimiter is needed there, the input
    may end. The rendering of the atom is the text without the bars. *)
Theorem quoted_atom_read (s rest : string) (fuel : nat) :
  allQuoted s = true ->
  startsComment rest = false ->
  (String.length s + 2 <= fuel)%nat ->
  parseExpression fuel (before (String "|" (s +:+ String "|" rest)))
  = Returns (Atom s) (before rest)
  /\ toString (Atom s) = s.
Proof.
  intros Hs Hrest Hf. split; [|reflexivity].
  destruct fuel as [|fuel]; [lia|]. destruct fuel as [|fuel]; [lia|].
  cbn [parseExpression]. rewrite skipWhitespace_stays by reflexivity. cbn [andThen].
  change (token (before (String "|" (s +:+ String "|" rest)))) with "|"%char.
  change (Ascii.eqb "|" "(") with false. cbv iota.
  unfold parseToken. rewrite skipWhitespace_stays by reflexivity. cbn [andThen].
  change (token (before (String "|" (s +:+ String "|" rest)))) with "|"%char.
  change (Ascii.eqb "|" "|") with true. cbv iota.
  rewrite advance_before.
  - cbn [andThen]. rewrite parseToken_loop_quoted; [reflexivity|exact Hs|exact Hrest|lia].
  - destruct s as [|d s]; [reflexivity|]. rewrite append_cons. cbn [startsComment].
    cbn [allQuoted] in Hs. apply andb_true_iff in Hs as [Hd _].
    apply andb_true_iff in Hd as [Hd _]. apply andb_true_iff in Hd as [_ Hd].
    now apply negb_true_iff in Hd.
Qed.

(** ** Reading back what [toString] renders *)

Lemma plain_no_comment (a rest : string) :
  allPlain a = true -> delimited rest = true -> startsComment (a +:+ rest) = false.
Proof.
  destruct a as [|c a]; intros Ha Hr.
  - change ("" +:+ rest) with rest. destruct rest as [|d rest]; [discriminate Hr|].
    cbn [delimited] in Hr. cbn [startsComment]. now apply delimiter_inv in Hr.
  - rewrite append_cons. cbn [startsComment]. cbn [allPlain] in Ha.
    apply andb_true_iff in Ha as [Hc _]. now apply plainChar_inv in Hc.
Qed.

Lemma parseToken_loop_plain (a : string) :
  forall (result : string) (fuel : nat) (rest : string),
    allPlain a = true -> delimited rest = true ->
    (String.length a + 1 <= fuel)%nat ->
    parseToken_loop fuel false result (before (a +:+ rest))
    = Returns (result +:+ a) (before rest).
Proof.
  induction a as [|c a IH]; intros result fuel rest Ha Hr Hf;
    (destruct fuel as [|fuel]; [cbn [String.length] in Hf; lia|]).
  - change ("" +:+ rest) with rest. destruct rest as [|d rest]; [discriminate Hr|].
    cbn [delimited] in Hr. cbn [parseToken_loop].
    change (token (before (String d rest))) with d.
    destruct (delimiter_inv d Hr) as [_ Hn]. rewrite Hn. unfold delimiter in Hr.
    rewrite Hr. cbn [negb andb]. now rewrite append_nil_r.
  - pose proof (plain_no_comment a rest) as Hnc.
    cbn [allPlain] in Ha. apply andb_true_iff in Ha as [Hc Ha].
    destruct (plainChar_inv c Hc) as (Hw & Ho & Hcl & _ & Hn).
    rewrite append_cons. cbn [parseToken_loop].
    change (token (before (String c (a +:+ rest)))) with c.
    rewrite Hn, Hw, Ho, Hcl. cbn [negb orb andb].
    rewrite advance_before by auto. cbn [andThen].
    rewrite IH; [|exact Ha|exact Hr|cbn [String.length] in Hf; lia].
    now rewrite append_assoc.
Qed.

Lemma atom_read (a rest : string) (fuel : nat) :
  plainAtom a = true -> delimited rest = true ->
  (String.length a + 2 <= fuel)%nat ->
  parseExpression fuel (before (a +:+ rest)) = Returns (Atom a) (before rest).
Proof.
  intros Ha Hr Hf. destruct fuel as [|fuel]; [lia|]. destruct fuel as [|fuel]; [lia|].
  destruct a as [|c a]; [discriminate Ha|]. cbn [plainAtom] in Ha.
  apply andb_true_iff in Ha as [Hp Hall]. apply negb_true_iff in Hp.
  pose proof Hall as Hc. cbn [allPlain] in Hc. apply andb_true_iff in Hc as [Hc _].
  destruct (plainChar_inv c Hc) as (Hw & Ho & _).
  cbn [parseExpression]. rewrite skipWhitespace_stays by exact Hw. cbn [andThen].
  change (token (before (String c a +:+ rest))) with c. rewrite Ho.
  unfold parseToken. rewrite skipWhitespace_stays by exact Hw. cbn [andThen].
  change (token (before (String c a +:+ rest))) with c. rewrite Hp. cbn [andThen].
  rewrite parseToken_loop_plain; [reflexivity|exact Hall|exact Hr|lia].
Qed.

(** The text of a list of expressions starts with the text of the first. *)
Lemma join_cons (e : SMTLib2Expression) (r : list SMTLib2Expression) (tail : string) :
  Cpp.join (map toString (e :: r)) " " +:+ tail
  = toString e +:+ (match r with [] => "" | _ => " " end)
    +:+ Cpp.join (map toString r) " " +:+ tail.
Proof.
  destruct r as [|y r]; [reflexivity|].
  cbn [map Cpp.join]. now rewrite !append_assoc.
Qed.

(** The text of a printable expression starts with a character that is no
    white space, no closing parenthesis, no [;] and not zero. *)
Lemma toString_head (e : SMTLib2Expression) (tail : string) :
  printable e = true ->
  exists c t,
    toString e +:+ tail = String c t
    /\ isWhiteSpace c = false /\ Ascii.eqb c NUL = false
    /\ Ascii.eqb c ")" = false /\ Ascii.eqb c ";" = false.
Proof.
  destruct e as [a|es]; cbn [printable toString]; intros Hp.
  - destruct a as [|c a]; [discriminate Hp|]. cbn [plainAtom allPlain] in Hp.
    apply andb_true_iff in Hp as [_ Hp]. apply andb_true_iff in Hp as [Hc _].
    destruct (plainChar_inv c Hc) as (Hw & _ & Hcl & Hs & Hn).
    exists c, (a +:+ tail). rewrite append_cons. auto.
  - eexists "("%char, _. split; [reflexivity|]. repeat split.
Qed.

(** What follows the opening parenthesis of a printable list starts with a
    character that is no white space and no [;]. *)
Lemma elements_head (es : list SMTLib2Expression) (rest : string) :
  forallb printable es = true ->
  exists c t,
    Cpp.join (map toString es) " " +:+ String ")" rest = String c t
    /\ isWhiteSpace c = false /\ Ascii.eqb c ";" = false.
Proof.
  destruct es as [|e r]; intros Hp.
  - exists ")"%char, rest. repeat split.
  - cbn [forallb] in Hp. apply andb_true_iff in Hp as [He _].
    rewrite join_cons.
    destruct (toString_head e
                ((match r with [] => "" | _ => " " end)
                 +:+ Cpp.join (map toString r) " " +:+ String ")" rest) He)
      as (c & t & E & Hw & _ & _ & Hs).
    exists c, t. auto.
Qed.

(** The white space between the elements of a list and in front of its
    closing parenthesis. *)
Lemma skipWhitespace_between (e : SMTLib2Expression) (separator body : string)
    (c : ascii) (t : string) (fuel : nat) :
  separator = "" \/ separator = " " ->
  body = String c t -> isWhiteSpace c = false -> Ascii.eqb c ";" = false ->
  (3 <= fuel)%nat ->
  skipWhitespace fuel (afterExpression e (separator +:+ body)) = Returns tt (before body).
Proof.
  intros Hsep -> Hw Hs Hf.
  destruct fuel as [|[|[|fuel]]]; try lia.
  assert (forall f, skipWhitespace (S f) (before (String c t))
                    = Returns tt (before (String c t))) as Hstay
    by (intros f; now apply skipWhitespace_stays).
  assert (forall f, skipWhitespace (S (S f)) (before (String " " (String c t)))
                    = Returns tt (before (String c t))) as Hblank.
  { intros f. rewrite skipWhitespace_step by reflexivity.
    rewrite advance_before by exact Hs. apply Hstay. }
  destruct e as [a|es]; cbn [afterExpression]; destruct Hsep as [-> | ->].
  - apply Hstay.
  - apply Hblank.
  - change ("" +:+ String c t) with (String c t).
    rewrite skipWhitespace_step by reflexivity.
    rewrite advance_plain; [|reflexivity|exact Hs]. apply Hstay.
  - change (" " +:+ String c t) with (String " " (String c t)).
    rewrite skipWhitespace_step by reflexivity.
    rewrite advance_plain; [|reflexivity|reflexivity]. apply Hblank.
Qed.

Lemma elements_read (es : list SMTLib2Expression) :
  Forall readsBack es ->
  forallb printable es = true ->
  forall (subExpressions : list SMTLib2Expression) (rest : string),
    exists n : nat,
      forall fuel : nat,
        (n <= fuel)%nat ->
        parseList fuel subExpressions
          (before (Cpp.join (map toString es) " " +:+ String ")" rest))
        = Returns (subExpressions ++ es)%list (before (String ")" rest)).
Proof.
  induction 1 as [|e r He _ IH]; intros Hp acc rest.
  - exists 1%nat. intros fuel Hf. destruct fuel as [|fuel]; [lia|].
    rewrite app_nil_r. reflexivity.
  - cbn [forallb] in Hp. apply andb_true_iff in Hp as [Hpe Hpr].
    set (separator := match r with [] => "" | _ => " " end).
    set (body := Cpp.join (map toString r) " " +:+ String ")" rest).
    destruct (elements_head r rest Hpr) as (c & t & Ebody & Hw & Hs). fold body in Ebody.
    assert (separator = "" \/ separator = " ") as Hsep by (subst separator; destruct r; auto).
    assert (match e with Atom _ => delimited (separator +:+ body) = true | List _ => True end)
      as Hdelimited.
    { destruct e; [|exact I]. subst separator. destruct r as [|y r]; [|reflexivity].
      subst body. reflexivity. }
    destruct (He Hpe (separator +:+ body) Hdelimited) as [ne Hne].
    destruct (IH Hpr (acc ++ [e])%list rest) as [nr Hnr].
    exists (S (Nat.max (Nat.max ne 3) nr)). intros fuel Hf.
    destruct fuel as [|fuel]; [lia|].
    rewrite join_cons. fold separator. fold body.
    destruct (toString_head e (separator +:+ body) Hpe) as (h & ht & Eh & _ & Hn & Hcl & _).
    cbn [parseList].
    assert (token (before (toString e +:+ separator +:+ body)) = h) as -> by now rewrite Eh.
    rewrite Hn, Hcl. cbn [negb andb].
    rewrite Hne by lia. cbn [andThen].
    rewrite (skipWhitespace_between e separator body c t fuel Hsep Ebody Hw Hs) by lia.
    cbn [andThen]. fold body in Hnr. rewrite Hnr by lia.
    now rewrite <- app_assoc.
Qed.

(** X22. Reading back what [toString] renders. For an expression all of whose
    atoms are plain (not empty, without white space, parentheses, [;] and zero
    character, not starting with a bar), the reader in front of the rendering
    of the expression returns the expression, given enough fuel. An atom must
    have a delimiter behind it, which the reader then holds; a list may be
    followed by anything, also by the end of the input: the reader does not
    read past the closing parenthesis and holds a blank instead. *)
Theorem toString_read_back (e : SMTLib2Expression) (rest : string) :
  printable e = true ->
  match e with Atom _ => delimited rest = true | List _ => True end ->
  exists n : nat,
    forall fuel : nat,
      (n <= fuel)%nat ->
      parseExpression fuel (before (toString e +:+ rest))
      = Returns e (afterExpression e rest).
Proof.
  intros Hp Hrest. enough (readsBack e) as Hreads by exact (Hreads Hp rest Hrest).
  clear rest Hp Hrest.
  induction e as [a|es IH] using SMTLib2Expression_induction; intros Hp rest Hrest.
  - exists (String.length a + 2)%nat. intros fuel Hf. now apply atom_read.
  - cbn [printable] in Hp.
    destruct (elements_read es IH Hp [] rest) as [n Hn].
    destruct (elements_head es rest Hp) as (c & t & Ebody & Hw & Hs).
    exists (S (S n)). intros fuel Hf.
    destruct fuel as [|fuel]; [lia|]. destruct fuel as [|fuel]; [lia|].
    assert (toString (List es) +:+ rest
            = String "(" (Cpp.join (map toString es) " " +:+ String ")" rest)) as ->.
    { cbn [toString]. unfold joinHumanReadable. now rewrite !append_assoc. }
    cbn [parseExpression]. rewrite skipWhitespace_stays by reflexivity. cbn [andThen].
    change (token (before (String "(" (Cpp.join (map toString es) " " +:+ String ")" rest))))
      with "("%char.
    change (Ascii.eqb "(" "(") with true. cbv iota.
    rewrite advance_before by (rewrite Ebody; exact Hs). cbn [andThen].
    rewrite skipWhitespace_stays by (rewrite Ebody; exact Hw). cbn [andThen].
    rewrite Hn by lia. reflexivity.
Qed.

Lemma atom_at_end_of_input_throws_witness :
  parseExpression 5 (before "abc") = ParsingException.
Proof.
  apply (atom_at_end_of_input_throws "abc" 5).
  - left. reflexivity.
  - cbn. lia.
Defined.

Lemma unterminated_comment_diverges_witness :
  parseExpression 3 (before (" " +:+ String ";" " no line feed")) = Diverges.
Proof.
  apply (proj2 (unterminated_comment_diverges " " " no line feed" eq_refl eq_refl)).
  - discriminate.
  - reflexivity.
  - cbn. lia.
Defined.

Lemma quoted_atom_read_witness :
  parseExpression 10 (before (String "|" ("foo (bar" +:+ String "|" "")))
  = Returns (Atom "foo (bar") (before "")
  /\ toString (Atom "foo (bar") = "foo (bar".
Proof.
  apply (quoted_atom_read "foo (bar" "" 10).
  - reflexivity.
  - reflexivity.
  - cbn. lia.
Defined.

Lemma toString_read_back_witness :
  exists n : nat,
    forall fuel : nat,
      (n <= fuel)%nat ->
      parseExpression fuel
        (before (toString (List [Atom "a"; List [Atom "b"; Atom "c"]; List []]) +:+ ""))
      = Returns (List [Atom "a"; List [Atom "b"; Atom "c"]; List []])
          (afterExpression (List [Atom "a"; List [Atom "b"; Atom "c"]; List []]) "").
Proof.
  apply (toString_read_back (List [Atom "a"; List [Atom "b"; Atom "c"]; List []]) "").
  - reflexivity.
  - exact I.
Defined.

End ReaderFacts.

(** * The loops of the reader end *)

Module ReaderTermination.

Import Parser.

Lemma within_le {A : Type} (bound bound' : nat) (r : Result A) :
  (bound <= bound')%nat -> within bound r -> within bound' r.
Proof. destruct r; cbn [within]; auto; lia. Qed.

Lemma within_andThen {A B : Type} (r : Result A) (k : A -> SMTLib2Parser -> Result B)
    (bound bound' : nat) :
  within bound r ->
  (forall a p, r = Returns a p -> (measure p <= bound)%nat -> within bound' (k a p)) ->
  within bound' (andThen r k).
Proof.
  destruct r as [a p| | | |]; cbn [within andThen]; auto.
Qed.

Lemma skipComment_shorter (input : string) (c : ascii) (r : string) :
  skipComment input = Some (c, r) -> (String.length r < String.length input)%nat.
Proof.
  induction input as [|a input IH]; [discriminate|]. cbn [skipComment String.length].
  destruct (Ascii.eqb a Cpp.LF || Ascii.eqb a NUL).
  - intros H. injection H as _ <-. lia.
  - intros H. apply IH in H. lia.
Qed.

(** [advance] never runs out of fuel, and when it returns, the reader has
    less left to do: it has read a character or found the end of the input. *)
Lemma advance_measure (p : SMTLib2Parser) :
  match advance p with
  | Returns _ p' => (measure p' + 2 <= measure p)%nat
  | OutOfFuel => False
  | _ => True
  end.
Proof.
  destruct p as [[text ok] tok]. unfold advance, get, measure.
  cbn [m_input good remaining]. destruct ok; [|exact I]. cbn [negb].
  destruct text as [|c r].
  - cbn. lia.
  - destruct (Ascii.eqb c ";").
    + cbn [remaining]. destruct (skipComment r) as [[c' r']|] eqn:E; [|exact I].
      apply skipComment_shorter in E. cbn [m_input good remaining String.length]. lia.
    + cbn [m_input good remaining String.length]. lia.
Qed.

Lemma advance_within (p : SMTLib2Parser) (bound : nat) :
  (measure p <= bound + 2)%nat -> within bound (advance p).
Proof.
  intros H. pose proof (advance_measure p) as Ha.
  destruct (advance p); cbn [within]; auto. lia.
Qed.

Lemma skipWhitespace_ends (fuel : nat) :
  forall p : SMTLib2Parser,
    (measure p + 1 <= fuel)%nat ->
    within (measure p) (skipWhitespace fuel p)
    /\ (forall u p', skipWhitespace fuel p = Returns u p' ->
                     p' = p \/ (measure p' + 2 <= measure p)%nat).
Proof.
  induction fuel as [|fuel IH]; intros p Hf; [lia|].
  cbn [skipWhitespace]. destruct (isWhiteSpace (token p)).
  - pose proof (advance_measure p) as Ha.
    destruct (advance p) as [u p1| | | |]; cbn [andThen within]; try (split; [exact I|discriminate]).
    + destruct (IH p1) as [Hw Hp]; [lia|]. split.
      * eapply within_le; [|exact Hw]. lia.
      * intros u' p' E. destruct (Hp u' p' E) as [-> |]; right; lia.
    + contradiction.
  - split; [cbn [within]; lia|]. intros u p' E. injection E as _ <-. now left.
Qed.

Lemma parseToken_loop_ends (fuel : nat) :
  forall (isPipe : bool) (result : string) (p : SMTLib2Parser),
    (measure p + 1 <= fuel)%nat ->
    within (measure p) (parseToken_loop fuel isPipe result p)
    /\ (Ascii.eqb (token p) NUL = false ->
        isPipe = true \/ delimiter (token p) = false ->
        forall t p', parseToken_loop fuel isPipe result p = Returns t p' ->
                     (measure p' + 2 <= measure p)%nat).
Proof.
  induction fuel as [|fuel IH]; intros isPipe result p Hf; [lia|].
  cbn [parseToken_loop]. destruct (Ascii.eqb (token p) NUL).
  { split; [cbn [within]; lia|discriminate]. }
  pose proof (advance_measure p) as Ha.
  destruct (isPipe && Ascii.eqb (token p) "|").
  { destruct (advance p) as [u p1| | | |]; cbn [andThen within];
      try (split; [exact I|intros; discriminate]); [|contradiction].
    split; [lia|]. intros _ _ t p' E. injection E as _ <-. exact Ha. }
  fold (delimiter (token p)).
  destruct (negb isPipe && delimiter (token p)) eqn:Hd.
  { split; [cbn [within]; lia|]. intros _ [-> | Hn]; [discriminate Hd|].
    rewrite Hn, andb_false_r in Hd. discriminate Hd. }
  destruct (advance p) as [u p1| | | |]; cbn [andThen within];
    try (split; [exact I|intros; discriminate]); [|contradiction].
  destruct (IH isPipe (result +:+ String (token p) "") p1) as [Hw _]; [lia|]. split.
  - eapply within_le; [|exact Hw]. lia.
  - intros _ _ t p' E. rewrite E in Hw. cbn [within] in Hw. lia.
Qed.

Lemma parseToken_ends (fuel : nat) (p : SMTLib2Parser) :
  (measure p + 1 <= fuel)%nat ->
  within (measure p) (parseToken fuel p)
  /\ (isWhiteSpace (token p) = false -> delimiter (token p) = false ->
      Ascii.eqb (token p) NUL = false ->
      forall t p', parseToken fuel p = Returns t p' -> (measure p' + 2 <= measure p)%nat).
Proof.
  intros Hf. unfold parseToken. split.
  - destruct (skipWhitespace_ends fuel p Hf) as [Hw _].
    eapply within_andThen; [exact Hw|]. intros u p1 _ H1.
    eapply within_andThen with (bound := measure p1).
    + destruct (Ascii.eqb (token p1) "|"); [|cbn [within]; lia].
      apply advance_within. lia.
    + intros u' p2 _ H2. destruct (parseToken_loop_ends fuel (Ascii.eqb (token p1) "|") "" p2)
        as [Hl _]; [lia|]. eapply within_le; [|exact Hl]. lia.
  - intros Hws Hd Hn t p' E. destruct fuel as [|fuel]; [lia|].
    rewrite ReaderFacts.skipWhitespace_stays in E by exact Hws. cbn [andThen] in E.
    destruct (Ascii.eqb (token p) "|") eqn:Hp.
    + pose proof (advance_measure p) as Ha.
      destruct (advance p) as [u p1| | | |]; cbn [andThen] in E; try discriminate E.
      destruct (parseToken_loop_ends (S fuel) true "" p1) as [Hl _]; [lia|].
      rewrite E in Hl. cbn [within] in Hl. lia.
    + cbn [andThen] in E.
      destruct (parseToken_loop_ends (S fuel) false "" p Hf) as [_ Hl].
      eapply Hl; eauto.
Qed.

(** [parseExpression] with [measure p + 2] units of fuel and [parseList] with
    [measure p + 3]: neither runs out of fuel, the reader that is returned
    has no more left to do, and [parseExpression] has less left to do when
    the reader did not hold a zero character or a closing parenthesis. *)
Lemma reader_ends (fuel : nat) :
  (forall p : SMTLib2Parser,
      (measure p + 2 <= fuel)%nat ->
      within (measure p) (parseExpression fuel p)
      /\ (Ascii.eqb (token p) NUL = false -> Ascii.eqb (token p) ")" = false ->
          forall e p', parseExpression fuel p = Returns e p' ->
                       (measure p' + 2 <= measure p)%nat))
  /\ (forall (subExpressions : list SMTLib2Expression) (p : SMTLib2Parser),
        (measure p + 3 <= fuel)%nat ->
        within (measure p) (parseList fuel subExpressions p)).
Proof.
  induction fuel as [|fuel [IHE IHL]]; [split; intros; lia|].
  assert (forall p : SMTLib2Parser,
             (measure p + 2 <= S fuel)%nat ->
             forall u p1, skipWhitespace fuel p = Returns u p1 ->
             (measure p1 <= measure p)%nat ->
             within (measure p1)
               (if Ascii.eqb (token p1) "("
                then andThen (advance p1) (fun _ p =>
                       andThen (skipWhitespace fuel p) (fun _ p =>
                         andThen (parseList fuel [] p) (fun subExpressions p =>
                           if Ascii.eqb (token p) ")"
                           then Returns (List subExpressions)
                                  {| m_input := m_input p; m_token := " " |}
                           else AssertionFailure)))
                else andThen (parseToken fuel p1) (fun t => Returns (Atom t)))
             /\ (Ascii.eqb (token p1) NUL = false -> Ascii.eqb (token p1) ")" = false ->
                 isWhiteSpace (token p1) = false ->
                 forall e p',
                   (if Ascii.eqb (token p1) "("
                    then andThen (advance p1) (fun _ p =>
                           andThen (skipWhitespace fuel p) (fun _ p =>
                             andThen (parseList fuel [] p) (fun subExpressions p =>
                               if Ascii.eqb (token p) ")"
                               then Returns (List subExpressions)
                                      {| m_input := m_input p; m_token := " " |}
                               else AssertionFailure)))
                    else andThen (parseToken fuel p1) (fun t => Returns (Atom t)))
                   = Returns e p' ->
                   (measure p' + 2 <= measure p1)%nat)) as Body.
  { intros p Hf u p1 _ H1. destruct (Ascii.eqb (token p1) "(") eqn:Hopen.
    - pose proof (advance_measure p1) as Ha.
      destruct (advance p1) as [u2 p2| | | |]; cbn [andThen within];
        try (split; [exact I|intros; discriminate]); [|contradiction].
      destruct (skipWhitespace_ends fuel p2) as [Hw _]; [lia|].
      destruct (skipWhitespace fuel p2) as [u3 p3| | | |]; cbn [andThen within] in *;
        try (split; [exact I|intros; discriminate]); [|contradiction].
      pose proof (IHL [] p3) as Hl. specialize (Hl ltac:(lia)).
      destruct (parseList fuel [] p3) as [es p4| | | |]; cbn [andThen within] in *;
        try (split; [exact I|intros; discriminate]); [|contradiction].
      destruct (Ascii.eqb (token p4) ")"); cbn [within];
        [|split; [exact I|intros; discriminate]].
      assert (measure {| m_input := m_input p4; m_token := " " |} = measure p4) as Hm
        by reflexivity.
      split; [lia|]. intros _ _ _ e p' E. injection E as _ <-. lia.
    - destruct (parseToken_ends fuel p1) as [Ht Hp]; [lia|].
      split.
      + eapply within_andThen; [exact Ht|]. intros t p2 _ H2. cbn [within]. exact H2.
      + intros Hn Hc Hws e p' E.
        destruct (parseToken fuel p1) as [t p2| | | |] eqn:Et; cbn [andThen] in E;
          try discriminate E.
        injection E as _ <-. eapply Hp; eauto.
        unfold delimiter. now rewrite Hws, Hopen, Hc. }
  split.
  - intros p Hf. cbn [parseExpression].
    destruct (skipWhitespace_ends fuel p) as [Hw Hp]; [lia|].
    destruct (skipWhitespace fuel p) as [u p1| | | |] eqn:Es; cbn [andThen within] in *;
      try (split; [exact I|intros; discriminate]); [|contradiction].
    destruct (Body p Hf u p1 Es Hw) as [Bw Bp]. split.
    + eapply within_le; [|exact Bw]. exact Hw.
    + intros Hn Hc e p' E.
      destruct (Hp u p1 eq_refl) as [-> | Hless].
      * assert (isWhiteSpace (token p) = false) as Hws.
        { destruct fuel as [|fuel']; [discriminate Es|]. cbn [skipWhitespace] in Es.
          destruct (isWhiteSpace (token p)) eqn:Hws; [|reflexivity].
          pose proof (advance_measure p) as Ha.
          destruct (advance p) as [u2 p2| | | |]; cbn [andThen] in Es; try discriminate Es.
          destruct (skipWhitespace_ends fuel' p2) as [_ Hp2]; [lia|].
          destruct (Hp2 _ _ Es) as [<- |]; lia. }
        eapply Bp; eauto.
      * pose proof Bw as Bw'. rewrite E in Bw'. cbn [within] in Bw'. lia.
  - intros acc p Hf. cbn [parseList].
    destruct (negb (Ascii.eqb (token p) NUL) && negb (Ascii.eqb (token p) ")")) eqn:Hcond;
      [|cbn [within]; lia].
    apply andb_true_iff in Hcond as [Hn Hc]. apply negb_true_iff in Hn, Hc.
    destruct (IHE p) as [Hw Hp]; [lia|].
    destruct (parseExpression fuel p) as [e p1| | | |] eqn:Ee; cbn [andThen within] in *;
      auto.
    specialize (Hp Hn Hc e p1 eq_refl).
    destruct (skipWhitespace_ends fuel p1) as [Hw1 _]; [lia|].
    destruct (skipWhitespace fuel p1) as [u p2| | | |]; cbn [andThen within] in *; auto.
    eapply within_le; [|apply IHL; lia]. lia.
Qed.

(** ** More fuel changes nothing *)

Lemma andThen_more {A B : Type} (r r' : Result A) (k k' : A -> SMTLib2Parser -> Result B) :
  andThen r k <> OutOfFuel ->
  (r <> OutOfFuel -> r' = r) ->
  (forall a p, r = Returns a p -> k a p <> OutOfFuel -> k' a p = k a p) ->
  andThen r' k' = andThen r k.
Proof.
  intros H Hr Hk. destruct r as [a p| | | |]; cbn [andThen] in H;
    try (rewrite Hr by discriminate; reflexivity).
  - rewrite Hr by discriminate. cbn [andThen]. now apply Hk.
  - contradiction.
Qed.

Lemma skipWhitespace_more (fuel : nat) :
  forall p : SMTLib2Parser,
    skipWhitespace fuel p <> OutOfFuel -> skipWhitespace (S fuel) p = skipWhitespace fuel p.
Proof.
  induction fuel as [|fuel IH]; intros p H; [now contradiction H|].
  change (skipWhitespace (S (S fuel)) p)
    with (if isWhiteSpace (token p)
          then andThen (advance p) (fun _ => skipWhitespace (S fuel))
          else Returns tt p).
  change (skipWhitespace (S fuel) p)
    with (if isWhiteSpace (token p)
          then andThen (advance p) (fun _ => skipWhitespace fuel)
          else Returns tt p) in H |- *.
  destruct (isWhiteSpace (token p)); [|reflexivity].
  apply andThen_more; [exact H|reflexivity|]. intros _ p1 _ H1. now apply IH.
Qed.

Lemma parseToken_loop_more (fuel : nat) :
  forall (isPipe : bool) (result : string) (p : SMTLib2Parser),
    parseToken_loop fuel isPipe result p <> OutOfFuel ->
    parseToken_loop (S fuel) isPipe result p = parseToken_loop fuel isPipe result p.
Proof.
  induction fuel as [|fuel IH]; intros isPipe result p H; [now contradiction H|].
  change (parseToken_loop (S (S fuel)) isPipe result p)
    with (if Ascii.eqb (token p) NUL then Returns result p
          else if isPipe && Ascii.eqb (token p) "|"
               then andThen (advance p) (fun _ => Returns result)
               else if negb isPipe
                       && (isWhiteSpace (token p) || Ascii.eqb (token p) "("
                           || Ascii.eqb (token p) ")")
                    then Returns result p
                    else andThen (advance p)
                           (fun _ => parseToken_loop (S fuel) isPipe
                                       (result +:+ String (token p) EmptyString))).
  change (parseToken_loop (S fuel) isPipe result p)
    with (if Ascii.eqb (token p) NUL then Returns result p
          else if isPipe && Ascii.eqb (token p) "|"
               then andThen (advance p) (fun _ => Returns result)
               else if negb isPipe
                       && (isWhiteSpace (token p) || Ascii.eqb (token p) "("
                           || Ascii.eqb (token p) ")")
                    then Returns result p
                    else andThen (advance p)
                           (fun _ => parseToken_loop fuel isPipe
                                       (result +:+ String (token p) EmptyString)))
    in H |- *.
  destruct (Ascii.eqb (token p) NUL); [reflexivity|].
  destruct (isPipe && Ascii.eqb (token p) "|"); [reflexivity|].
  destruct (negb isPipe
            && (isWhiteSpace (token p) || Ascii.eqb (token p) "(" || Ascii.eqb (token p) ")"));
    [reflexivity|].
  apply andThen_more; [exact H|reflexivity|]. intros _ p1 _ H1. now apply IH.
Qed.

Lemma parseToken_more (fuel : nat) (p : SMTLib2Parser) :
  parseToken fuel p <> OutOfFuel -> parseToken (S fuel) p = parseToken fuel p.
Proof.
  unfold parseToken. intros H.
  apply andThen_more; [exact H|apply skipWhitespace_more|]. intros _ p1 _ H1.
  apply andThen_more; [exact H1|reflexivity|]. intros _ p2 _ H2.
  now apply parseToken_loop_more.
Qed.

Lemma reader_more (fuel : nat) :
  (forall p : SMTLib2Parser,
      parseExpression fuel p <> OutOfFuel ->
      parseExpression (S fuel) p = parseExpression fuel p)
  /\ (forall (subExpressions : list SMTLib2Expression) (p : SMTLib2Parser),
        parseList fuel subExpressions p <> OutOfFuel ->
        parseList (S fuel) subExpressions p = parseList fuel subExpressions p).
Proof.
  induction fuel as [|fuel [IHE IHL]]; [split; intros; now contradiction H|].
  split.
  - intros p H.
    change (parseExpression (S (S fuel)) p)
      with (andThen (skipWhitespace (S fuel) p) (fun _ p =>
              if Ascii.eqb (token p) "("
              then andThen (advance p) (fun _ p =>
                     andThen (skipWhitespace (S fuel) p) (fun _ p =>
                       andThen (parseList (S fuel) [] p) (fun subExpressions p =>
                         if Ascii.eqb (token p) ")"
                         then Returns (List subExpressions)
                                {| m_input := m_input p; m_token := " " |}
                         else AssertionFailure)))
              else andThen (parseToken (S fuel) p) (fun t => Returns (Atom t)))).
    change (parseExpression (S fuel) p)
      with (andThen (skipWhitespace fuel p) (fun _ p =>
              if Ascii.eqb (token p) "("
              then andThen (advance p) (fun _ p =>
                     andThen (skipWhitespace fuel p) (fun _ p =>
                       andThen (parseList fuel [] p) (fun subExpressions p =>
                         if Ascii.eqb (token p) ")"
                         then Returns (List subExpressions)
                                {| m_input := m_input p; m_token := " " |}
                         else AssertionFailure)))
              else andThen (parseToken fuel p) (fun t => Returns (Atom t)))) in H |- *.
    apply andThen_more; [exact H|apply skipWhitespace_more|]. intros _ p1 _ H1.
    destruct (Ascii.eqb (token p1) "(").
    + apply andThen_more; [exact H1|reflexivity|]. intros _ p2 _ H2.
      apply andThen_more; [exact H2|apply skipWhitespace_more|]. intros _ p3 _ H3.
      apply andThen_more; [exact H3|apply IHL|]. reflexivity.
    + apply andThen_more; [exact H1|apply parseToken_more|]. reflexivity.
  - intros acc p H.
    change (parseList (S (S fuel)) acc p)
      with (if negb (Ascii.eqb (token p) NUL) && negb (Ascii.eqb (token p) ")")
            then andThen (parseExpression (S fuel) p) (fun e p =>
                   andThen (skipWhitespace (S fuel) p) (fun _ =>
                     parseList (S fuel) (acc ++ [e])%list))
            else Returns acc p).
    change (parseList (S fuel) acc p)
      with (if negb (Ascii.eqb (token p) NUL) && negb (Ascii.eqb (token p) ")")
            then andThen (parseExpression fuel p) (fun e p =>
                   andThen (skipWhitespace fuel p) (fun _ =>
                     parseList fuel (acc ++ [e])%list))
            else Returns acc p) in H |- *.
    destruct (negb (Ascii.eqb (token p) NUL) && negb (Ascii.eqb (token p) ")"));
      [|reflexivity].
    apply andThen_more; [exact H|apply IHE|]. intros e p1 _ H1.
    apply andThen_more; [exact H1|apply skipWhitespace_more|]. intros _ p2 _ H2.
    now apply IHL.
Qed.

(** X23. The loops of the reader end, but for the loop over a comment.
    Whatever the reader holds and whatever is left in the stream,
    [parseExpression] with fuel of twice the length of what is left plus four
    does not run out of fuel: it returns, throws, fails an assertion, or hangs
    in the loop of [advance] over a comment that no line feed ends; and more
    fuel gives the same result. When it returns, the reader has no more left
    to do than before, and less when it did not hold a zero character or a
    closing parenthesis at the start. *)
Theorem reader_terminates (p : SMTLib2Parser) (fuel : nat) :
  (2 * String.length (remaining (m_input p)) + 4 <= fuel)%nat ->
  parseExpression fuel p <> OutOfFuel
  /\ (forall more : nat, parseExpression (fuel + more) p = parseExpression fuel p)
  /\ forall e p',
       parseExpression fuel p = Returns e p' ->
       (measure p' <= measure p)%nat
       /\ (Ascii.eqb (token p) NUL = false -> Ascii.eqb (token p) ")" = false ->
           (measure p' < measure p)%nat).
Proof.
  intros Hf.
  assert (measure p + 2 <= fuel)%nat as Hm.
  { unfold measure. destruct (good (m_input p)); lia. }
  assert (forall fuel, (measure p + 2 <= fuel)%nat -> parseExpression fuel p <> OutOfFuel)
    as Hends.
  { intros f Hle E. destruct (proj1 (reader_ends f) p Hle) as [Hw _].
    rewrite E in Hw. exact Hw. }
  destruct (proj1 (reader_ends fuel) p Hm) as [Hw Hp]. split; [now apply Hends|]. split.
  - induction more as [|more IH]; [now rewrite Nat.add_0_r|].
    rewrite Nat.add_succ_r, <- IH. apply (proj1 (reader_more (fuel + more))).
    apply Hends. lia.
  - intros e p' E. split.
    + rewrite E in Hw. exact Hw.
    + intros Hn Hc. specialize (Hp Hn Hc e p' E). lia.
Qed.

Lemma reader_terminates_witness :
  parseExpression 14 (before "(a (b") <> OutOfFuel
  /\ (forall more : nat,
        parseExpression (14 + more) (before "(a (b") = parseExpression 14 (before "(a (b"))
  /\ forall e p',
       parseExpression 14 (before "(a (b") = Returns e p' ->
       (measure p' <= measure (before "(a (b"))%nat
       /\ (Ascii.eqb (token (before "(a (b")) NUL = false ->
           Ascii.eqb (token (before "(a (b")) ")" = false ->
           (measure p' < measure (before "(a (b"))%nat).
Proof.
  apply (reader_terminates (before "(a (b") 14). cbn. lia.
Defined.

End ReaderTermination.

(** * The assertion of the reader *)

Module ReaderAssertion.

Import Parser.

Lemma safe_andThen {A B : Type} (Q : A -> SMTLib2Parser -> Prop)
    (Q' : B -> SMTLib2Parser -> Prop) (r : Result A) (k : A -> SMTLib2Parser -> Result B) :
  safe Q r ->
  (forall a p, clean p -> Q a p -> safe Q' (k a p)) ->
  safe Q' (andThen r k).
Proof.
  destruct r as [a p| | | |]; cbn [safe andThen]; auto. intros [Hc Hq] Hk. auto.
Qed.

Lemma skipComment_clean (input : string) (c : ascii) (r : string) :
  occurs NUL input = false ->
  skipComment input = Some (c, r) ->
  Ascii.eqb c NUL = false /\ occurs NUL r = false.
Proof.
  induction input as [|a input IH]; [discriminate|]. cbn [occurs skipComment].
  intros H. apply orb_false_iff in H as [Ha Hr]. rewrite Ha, orb_false_r.
  destruct (Ascii.eqb a Cpp.LF).
  - intros E. injection E as <- <-. auto.
  - now apply IH.
Qed.

Lemma advance_clean (p : SMTLib2Parser) : clean p -> safe (fun _ _ => True) (advance p).
Proof.
  destruct p as [[text ok] tok]. unfold clean, advance, get.
  cbn [token m_token m_input good remaining]. intros [_ Hr].
  destruct ok; [|exact I]. cbn [negb]. destruct text as [|c r].
  - cbn. repeat split.
  - cbn [occurs] in Hr. apply orb_false_iff in Hr as [Hc Hr].
    destruct (Ascii.eqb c ";").
    + cbn [remaining]. destruct (skipComment r) as [[c' r']|] eqn:E; [|exact I].
      apply skipComment_clean in E; [|exact Hr].
      unfold safe, clean. cbn [token m_token m_input remaining]. tauto.
    + unfold safe, clean. cbn [token m_token m_input remaining]. tauto.
Qed.

Lemma skipWhitespace_clean (fuel : nat) :
  forall p : SMTLib2Parser, clean p -> safe (fun _ _ => True) (skipWhitespace fuel p).
Proof.
  induction fuel as [|fuel IH]; intros p Hc; [exact I|].
  cbn [skipWhitespace]. destruct (isWhiteSpace (token p)); [|cbn; auto].
  eapply safe_andThen; [now apply advance_clean|]. intros _ p1 H1 _. now apply IH.
Qed.

Lemma parseToken_loop_clean (fuel : nat) :
  forall (isPipe : bool) (result : string) (p : SMTLib2Parser),
    clean p -> safe (fun _ _ => True) (parseToken_loop fuel isPipe result p).
Proof.
  induction fuel as [|fuel IH]; intros isPipe result p Hc; [exact I|].
  cbn [parseToken_loop]. destruct (Ascii.eqb (token p) NUL); [cbn; auto|].
  destruct (isPipe && Ascii.eqb (token p) "|").
  { eapply safe_andThen; [now apply advance_clean|]. intros _ p1 H1 _. cbn. auto. }
  destruct (negb isPipe
            && (isWhiteSpace (token p) || Ascii.eqb (token p) "(" || Ascii.eqb (token p) ")"));
    [cbn; auto|].
  eapply safe_andThen; [now apply advance_clean|]. intros _ p1 H1 _. now apply IH.
Qed.

Lemma parseToken_clean (fuel : nat) (p : SMTLib2Parser) :
  clean p -> safe (fun _ _ => True) (parseToken fuel p).
Proof.
  intros Hc. unfold parseToken.
  eapply safe_andThen; [now apply skipWhitespace_clean|]. intros _ p1 H1 _.
  eapply safe_andThen with (Q := fun _ _ => True).
  - destruct (Ascii.eqb (token p1) "|"); [now apply advance_clean|cbn; auto].
  - intros _ p2 H2 _. now apply parseToken_loop_clean.
Qed.

(** A clean reader stays clean and fails no assertion; the loop over the
    elements of a list leaves it at a closing parenthesis. *)
Lemma reader_clean (fuel : nat) :
  (forall p : SMTLib2Parser, clean p -> safe (fun _ _ => True) (parseExpression fuel p))
  /\ (forall (subExpressions : list SMTLib2Expression) (p : SMTLib2Parser),
        clean p ->
        safe (fun _ p' => Ascii.eqb (token p') ")" = true)
          (parseList fuel subExpressions p)).
Proof.
  induction fuel as [|fuel [IHE IHL]]; [split; intros; exact I|]. split.
  - intros p Hc. cbn [parseExpression].
    eapply safe_andThen; [now apply skipWhitespace_clean|]. intros _ p1 H1 _.
    destruct (Ascii.eqb (token p1) "(").
    + eapply safe_andThen; [now apply advance_clean|]. intros _ p2 H2 _.
      eapply safe_andThen; [now apply skipWhitespace_clean|]. intros _ p3 H3 _.
      eapply safe_andThen; [now apply IHL|]. intros es p4 [_ H4] Hclose.
      cbv beta in Hclose. rewrite Hclose. cbn. repeat split. exact H4.
    + eapply safe_andThen; [now apply parseToken_clean|]. intros t p2 H2 _. cbn. auto.
  - intros acc p Hc. cbn [parseList].
    destruct (Ascii.eqb (token p) NUL) eqn:Hn; [destruct Hc; congruence|].
    destruct (Ascii.eqb (token p) ")") eqn:Hclose; cbn [negb andb]; [cbn; auto|].
    eapply safe_andThen; [now apply IHE|]. intros e p1 H1 _.
    eapply safe_andThen; [now apply skipWhitespace_clean|]. intros _ p2 H2 _.
    now apply IHL.
Qed.

(** X24. The assertion of [parseExpression], that a list ends at a closing
    parenthesis, fails only on a zero character. In front of a text without
    zero character [parseExpression] never fails the assertion, whatever the
    fuel; in front of an opening parenthesis that a zero character follows it
    does. *)
Theorem assertion_needs_zero_character (text : string) :
  (occurs NUL text = false ->
   forall fuel : nat, parseExpression fuel (before text) <> AssertionFailure)
  /\ (forall fuel : nat,
        (2 <= fuel)%nat ->
        parseExpression fuel (before (String "(" (String NUL text))) = AssertionFailure).
Proof.
  split.
  - intros Hz fuel E.
    assert (clean (before text)) as Hc.
    { destruct text as [|c r]; [split; reflexivity|]. cbn [occurs] in Hz.
      apply orb_false_iff in Hz as [Hz Hr]. split; assumption. }
    pose proof (proj1 (reader_clean fuel) _ Hc) as Hs. rewrite E in Hs. exact Hs.
  - intros fuel Hf. destruct fuel as [|[|fuel]]; try lia.
    change (parseExpression (S (S fuel)) (before (String "(" (String NUL text))))
      with (andThen (advance (before (String "(" (String NUL text)))) (fun _ p =>
              andThen (skipWhitespace (S fuel) p) (fun _ p =>
                andThen (parseList (S fuel) [] p) (fun subExpressions p =>
                  if Ascii.eqb (token p) ")"
                  then Returns (List subExpressions)
                         {| m_input := m_input p; m_token := " " |}
                  else AssertionFailure)))).
    rewrite ReaderFacts.advance_before by reflexivity. reflexivity.
Qed.

Lemma assertion_needs_zero_character_witness :
  parseExpression 2 (before (String "(" (String NUL "a)"))) = AssertionFailure.
Proof.
  apply (proj2 (assertion_needs_zero_character "a)") 2%nat). lia.
Defined.

End ReaderAssertion.

(** * The reader and its comments *)

Module ParserFacts.

Import Parser.










End ParserFacts.
